(** * Pose refinement of nerf-navigation: [estimator_helpers.py]

    A shallow embedding of [vec2ss_matrix], [camera_transf.forward],
    [find_POI] and [Estimator.estimate_pose], and the properties of the
    specification that concern them.

    Tensor and array entries are floating point numbers in the program.
    They are modelled through the interface [Scalar], which lists the
    arithmetic the source applies to them.  Two instances are used: the
    real numbers (exact arithmetic, every value finite) and the reals
    extended with one absorbing not-a-number value. *)

From Stdlib Require Import String Ascii.
From Stdlib Require Import List Arith Bool Lia ZArith.
From Stdlib Require Import Permutation.
From Stdlib Require Import Reals Lra.
From Stdlib.Strings Require Byte.
Import ListNotations.

Set Implicit Arguments.

(* ================================================================= *)
(** ** Scalars *)

Class Scalar (F : Type) : Type := {
  of_Z : Z -> F;
  sadd : F -> F -> F;
  ssub : F -> F -> F;
  smul : F -> F -> F;
  sdiv : F -> F -> F;
  sneg : F -> F;
  sabs : F -> F;
  ssin : F -> F;
  scos : F -> F;
  ssqrt : F -> F;
  satan2 : F -> F -> F;
  spow : F -> F -> F;
  spi : F;
  sltb : F -> F -> bool;
  sleb : F -> F -> bool;
  seqb : F -> F -> bool;
  isfinite : F -> bool
}.

Declare Scope scalar_scope.
Delimit Scope scalar_scope with S.
Notation "x + y" := (sadd x y) : scalar_scope.
Notation "x - y" := (ssub x y) : scalar_scope.
Notation "x * y" := (smul x y) : scalar_scope.
Notation "x / y" := (sdiv x y) : scalar_scope.
Notation "- x" := (sneg x) : scalar_scope.
Notation "x <? y" := (sltb x y) : scalar_scope.
Notation "x <=? y" := (sleb x y) : scalar_scope.
Notation "x =? y" := (seqb x y) : scalar_scope.
Notation "# z" := (of_Z z%Z) (at level 9, z at level 9) : scalar_scope.

(** *** Exact real arithmetic *)

Definition Rltb (a b : R) : bool := if Rlt_dec a b then true else false.
Definition Rleb (a b : R) : bool := if Rle_dec a b then true else false.
Definition Reqb (a b : R) : bool := if Req_dec_T a b then true else false.

(** [numpy.arctan2 y x]. *)
Definition Ratan2 (y x : R) : R :=
  if Rlt_dec 0 x then atan (y / x)
  else if Rlt_dec x 0 then
    (if Rle_dec 0 y then atan (y / x) + PI else atan (y / x) - PI)
  else if Rlt_dec 0 y then PI / 2
  else if Rlt_dec y 0 then - (PI / 2)
  else 0.

#[export] Instance Scalar_R : Scalar R := {|
  of_Z := IZR;
  sadd := Rplus; ssub := Rminus; smul := Rmult; sdiv := Rdiv;
  sneg := Ropp; sabs := Rabs;
  ssin := sin; scos := cos; ssqrt := sqrt;
  satan2 := Ratan2; spow := Rpower; spi := PI;
  sltb := Rltb; sleb := Rleb; seqb := Reqb;
  isfinite := fun _ => true
|}.

(** *** Reals with a not-a-number value

    [NaN] is absorbing for the arithmetic and makes every comparison
    false, as in IEEE 754; a division by zero and the square root of a
    negative number give [NaN]. *)

Inductive fp : Type :=
| Fin (r : R)
| NaN.

Definition fp1 (f : R -> R) (a : fp) : fp :=
  match a with Fin x => Fin (f x) | NaN => NaN end.

Definition fp2 (f : R -> R -> R) (a b : fp) : fp :=
  match a, b with Fin x, Fin y => Fin (f x y) | _, _ => NaN end.

Definition fpb (f : R -> R -> bool) (a b : fp) : bool :=
  match a, b with Fin x, Fin y => f x y | _, _ => false end.

Definition fp_div (a b : fp) : fp :=
  match a, b with
  | Fin x, Fin y => if Req_dec_T y 0 then NaN else Fin (x / y)
  | _, _ => NaN
  end.

Definition fp_sqrt (a : fp) : fp :=
  match a with
  | Fin x => if Rlt_dec x 0 then NaN else Fin (sqrt x)
  | NaN => NaN
  end.

Definition fp_pow (a b : fp) : fp :=
  match a, b with
  | Fin x, Fin y => if Rlt_dec 0 x then Fin (Rpower x y) else NaN
  | _, _ => NaN
  end.

#[export] Instance Scalar_fp : Scalar fp := {|
  of_Z := fun z => Fin (IZR z);
  sadd := fp2 Rplus; ssub := fp2 Rminus; smul := fp2 Rmult; sdiv := fp_div;
  sneg := fp1 Ropp; sabs := fp1 Rabs;
  ssin := fp1 sin; scos := fp1 cos; ssqrt := fp_sqrt;
  satan2 := fp2 Ratan2; spow := fp_pow; spi := Fin PI;
  sltb := fpb Rltb; sleb := fpb Rleb; seqb := fpb Reqb;
  isfinite := fun a => match a with Fin _ => true | NaN => false end
|}.

(* ================================================================= *)
(** ** Small dense tensors *)

Section Tensors.
Context {F : Type} `{Scalar F}.
Local Open Scope scalar_scope.

Definition vec3 : Type := F * F * F.
Definition vec4 : Type := F * F * F * F.
Definition mat3 : Type := vec3 * vec3 * vec3.
Definition mat4 : Type := vec4 * vec4 * vec4 * vec4.

Definition tab3 {A} (f : nat -> A) : A * A * A := (f 0, f 1, f 2)%nat.
Definition tab4 {A} (f : nat -> A) : A * A * A * A := (f 0, f 1, f 2, f 3)%nat.

Definition get3 {A} (v : A * A * A) (i : nat) : A :=
  let '(a, b, c) := v in
  match i with O => a | S O => b | _ => c end.

Definition get4 {A} (v : A * A * A * A) (i : nat) : A :=
  let '(a, b, c, d) := v in
  match i with O => a | S O => b | S (S O) => c | _ => d end.

Definition at3 (m : mat3) (i j : nat) : F := get3 (get3 m i) j.
Definition at4 (m : mat4) (i j : nat) : F := get4 (get4 m i) j.

(** [torch.zeros((3,3))], [torch.zeros((4,4))], [torch.eye(3)] *)
Definition zeros33 : mat3 := tab3 (fun _ => tab3 (fun _ => #0)).
Definition zeros44 : mat4 := tab4 (fun _ => tab4 (fun _ => #0)).
Definition eye3 : mat3 :=
  tab3 (fun i => tab3 (fun j => if Nat.eqb i j then #1 else #0)).
Definition eye4 : mat4 :=
  tab4 (fun i => tab4 (fun j => if Nat.eqb i j then #1 else #0)).

(** [m[i, j] = x] *)
Definition set33 (m : mat3) (i j : nat) (x : F) : mat3 :=
  tab3 (fun a => tab3 (fun b =>
    if Nat.eqb a i && Nat.eqb b j then x else at3 m a b)).
Definition set44 (m : mat4) (i j : nat) (x : F) : mat4 :=
  tab4 (fun a => tab4 (fun b =>
    if Nat.eqb a i && Nat.eqb b j then x else at4 m a b)).

(** [m[:3, :3] = b] and [m[:3, 3] = t] *)
Definition set_block33 (m : mat4) (b : mat3) : mat4 :=
  tab4 (fun i => tab4 (fun j =>
    if Nat.ltb i 3 && Nat.ltb j 3 then at3 b i j else at4 m i j)).
Definition set_col3 (m : mat4) (t : vec3) : mat4 :=
  tab4 (fun i => tab4 (fun j =>
    if Nat.ltb i 3 && Nat.eqb j 3 then get3 t i else at4 m i j)).

(** scalar times tensor, sum of tensors, [torch.matmul] *)
Definition scal33 (c : F) (m : mat3) : mat3 :=
  tab3 (fun i => tab3 (fun j => c * at3 m i j)).
Definition add33 (a b : mat3) : mat3 :=
  tab3 (fun i => tab3 (fun j => at3 a i j + at3 b i j)).
Definition matmul33 (a b : mat3) : mat3 :=
  tab3 (fun i => tab3 (fun j =>
    at3 a i 0 * at3 b 0 j + at3 a i 1 * at3 b 1 j + at3 a i 2 * at3 b 2 j)).
Definition matvec3 (a : mat3) (v : vec3) : vec3 :=
  tab3 (fun i =>
    at3 a i 0 * get3 v 0 + at3 a i 1 * get3 v 1 + at3 a i 2 * get3 v 2).
Definition matmul44 (a b : mat4) : mat4 :=
  tab4 (fun i => tab4 (fun j =>
    at4 a i 0 * at4 b 0 j + at4 a i 1 * at4 b 1 j
    + at4 a i 2 * at4 b 2 j + at4 a i 3 * at4 b 3 j)).

(* =============================================================== *)
(** ** Pose parameterization *)

(** [vec2ss_matrix]: six entries of a zero matrix are assigned. *)
Definition vec2ss_matrix (vector : vec3) : mat3 :=
  let ss_matrix := zeros33 in
  let ss_matrix := set33 ss_matrix 0 1 (- get3 vector 2) in
  let ss_matrix := set33 ss_matrix 0 2 (get3 vector 1) in
  let ss_matrix := set33 ss_matrix 1 0 (get3 vector 2) in
  let ss_matrix := set33 ss_matrix 1 2 (- get3 vector 0) in
  let ss_matrix := set33 ss_matrix 2 0 (- get3 vector 1) in
  let ss_matrix := set33 ss_matrix 2 1 (get3 vector 0) in
  ss_matrix.

(** The parameters of [camera_transf]. *)
Record camera_transf : Type := {
  w : vec3;
  v : vec3;
  theta : F
}.

(** The matrix [exp_i] that [camera_transf.forward] builds. *)
Definition exp_i (self : camera_transf) : mat4 :=
  let exp_i := zeros44 in
  let w_skewsym := vec2ss_matrix (w self) in
  let exp_i := set_block33 exp_i
    (add33 (add33 eye3 (scal33 (ssin (theta self)) w_skewsym))
           (scal33 (#1 - scos (theta self)) (matmul33 w_skewsym w_skewsym))) in
  let exp_i := set_col3 exp_i
    (matvec3
       (add33 (add33 (scal33 (theta self) eye3)
                     (scal33 (#1 - scos (theta self)) w_skewsym))
              (scal33 (theta self - ssin (theta self))
                      (matmul33 w_skewsym w_skewsym)))
       (v self)) in
  let exp_i := set44 exp_i 3 3 #1 in
  exp_i.

(** [camera_transf.forward] *)
Definition forward (self : camera_transf) (x : mat4) : mat4 :=
  let T_i := matmul44 (exp_i self) x in
  T_i.

(** *** The forward mapping as the specification words it *)

Definition skew (a : vec3) : mat3 :=
  let '(a0, a1, a2) := a in
  ((#0, - a2, a1), (a2, #0, - a0), (- a1, a0, #0)).

Definition rotation_block (tw : camera_transf) : mat3 :=
  add33 (add33 eye3 (scal33 (ssin (theta tw)) (skew (w tw))))
        (scal33 (#1 - scos (theta tw))
                (matmul33 (skew (w tw)) (skew (w tw)))).

Definition translation_block (tw : camera_transf) : vec3 :=
  matvec3
    (add33 (add33 (scal33 (theta tw) eye3)
                  (scal33 (#1 - scos (theta tw)) (skew (w tw))))
           (scal33 (theta tw - ssin (theta tw))
                   (matmul33 (skew (w tw)) (skew (w tw)))))
    (v tw).

Definition homogeneous (r : mat3) (t : vec3) : mat4 :=
  let '(r0, r1, r2) := r in
  let '(t0, t1, t2) := t in
  let row (ri : vec3) (ti : F) : vec4 :=
    let '(a, b, c) := ri in (a, b, c, ti) in
  (row r0 t0, row r1 t1, row r2 t2, (#0, #0, #0, #1)).

Definition zero_twist : camera_transf :=
  {| w := (#0, #0, #0); v := (#0, #0, #0); theta := #0 |}.

End Tensors.

Arguments vec3 F : clear implicits.
Arguments vec4 F : clear implicits.
Arguments mat3 F : clear implicits.
Arguments mat4 F : clear implicits.
Arguments camera_transf F : clear implicits.


(* ================================================================= *)
(** ** Arrays, images and the grid *)

(** A pixel coordinate [(x, y)]. *)
Definition pixel : Type := nat * nat.

Definition pixel_eqb (p q : pixel) : bool :=
  Nat.eqb (fst p) (fst q) && Nat.eqb (snd p) (snd q).

Definition mem_pixel (p : pixel) (l : list pixel) : bool :=
  existsb (pixel_eqb p) l.

(** An integer array of pixel rows.  [np.array] of an empty list has the
    shape (0,) and not (0, 2); every other array here has two columns. *)
Inductive coord_array : Type :=
| Empty1D
| Rows (rows : list pixel).

Definition np_array (l : list pixel) : coord_array :=
  match l with [] => Empty1D | _ => Rows l end.

(** [a.shape[0]] and [for point in a] *)
Definition shape0 (a : coord_array) : nat :=
  match a with Empty1D => 0 | Rows l => length l end.

Definition points (a : coord_array) : list pixel :=
  match a with Empty1D => [] | Rows l => l end.

(** An image is a list of rows. *)
Definition image (A : Type) : Type := list (list A).

Definition map_img {A B} (f : A -> B) (img : image A) : image B :=
  map (map f) img.

(** [np.meshgrid(np.linspace(0, W-1, W), np.linspace(0, H-1, H))] stacked
    on the last axis: row [i], column [j] holds [(j, i)]. *)
Definition meshgrid (W H : nat) : image pixel :=
  map (fun i => map (fun j => (j, i)) (seq 0 W)) (seq 0 H).

(** [coords.reshape(H * W, 2)] *)
Definition reshape_rows (c : image pixel) : coord_array := Rows (concat c).

Definition in_grid (W H : nat) (p : pixel) : Prop := fst p < W /\ snd p < H.

(** The exceptions of the Python runtime that the calls can raise. *)
Inductive exn : Type :=
| IndexError
| ValueError
| TypeError
| UnboundLocalError
| RuntimeError.

(** The module globals [TEST], [l] and [N]. *)
Module Globals.
Definition TEST : bool := false.
Definition l {F} `{Scalar F} : F := of_Z 1.
Definition N : nat := 1.
End Globals.

(* ================================================================= *)
(** ** Collaborators

    The libraries and the renderer that [estimate_pose] calls.  The
    global generators of numpy and torch, which a seed of the caller
    fixes, are one state [RNG].  [Entropy] is the state of the randomness
    that no seed of the caller fixes. *)

Class Externals (F : Type) : Type := {
  RNG : Type;
  Entropy : Type;
  (** [np.random.choice(n, size, replace=False)] is
      [permutation(n)[:size]] *)
  np_random_permutation : nat -> RNG -> list nat * RNG;
  (** [skimage.util.random_noise(img, mode, var | amount)], which the
      source calls without a seed: older releases of scikit-image draw
      from the global generator of numpy, the releases since 0.19 from a
      generator of their own that the operating system seeds *)
  random_noise : string -> option F -> image (F * F * F) -> RNG ->
                 Entropy -> image (F * F * F) * RNG * Entropy;
  (** [torch.normal(mean, std, size=())] *)
  torch_normal : F -> F -> RNG -> F * RNG;
  (** [cv2.cvtColor] with [COLOR_RGB2HSV] and [COLOR_HSV2RGB], on a pixel *)
  cvt_RGB2HSV : F * F * F -> F * F * F;
  cvt_HSV2RGB : F * F * F -> F * F * F;
  (** [.astype(np.uint8)] *)
  astype_uint8 : F -> Byte.byte;
  (** grey conversion, [sift.detect], [keypoint.pt] and [.astype(int)] *)
  sift_keypoints : image (Byte.byte * Byte.byte * Byte.byte) -> list pixel;
  (** the order in which a Python [set] filled from a list is iterated *)
  set_iter : list pixel -> list pixel;
  (** [cv2.dilate(mask, np.ones((ks, ks)), iterations)] *)
  cv2_dilate : image bool -> nat -> nat -> image bool;
  (** [loss.backward()]: the gradient of the loss as a function of the
      parameters, at the current parameters; there is none, and torch
      raises a RuntimeError, when the loss is not linked to the
      parameters (a renderer that detaches its answer from the pose) *)
  autograd : (camera_transf F -> option F) -> camera_transf F ->
             option (camera_transf F);
  (** [torch.optim.Adam]: its moments, and one [step] at a learning rate *)
  adam_state : Type;
  adam_init : adam_state;
  adam_step : adam_state -> F -> camera_transf F -> camera_transf F ->
              adam_state * camera_transf F
}.

(** The renderer: [hwf] and [get_img_from_pix(batch, pose, HW=False,
    NeedDepth=True)], which gives a colour per batch row and the depth
    mean and variance per batch row. *)
Record Renderer (F : Type) : Type := {
  hwf : nat * nat * F;
  get_img_from_pix : coord_array -> mat4 F ->
                     list (F * F * F) * (list F * list F)
}.

(** The attributes that [Estimator.__init__] stores from its arguments. *)
Record Estimator (F : Type) : Type := {
  iter : nat;
  batch_size : nat;
  sampling_strategy : string;
  renderer : Renderer F;
  dil_iter : nat;
  kernel_size : nat;
  lrate : F;
  noise : option string;
  sigma : F;
  amount : F;
  delta_brightness : F
}.

(** [self.W, self.H, self.focal = self.renderer.hwf] and [self.coords] *)
Definition W {F} (self : Estimator F) : nat := fst (fst (hwf (renderer self))).
Definition H {F} (self : Estimator F) : nat := snd (fst (hwf (renderer self))).
Definition focal {F} (self : Estimator F) : F := snd (hwf (renderer self)).
Definition coords {F} (self : Estimator F) : image pixel :=
  meshgrid (W self) (H self).

(** What the calls report: the draws from the generators, the batches,
    the targets taken from the observed image, the renderer queries, the
    optimizer steps and the printed lines. *)
Inductive event (F : Type) : Type :=
| Noised (mode : string)
| Initialised (cam : camera_transf F)
| Sampled (k : nat) (batch : coord_array)
| Targets (k : nat) (target_s : list (F * F * F))
| Rendered (k : nat) (pose : mat4 F)
| Stepped (k : nat) (loss : F)
| Printed (text : string) (values : list F).

Arguments Noised {F}.
Arguments Initialised {F}.
Arguments Sampled {F}.
Arguments Targets {F}.
Arguments Rendered {F}.
Arguments Stepped {F}.
Arguments Printed {F}.

(* ================================================================= *)
(** ** Indexing *)

Fixpoint all_some {A} (l : list (option A)) : option (list A) :=
  match l with
  | [] => Some []
  | o :: l' =>
      match o, all_some l' with
      | Some a, Some r => Some (a :: r)
      | _, _ => None
      end
  end.

(** [l[inds]] for an index array *)
Definition pick {A} (l : list A) (inds : list nat) : option (list A) :=
  all_some (map (nth_error l) inds).

(** [img[y, x]] *)
Definition pixel_at {A} (img : image A) (p : pixel) : option A :=
  match nth_error img (snd p) with
  | Some row => nth_error row (fst p)
  | None => None
  end.

(** [l[i] = x] *)
Fixpoint upd {A} (l : list A) (i : nat) (x : A) : option (list A) :=
  match l, i with
  | [], _ => None
  | _ :: t, O => Some (x :: t)
  | a :: t, S i' =>
      match upd t i' x with Some t' => Some (a :: t') | None => None end
  end.

(** [mask[y, x] = 1] *)
Definition set_mask (mask : image bool) (p : pixel) : option (image bool) :=
  match nth_error mask (snd p) with
  | Some row =>
      match upd row (fst p) true with
      | Some row' => upd mask (snd p) row'
      | None => None
      end
  | None => None
  end.

(** [mask[ys, xs] = 1], one coordinate after the other *)
Fixpoint set_mask_all (mask : image bool) (ps : list pixel)
  : option (image bool) :=
  match ps with
  | [] => Some mask
  | p :: ps' =>
      match set_mask mask p with
      | Some mask' => set_mask_all mask' ps'
      | None => None
      end
  end.

Definition same_shape {A B} (a : image A) (b : image B) : bool :=
  if list_eq_dec Nat.eq_dec (map (@length A) a) (map (@length B) b)
  then true else false.

(** [c[mask]] for a boolean mask of the shape of [c] *)
Definition mask_select (c : image pixel) (mask : image bool)
  : option (list pixel) :=
  if same_shape c mask
  then Some (map fst (filter snd (combine (concat c) (concat mask))))
  else None.

(* ================================================================= *)
(** ** The calls as state and exception passing *)

Section Estimation.
Context {F : Type} {SF : Scalar F} {E : Externals F}.
Local Open Scope scalar_scope.

(** What a call can read and change: the seeded generators, the
    randomness that no seed fixes, and the attribute [pose_prior] of the
    estimator, which [__init__] does not set. *)
Record world : Type := {
  rng : RNG;
  entropy : Entropy;
  pose_prior : option (mat4 F)
}.

(** A statement completes, or the function returns ([None] or an
    array), or an exception is raised. *)
Inductive res (A : Type) : Type :=
| Val (a : A)
| Returned (value : option (mat4 F))
| Raised (e : exn).
Arguments Val {A}.
Arguments Returned {A}.
Arguments Raised {A}.

Definition M (A : Type) : Type := world -> res A * world * list (event F).

Definition ret {A} (a : A) : M A := fun s => (Val a, s, []).

Definition bind {A B} (m : M A) (f : A -> M B) : M B :=
  fun s =>
    match m s with
    | (Val a, s', ev) =>
        let '(r, s'', ev') := f a s' in (r, s'', ev ++ ev')
    | (Returned value, s', ev) => (Returned value, s', ev)
    | (Raised e, s', ev) => (Raised e, s', ev)
    end.

Definition raise {A} (e : exn) : M A := fun s => (Raised e, s, []).
Definition py_return {A} (value : option (mat4 F)) : M A :=
  fun s => (Returned value, s, []).
Definition emit (e : event F) : M unit := fun s => (Val tt, s, [e]).
Definition print (text : string) (values : list F) : M unit :=
  emit (Printed text values).

(** a draw from the seeded generators *)
Definition draw {A} (f : RNG -> A * RNG) : M A :=
  fun s =>
    let '(a, g) := f (rng s) in
    (Val a, {| rng := g; entropy := entropy s;
               pose_prior := pose_prior s |}, []).

(** a draw that no seed of the caller fixes *)
Definition draw_unseeded {A} (f : RNG -> Entropy -> A * RNG * Entropy)
  : M A :=
  fun s =>
    let '(a, g, e) := f (rng s) (entropy s) in
    (Val a, {| rng := g; entropy := e; pose_prior := pose_prior s |}, []).

(** [self.pose_prior = p] *)
Definition set_pose_prior (p : mat4 F) : M unit :=
  fun s => (Val tt, {| rng := rng s; entropy := entropy s;
                       pose_prior := Some p |}, []).

(** reading a local variable that may not be bound *)
Definition need {A} (o : option A) : M A :=
  match o with Some a => ret a | None => raise UnboundLocalError end.

(** an indexing that may be out of range *)
Definition index {A} (o : option A) : M A :=
  match o with Some a => ret a | None => raise IndexError end.

(** an operation of torch that may fail *)
Definition torch_try {A} (o : option A) : M A :=
  match o with Some a => ret a | None => raise RuntimeError end.

End Estimation.

Arguments Val {F A}.
Arguments Returned {F A}.
Arguments Raised {F A}.

Notation "x <- m ;; k" := (bind m (fun x => k))
  (at level 61, m at next level, right associativity).
Notation "m ;;; k" := (bind m (fun _ => k))
  (at level 61, right associativity).

Section Estimator.
Context {F : Type} {SF : Scalar F} {E : Externals F}.
Local Open Scope scalar_scope.

(** [np.random.choice(n, size=size, replace=False)] *)
Definition np_random_choice (n size : nat) : M (list nat) :=
  if Nat.leb size n
  then perm <- draw (np_random_permutation n) ;; ret (firstn size perm)
  else raise ValueError.

(** [a[inds]] *)
Definition take (a : coord_array) (inds : list nat) : M coord_array :=
  match a with
  | Empty1D =>
      match inds with [] => ret Empty1D | _ :: _ => raise IndexError end
  | Rows l => rows <- index (pick l inds) ;; ret (Rows rows)
  end.

(** [a[:, 0]] paired with [a[:, 1]]: a one-dimensional array has no
    second axis *)
Definition columns (a : coord_array) : M (list pixel) :=
  match a with
  | Empty1D => raise IndexError
  | Rows l => ret l
  end.

(** [batch[start:start+n] = src] for a slice of [n] rows *)
Definition assign_rows (batch : list pixel) (start n : nat)
           (src : coord_array) : M (list pixel) :=
  match src with
  | Empty1D => raise ValueError
  | Rows l =>
      if Nat.eqb (length l) n
      then ret (firstn start batch ++ l ++ skipn (start + n) batch)
      else raise ValueError
  end.

(** [img[batch[:, 1], batch[:, 0]]] *)
Definition gather {A} (img : image A) (batch : coord_array) : M (list A) :=
  ps <- columns batch ;;
  index (all_some (map (pixel_at img) ps)).

(* --------------------------------------------------------------- *)
(** *** Interest points *)

Definition find_POI (img_rgb : image (Byte.byte * Byte.byte * Byte.byte))
  : coord_array :=
  let xy := sift_keypoints img_rgb in
  let xy_set := set_iter xy in
  np_array xy_set.

(** The mask of the interest regions and the coordinates it selects. *)
Definition interest_region_coords (self : Estimator F) (POI : coord_array)
  : M coord_array :=
  let interest_regions := repeat (repeat false (W self)) (H self) in
  ps <- columns POI ;;
  interest_regions <- index (set_mask_all interest_regions ps) ;;
  let I := dil_iter self in
  let interest_regions :=
    cv2_dilate interest_regions (kernel_size self) I in
  rows <- index (mask_select (coords self) interest_regions) ;;
  ret (Rows rows).

(** [set(coords) - set(POI)] as an array *)
Definition complement_of (coords POI : coord_array) : coord_array :=
  let not_POI :=
    set_iter (filter (fun p => negb (mem_pixel p (points POI)))
                     (set_iter (points coords))) in
  np_array not_POI.

(* --------------------------------------------------------------- *)
(** *** Observed image *)

Definition of_byte (b : Byte.byte) : F := of_Z (Z.of_N (Byte.to_N b)).

Definition normalize (img : image (Byte.byte * Byte.byte * Byte.byte))
  : image (F * F * F) :=
  map_img (fun '(r, g, b) =>
             (of_byte r / #255, of_byte g / #255, of_byte b / #255)) img.

(** The two masked assignments on one entry of the value channel. *)
Definition shift_value (delta value : F) : F :=
  if delta <? #0 then
    let value := if value <? sabs delta then #0 else value in
    if sabs delta <=? value then value + delta else value
  else
    let lim := #1 - delta in
    let value := if lim <? value then #1 else value in
    if value <=? lim then value + delta else value.

(** The image that enters the conversion to HSV. *)
Definition renormalize (img : image (F * F * F)) : image (F * F * F) :=
  map_img (fun '(r, g, b) => (r / #255, g / #255, b / #255)) img.

Definition value_channel (img : image (F * F * F)) : image F :=
  map_img snd img.

Definition shift_brightness (delta : F) (img : image (F * F * F))
  : image (F * F * F) :=
  map_img (fun '(h, s, value) => (h, s, shift_value delta value)) img.

Definition change_brightness (self : Estimator F)
           (obs_img : image (F * F * F)) : image (F * F * F) :=
  if negb (delta_brightness self =? #0) then
    let obs_img := renormalize obs_img in
    let obs_img := map_img cvt_RGB2HSV obs_img in
    let obs_img := shift_brightness (delta_brightness self) obs_img in
    map_img cvt_HSV2RGB obs_img
  else obs_img.

Definition noise_is (self : Estimator F) (name : string) : bool :=
  match noise self with
  | Some n => String.eqb n name
  | None => false
  end.

Definition noised (mode : string) (param : option F)
           (obs_img : image (F * F * F)) : M (image (F * F * F)) :=
  img <- draw_unseeded (random_noise mode param obs_img) ;;
  emit (Noised mode) ;;;
  ret img.

Definition apply_noise (self : Estimator F) (obs_img : image (F * F * F))
  : M (image (F * F * F)) :=
  if noise_is self "gaussian" then
    noised "gaussian" (Some (sigma self * sigma self)) obs_img
  else if noise_is self "s_and_p" then
    noised "s&p" (Some (amount self)) obs_img
  else if noise_is self "pepper" then
    noised "pepper" (Some (amount self)) obs_img
  else if noise_is self "salt" then
    noised "salt" (Some (amount self)) obs_img
  else if noise_is self "poisson" then
    noised "poisson" None obs_img
  else ret obs_img.

(** [(np.array(img) * 255).astype(np.uint8)] *)
Definition to_uint8 (img : image (F * F * F))
  : image (Byte.byte * Byte.byte * Byte.byte) :=
  map_img (fun '(r, g, b) =>
             (astype_uint8 (r * #255), astype_uint8 (g * #255),
              astype_uint8 (b * #255))) img.

(* --------------------------------------------------------------- *)
(** *** Sampling *)

Definition strategy_is (self : Estimator F) (name : string) : bool :=
  String.eqb (sampling_strategy self) name.

(** The batch of one resample event.  [POI], [not_POI] and
    [interest_regions] are bound only under the strategies that use
    them. *)
Definition resample (self : Estimator F) (coords : coord_array)
           (POI not_POI interest_regions : option coord_array)
  : M coord_array :=
  if strategy_is self "random" then
    rand_inds <- np_random_choice (shape0 coords) (batch_size self) ;;
    take coords rand_inds
  else if strategy_is self "interest_points" then
    POI <- need POI ;;
    if Nat.leb (batch_size self) (shape0 POI) then
      rand_inds <- np_random_choice (shape0 POI) (batch_size self) ;;
      take POI rand_inds
    else
      let batch := repeat (0, 0)%nat (batch_size self) in
      batch <- assign_rows batch 0 (shape0 POI) POI ;;
      not_POI <- need not_POI ;;
      rand_inds <- np_random_choice (shape0 not_POI)
                                    (batch_size self - shape0 POI) ;;
      fill <- take not_POI rand_inds ;;
      batch <- assign_rows batch (shape0 POI)
                           (batch_size self - shape0 POI) fill ;;
      ret (Rows batch)
  else if strategy_is self "interest_regions" then
    interest_regions <- need interest_regions ;;
    rand_inds <- np_random_choice (shape0 interest_regions)
                                  (batch_size self) ;;
    take interest_regions rand_inds
  else
    print "Unknown sampling strategy" [] ;;;
    py_return None.

(* --------------------------------------------------------------- *)
(** *** Loss *)

(** [torch.mean] of the entries: the mean of no entry is 0/0, which is
    not-a-number in floating point (and in the instance [fp]); in the
    exact reals Rocq's division gives 0 there, so statements on the mean
    of no entry are made in [fp]. *)
Definition mean (xs : list F) : F :=
  fold_left sadd xs #0 / of_Z (Z.of_nat (length xs)).

Definition sq (d : F) : F := d * d.

(** The rows of [x - y]: two arrays of as many rows are paired row by
    row, an array of one row is paired with every row of the other one,
    and torch raises a RuntimeError otherwise. *)
Definition broadcast {A B} (x : list A) (y : list B)
  : option (list (A * B)) :=
  if Nat.eqb (length x) (length y) then Some (combine x y)
  else match x, y with
       | [a], _ => Some (map (fun b => (a, b)) y)
       | _, [b] => Some (map (fun a => (a, b)) x)
       | _, _ => None
       end.

(** [img2mse = lambda x, y : torch.mean((x - y) ** 2)] over rows of
    three colours *)
Definition img2mse (x y : list (F * F * F)) : option F :=
  option_map
    (fun rows =>
       mean (flat_map (fun '((r, g, b), (r', g', b')) =>
                         [sq (r - r'); sq (g - g'); sq (b - b')])
                      rows))
    (broadcast x y).

(** [depth2mse = lambda x, y, z : torch.mean(((x - y) ** 2))] *)
Definition depth2mse (x y z : list F) : option F :=
  option_map (fun rows => mean (map (fun '(a, b) => sq (a - b)) rows))
             (broadcast x y).

(* --------------------------------------------------------------- *)
(** *** Diagnostics *)

Definition degrees (a : F) : F := a * #180 / spi.

(** The three angles and the translation norm of a pose. *)
Definition pose_angles (p : mat4 F) : F * F * F * F :=
  let phi := degrees (satan2 (at4 p 1 0) (at4 p 0 0)) in
  let theta :=
    degrees (satan2 (- at4 p 2 0)
                    (ssqrt (sq (at4 p 2 1) + sq (at4 p 2 2)))) in
  let psi := degrees (satan2 (at4 p 2 1) (at4 p 2 2)) in
  let translation :=
    ssqrt (sq (at4 p 0 3) + sq (at4 p 1 3) + sq (at4 p 2 3)) in
  (phi, theta, psi, translation).

(** [abs(ref - cur) if abs(ref - cur) < 300 else abs(abs(ref - cur) - 360)] *)
Definition angle_error (ref cur : F) : F :=
  if sabs (ref - cur) <? #300
  then sabs (ref - cur)
  else sabs (sabs (ref - cur) - #360).

(** The iterations that print the diagnostics, and the lines they
    print. *)
Definition report_due (k : nat) : bool :=
  Nat.eqb ((k + 1) mod 20) 0 || Nat.eqb k 0.

Definition report_labels : list string :=
  ["Step: "%string; "Loss: "%string; "Rotation error: "%string;
   "Translation error: "%string;
   "-----------------------------------"%string].

Definition report (k : nat) (loss : F) (refs : F * F * F * F)
           (pose : mat4 F) : M unit :=
  print "Step: " [of_Z (Z.of_nat k)] ;;;
  print "Loss: " [loss] ;;;
  let '(phi_ref, theta_ref, psi_ref, translation_ref) := refs in
  let '(phi, theta, psi, translation) := pose_angles pose in
  let phi_error := angle_error phi_ref phi in
  let theta_error := angle_error theta_ref theta in
  let psi_error := angle_error psi_ref psi in
  let rot_error := phi_error + theta_error + psi_error in
  let translation_error := sabs (translation_ref - translation) in
  print "Rotation error: " [rot_error] ;;;
  print "Translation error: " [translation_error] ;;;
  print "-----------------------------------" [].

(* --------------------------------------------------------------- *)
(** *** The optimization loop *)

(** [camera_transf()]: seven draws of [torch.normal(0., 1e-6)]. *)
Definition new_camera_transf : M (camera_transf F) :=
  let normal := draw (torch_normal #0 (#1 / #1000000)) in
  w0 <- normal ;; w1 <- normal ;; w2 <- normal ;;
  v0 <- normal ;; v1 <- normal ;; v2 <- normal ;;
  th <- normal ;;
  let cam := {| w := (w0, w1, w2); v := (v0, v1, v2); theta := th |} in
  emit (Initialised cam) ;;;
  ret cam.

(** [torch.optim.Adam]: the moments and the learning rate of its one
    parameter group. *)
Record optimizer : Type := {
  moments : adam_state;
  lr : F
}.

(** The variables that live across the iterations; [batch] and [pose]
    are bound by the first iteration. *)
Record locals : Type := {
  cam_transf : camera_transf F;
  optim : optimizer;
  batch : option coord_array;
  pose : option (mat4 F)
}.

Fixpoint for_each {S} (ks : list nat) (body : nat -> S -> M S) (st : S)
  : M S :=
  match ks with
  | [] => ret st
  | k :: ks' => st' <- body k st ;; for_each ks' body st'
  end.

(** One iteration of [for k in range(self.iter)].  The branch under
    [TEST == True] is not taken: the module sets [TEST = False] and
    nothing changes it. *)
Definition iteration (self : Estimator F) (start_pose : mat4 F)
           (obs_img_noised : image (F * F * F))
           (obs_img_depth : option (image F))
           (coords : coord_array)
           (POI not_POI interest_regions : option coord_array)
           (refs : F * F * F * F)
           (k : nat) (st : locals) : M locals :=
  batch <- (if Nat.eqb (k mod Globals.N) 0
            then b <- resample self coords POI not_POI interest_regions ;;
                 emit (Sampled k b) ;;;
                 ret b
            else need (batch st)) ;;
  target_s <- gather obs_img_noised batch ;;
  emit (Targets k target_s) ;;;
  depth_img <- match obs_img_depth with
               | Some d => ret d
               | None => raise TypeError
               end ;;
  depth_s <- gather depth_img batch ;;
  let loss_at (cam : camera_transf F) : option F :=
    let pose := forward cam start_pose in
    let '(rgb, depth) := get_img_from_pix (renderer self) batch pose in
    let depth_val := fst depth in
    let depth_var := snd depth in
    match img2mse rgb target_s, depth2mse depth_val depth_s depth_var with
    | Some loss_rgb, Some loss_depth =>
        Some (Globals.l * loss_rgb + loss_depth)
    | _, _ => None
    end in
  let pose := forward (cam_transf st) start_pose in
  emit (Rendered k pose) ;;;
  loss <- torch_try (loss_at (cam_transf st)) ;;
  grad <- torch_try (autograd loss_at (cam_transf st)) ;;
  let '(moments', cam') :=
    adam_step (moments (optim st)) (lr (optim st)) grad (cam_transf st) in
  emit (Stepped k loss) ;;;
  let new_lrate :=
    lrate self * spow (#8 / #10) (of_Z (Z.of_nat (k + 1)) / #100) in
  let optim' := {| moments := moments'; lr := new_lrate |} in
  (if report_due k
   then report k loss refs pose
   else ret tt) ;;;
  ret {| cam_transf := cam'; optim := optim';
         batch := Some batch; pose := Some pose |}.

(** The body of [Estimator.estimate_pose]. *)
Definition estimate_pose_body (self : Estimator F) (start_pose : mat4 F)
           (obs_img : image (Byte.byte * Byte.byte * Byte.byte))
           (obs_img_pose : mat4 F) (obs_img_depth : option (image F))
  : M unit :=
  let obs_img := normalize obs_img in
  let obs_img := change_brightness self obs_img in
  obs_img_noised <- apply_noise self obs_img ;;
  let obs_img_noised_POI := to_uint8 obs_img_noised in
  let POI :=
    if strategy_is self "interest_regions"
       || strategy_is self "interest_points"
    then Some (find_POI obs_img_noised_POI) else None in
  interest_regions <-
    (if strategy_is self "interest_regions"
     then POI <- need POI ;;
          r <- interest_region_coords self POI ;; ret (Some r)
     else ret None) ;;
  let coords := reshape_rows (coords self) in
  not_POI <-
    (if strategy_is self "interest_points"
     then POI <- need POI ;; ret (Some (complement_of coords POI))
     else ret None) ;;
  cam_transf <- new_camera_transf ;;
  let optimizer := {| moments := adam_init; lr := lrate self |} in
  let refs := pose_angles obs_img_pose in
  st <- for_each (seq 0 (iter self))
                 (iteration self start_pose obs_img_noised obs_img_depth
                            coords POI not_POI interest_regions refs)
                 {| cam_transf := cam_transf; optim := optimizer;
                    batch := None; pose := None |} ;;
  pose <- need (pose st) ;;
  set_pose_prior pose ;;;
  py_return (Some pose).

(** A call of [estimate_pose]: what it returns or raises, the world
    after it and what it reported.  A body that ends without [return]
    returns [None]. *)
Definition estimate_pose (self : Estimator F) (start_pose : mat4 F)
           (obs_img : image (Byte.byte * Byte.byte * Byte.byte))
           (obs_img_pose : mat4 F) (obs_img_depth : option (image F))
  : world -> res Empty_set * world * list (event F) :=
  fun s =>
    match estimate_pose_body self start_pose obs_img obs_img_pose
                             obs_img_depth s with
    | (Val _, s', ev) => (Returned None, s', ev)
    | (Returned value, s', ev) => (Returned value, s', ev)
    | (Raised e, s', ev) => (Raised e, s', ev)
    end.

End Estimator.

(* ================================================================= *)
(** ** What the proofs assume of the collaborators *)

(** numpy draws a permutation of [0 .. n-1]. *)
Definition permutation_spec {F} (E : Externals F) : Prop :=
  forall n g, Permutation (fst (np_random_permutation n g)) (seq 0 n).

(** A set holds each element of the list once. *)
Definition set_iter_spec {F} (E : Externals F) : Prop :=
  forall l, NoDup (set_iter l) /\ (forall p, In p (set_iter l) <-> In p l).

(** OpenCV: the value channel of HSV is the largest of R, G and B. *)
Definition value_is_max (E : Externals R) : Prop :=
  forall r g b, snd (cvt_RGB2HSV (r, g, b)) = Rmax (Rmax r g) b.

(** The detector reports keypoints inside a [W] x [H] image. *)
Definition keypoints_in_grid {F} (E : Externals F) (W H : nat) : Prop :=
  forall img p, In p (sift_keypoints img) -> in_grid W H p.

(* ================================================================= *)
(** ** Stub collaborators

    A deterministic stand-in for the libraries, used to run the calls on
    concrete inputs: the state of the generators and the unseeded
    randomness are counters, a permutation is a rotation of [0 .. n-1],
    the normal draws add nothing, noise leaves the image as it is when
    the unseeded counter is 0 and whitens it otherwise, the colour
    conversion keeps the value channel only, the detector reports the
    keypoints [kps], dilation leaves the mask as it is, and the optimizer
    takes a plain gradient step along the gradient [grad loss]; for
    [stub] that is zero times the loss (the stub renderers below ignore
    the pose), for [steep_stub] it grows with the loss. *)

Definition rotate (n g : nat) : list nat :=
  skipn (g mod n) (seq 0 n) ++ firstn (g mod n) (seq 0 n).

Definition pixel_eq_dec (p q : pixel) : {p = q} + {p <> q}.
Proof. decide equality; apply Nat.eq_dec. Defined.

Section Stub.
Context {F : Type} {SF : Scalar F}.
Local Open Scope scalar_scope.

Definition smax (a b : F) : F := if a <? b then b else a.

Definition flat_grad (loss : F) : camera_transf F :=
  let z := loss * #0 in
  {| w := (z, z, z); v := (z, z, z); theta := z |}.

Definition gradient_step (rate : F) (g p : camera_transf F)
  : camera_transf F :=
  {| w := tab3 (fun i => get3 (w p) i - rate * get3 (w g) i);
     v := tab3 (fun i => get3 (v p) i - rate * get3 (v g) i);
     theta := theta p - rate * theta g |}.


Definition stub_with (grad : F -> camera_transf F) (kps : list pixel)
  : Externals F := {|
  RNG := nat;
  Entropy := nat;
  np_random_permutation := fun n g => (rotate n g, S g);
  random_noise := fun _ _ img g e =>
    (match e with
     | O => img
     | S _ => map_img (fun _ => (#1, #1, #1)) img
     end, S g, S e);
  torch_normal := fun mean _ g => (mean, S g);
  cvt_RGB2HSV := fun '(r, g, b) => (#0, #0, smax (smax r g) b);
  cvt_HSV2RGB := fun '(_, _, value) => (value, value, value);
  astype_uint8 := fun _ => Byte.x00;
  sift_keypoints := fun _ => kps;
  set_iter := nodup pixel_eq_dec;
  cv2_dilate := fun mask _ _ => mask;
  autograd := fun loss_at p => option_map grad (loss_at p);
  adam_state := unit;
  adam_init := tt;
  adam_step := fun st rate g p => (st, gradient_step rate g p)
|}.

Definition stub (kps : list pixel) : Externals F := stub_with flat_grad kps.


(** The world of a fresh estimator with the generators at [g] and the
    unseeded counter at 0. *)
Definition stub_world (kps : list pixel) (g : nat)
  : world (E := stub kps) :=
  @Build_world F (stub kps) g 0 None.


(** A renderer of a [width] x [height] image that answers every pixel
    with the colour [c] and the depth [d]. *)
Definition flat_renderer (width height : nat) (c d : F) : Renderer F := {|
  hwf := (width, height, #1);
  get_img_from_pix := fun batch _ =>
    (map (fun _ => (c, c, c)) (points batch),
     (map (fun _ => d) (points batch), map (fun _ => #0) (points batch)))
|}.

Definition flat_image {A} (width height : nat) (a : A) : image A :=
  repeat (repeat a width) height.

Definition stub_estimator (N_iter batch_size : nat) (strategy : string)
           (rend : Renderer F) (noise : option string) (delta : F)
  : Estimator F := {|
  iter := N_iter;
  batch_size := batch_size;
  sampling_strategy := strategy;
  renderer := rend;
  dil_iter := 3;
  kernel_size := 5;
  lrate := #1 / #100;
  noise := noise;
  sigma := #1 / #100;
  amount := #8 / #10;
  delta_brightness := delta
|}.

End Stub.

(* ================================================================= *)
(** ** Predicates of the statements *)

(** Every entry of an image satisfies [P]. *)
Definition all_pixels {A} (P : A -> Prop) (img : image A) : Prop :=
  Forall (Forall P) img.

(** A colour whose three channels lie in [0, 1/255]. *)
Definition dim_colour (c : R * R * R) : Prop :=
  let '(r, g, b) := c in
  (0 <= r <= 1 / 255 /\ 0 <= g <= 1 / 255 /\ 0 <= b <= 1 / 255)%R.

(** The colour of a byte pixel divided by 255 twice. *)
Definition twice_divided (p : Byte.byte * Byte.byte * Byte.byte)
  : R * R * R :=
  let '(r, g, b) := p in
  let f (c : Byte.byte) : R := (IZR (Z.of_N (Byte.to_N c)) / 255 / 255)%R in
  (f r, f g, f b).

(** [hoare m Q P]: whatever the world, a value that [m] completes with
    satisfies [Q], and every event that [m] reports satisfies [P]. *)
Definition hoare {F} {E : Externals F} {A} (m : M A)
           (Q : A -> Prop) (P : event F -> Prop) : Prop :=
  forall s,
    Forall P (snd (m s)) /\
    (forall a, fst (fst (m s)) = Val a -> Q a).

(** The rows are drawn without replacement from [pool]. *)
Definition drawn_from (pool rows : list pixel) : Prop :=
  NoDup rows /\ incl rows pool.

(** The batch of the strategy [interest_points], as section 4.2 of the
    specification words it. *)
Definition interest_points_batch (n : nat) (grid POI : list pixel)
           (batch : coord_array) : Prop :=
  shape0 batch = n /\
  (n <= length POI -> drawn_from POI (points batch)) /\
  (length POI < n ->
   firstn (length POI) (points batch) = POI /\
   drawn_from (filter (fun p => negb (mem_pixel p POI)) grid)
              (skipn (length POI) (points batch)) /\
   (forall p, In p (skipn (length POI) (points batch)) -> ~ In p POI)).

(** A batch of [batch_size] coordinates of the grid, without duplicates
    under the strategy [random]. *)
Definition batch_ok {F} (self : Estimator F) (b : coord_array) : Prop :=
  shape0 b = batch_size self /\
  Forall (in_grid (W self) (H self)) (points b) /\
  (strategy_is self "random" = true -> NoDup (points b)).

Definition sampled_ok {F} (self : Estimator F) (e : event F) : Prop :=
  match e with
  | Sampled _ b => batch_ok self b
  | _ => True
  end.

(** The image that a call from the world [s] hands to the detector. *)
Definition detector_input {F} {SF : Scalar F} {E : Externals F}
           (self : Estimator F)
           (obs_img : image (Byte.byte * Byte.byte * Byte.byte)) (s : world)
  : image (Byte.byte * Byte.byte * Byte.byte) :=
  match apply_noise self (change_brightness self (normalize obs_img)) s with
  | (Val noised, _, _) => to_uint8 noised
  | _ => []
  end.

(** The optimizer steps and the poses handed to the renderer, in the
    order of the events. *)
Fixpoint steps {F} (ev : list (event F)) : list (nat * F) :=
  match ev with
  | [] => []
  | Stepped k loss :: ev' => (k, loss) :: steps ev'
  | _ :: ev' => steps ev'
  end.

Fixpoint renders {F} (ev : list (event F)) : list (nat * mat4 F) :=
  match ev with
  | [] => []
  | Rendered k pose :: ev' => (k, pose) :: renders ev'
  | _ :: ev' => renders ev'
  end.

(** The texts of the printed lines and the targets of the iterations,
    in the order of the events. *)
Fixpoint texts {F} (ev : list (event F)) : list string :=
  match ev with
  | [] => []
  | Printed text _ :: ev' => text :: texts ev'
  | _ :: ev' => texts ev'
  end.

Fixpoint targets {F} (ev : list (event F)) : list (nat * list (F * F * F)) :=
  match ev with
  | [] => []
  | Targets k target_s :: ev' => (k, target_s) :: targets ev'
  | _ :: ev' => targets ev'
  end.

(** The image from which a call from the world [s] takes its targets. *)
Definition noised_input {F} {SF : Scalar F} {E : Externals F}
           (self : Estimator F)
           (obs_img : image (Byte.byte * Byte.byte * Byte.byte)) (s : world)
  : image (F * F * F) :=
  match apply_noise self (change_brightness self (normalize obs_img)) s with
  | (Val noised, _, _) => noised
  | _ => []
  end.

(** The targets of an iteration are pixels of the image [img]. *)
Definition targets_from {F} (img : image (F * F * F)) (e : event F) : Prop :=
  match e with
  | Targets _ target_s => Forall (fun c => In c (concat img)) target_s
  | _ => True
  end.

(** [self.noise] is none of the five modes: no noise is applied. *)
Definition noiseless {F} (self : Estimator F) : Prop :=
  noise_is self "gaussian" = false /\
  noise_is self "s_and_p" = false /\
  noise_is self "pepper" = false /\
  noise_is self "salt" = false /\
  noise_is self "poisson" = false.

(** No strategy of the three. *)
Definition unrecognized {F} (self : Estimator F) : Prop :=
  strategy_is self "random" = false /\
  strategy_is self "interest_points" = false /\
  strategy_is self "interest_regions" = false.


(** [quiet m]: [m] queries no renderer and steps no optimizer, and if it
    makes the function return, the function returns None. *)
Definition quiet {F} {E : Externals F} {A} (m : M A) : Prop :=
  forall s,
    steps (snd (m s)) = [] /\
    renders (snd (m s)) = [] /\
    (forall value, fst (fst (m s)) = Returned value -> value = None).

(** [outcome m Phi]: the result of [m], the world after it and the steps
    and renderer queries it reports are related by [Phi]. *)
Definition outcome {F} {E : Externals F} {A} (m : M A)
           (Phi : res A -> world -> list (nat * F) -> list (nat * mat4 F) ->
                  Prop) : Prop :=
  forall s,
    Phi (fst (fst (m s))) (snd (fst (m s)))
        (steps (snd (m s))) (renders (snd (m s))).

(** The lines that the iterations [ks] print when each of them
    completes. *)
Definition report_lines (ks : list nat) : list string :=
  flat_map (fun k => if report_due k then report_labels else []) ks.

(** [hushed m]: [m] prints nothing when it completes, and if it makes
    the function return, the function returns None. *)
Definition hushed {F} {E : Externals F} {A} (m : M A) : Prop :=
  forall s,
    (forall a, fst (fst (m s)) = Val a -> texts (snd (m s)) = []) /\
    (forall value, fst (fst (m s)) = Returned value -> value = None).

(** [printing m Phi]: the result of [m] and the lines it prints are
    related by [Phi]. *)
Definition printing {F} {E : Externals F} {A} (m : M A)
           (Phi : res A -> list string -> Prop) : Prop :=
  forall s, Phi (fst (fst (m s))) (texts (snd (m s))).

(** A statement that completes has printed the lines [lines]. *)
Definition prints_of {F A} (lines : list string) (r : @res F A)
           (printed : list string) : Prop :=
  match r with
  | Val _ => printed = lines
  | Returned value => value = None
  | Raised _ => True
  end.

(** What one iteration [k] leaves: one step and one query, and the pose
    of the query in the local variable. *)
Definition iteration_outcome {F} {E : Externals F} (k : nat)
           (r : @res F (@locals F E)) (s' : @world F E)
           (st : list (nat * F)) (rs : list (nat * mat4 F)) : Prop :=
  match r with
  | Val l' => map fst st = [k] /\
              exists p, pose l' = Some p /\ rs = [(k, p)]
  | Returned value => value = None
  | Raised _ => True
  end.

(** What the loop over [ks] leaves. *)
Definition loop_outcome {F} {E : Externals F} (ks : list nat)
           (before : option (mat4 F))
           (r : @res F (@locals F E)) (s' : @world F E)
           (st : list (nat * F)) (rs : list (nat * mat4 F)) : Prop :=
  match r with
  | Val l' => map fst st = ks /\ map fst rs = ks /\
              pose l' = last (map (fun x => Some (snd x)) rs) before
  | Returned value => value = None
  | Raised _ => True
  end.

(** What a call that returns a pose leaves. *)
Definition call_outcome {F} {E : Externals F} {A} (n : nat)
           (r : @res F A) (s' : @world F E)
           (st : list (nat * F)) (rs : list (nat * mat4 F)) : Prop :=
  forall p,
    r = Returned (Some p) ->
    map fst st = seq 0 n /\ map fst rs = seq 0 n /\
    last (map (fun x => Some (snd x)) rs) None = Some p /\
    pose_prior s' = Some p.


(* ================================================================= *)
(** ** Further operations on the tensors *)

Section MoreTensors.
Context {F : Type} `{Scalar F}.
Local Open Scope scalar_scope.

Definition transpose33 (m : mat3 F) : mat3 F :=
  tab3 (fun i => tab3 (fun j => at3 m j i)).

Definition cross3 (a b : vec3 F) : vec3 F :=
  let '(a0, a1, a2) := a in
  let '(b0, b1, b2) := b in
  (a1 * b2 - a2 * b1, a2 * b0 - a0 * b2, a0 * b1 - a1 * b0).

Definition norm2 (a : vec3 F) : F :=
  let '(a0, a1, a2) := a in a0 * a0 + a1 * a1 + a2 * a2.

(** Every entry of the vector is at most [bound] in absolute value. *)
Definition bounded3 (bound : R) (a : vec3 R) : Prop :=
  let '(a0, a1, a2) := a in
  (Rabs a0 <= bound /\ Rabs a1 <= bound /\ Rabs a2 <= bound)%R.

(** [m[:3, :3]] and [m[:3, 3]] *)
Definition upper_left (m : mat4 F) : mat3 F :=
  tab3 (fun i => tab3 (fun j => at4 m i j)).

Definition last_column (m : mat4 F) : vec3 F :=
  tab3 (fun i => at4 m i 3).

(** The lambdas [rot_psi], [rot_theta], [rot_phi] and [trans_t]. *)
Definition rot_psi (phi : F) : mat4 F :=
  ((#1, #0, #0, #0),
   (#0, scos phi, - ssin phi, #0),
   (#0, ssin phi, scos phi, #0),
   (#0, #0, #0, #1)).

Definition rot_theta (th : F) : mat4 F :=
  ((scos th, #0, - ssin th, #0),
   (#0, #1, #0, #0),
   (ssin th, #0, scos th, #0),
   (#0, #0, #0, #1)).

Definition rot_phi (psi : F) : mat4 F :=
  ((scos psi, - ssin psi, #0, #0),
   (ssin psi, scos psi, #0, #0),
   (#0, #0, #1, #0),
   (#0, #0, #0, #1)).

Definition trans_t (t : F) : mat4 F :=
  ((#1, #0, #0, #0),
   (#0, #1, #0, #0),
   (#0, #0, #1, t),
   (#0, #0, #0, #1)).

End MoreTensors.

(* ================================================================= *)
(** ** Further predicates on the calls *)

(** [silent m]: [m] queries no renderer and steps no optimizer. *)
Definition silent {F} {E : Externals F} {A} (m : M A) : Prop :=
  forall s, steps (snd (m s)) = [] /\ renders (snd (m s)) = [].

(** [inert m]: [m] leaves the cached pose prior as it is, and if it makes
    the function return, the function returns None. *)
Definition inert {F} {E : Externals F} {A} (m : M A) : Prop :=
  forall s,
    pose_prior (snd (fst (m s))) = pose_prior s /\
    (forall value, fst (fst (m s)) = Returned value -> value = None).

(** [prior_follows_result m]: after [m] the cached pose prior is the pose
    that [m] made the function return, and it is as before when [m]
    returned no pose. *)
Definition prior_follows_result {F} {E : Externals F} {A} (m : M A) : Prop :=
  forall s,
    match fst (fst (m s)) with
    | Returned (Some p) => pose_prior (snd (fst (m s))) = Some p
    | _ => pose_prior (snd (fst (m s))) = pose_prior s
    end.

(** The lengths of the rows of an image. *)
Definition shape {A} (img : image A) : list nat := map (@length A) img.

(** skimage: the noised image has the shape of the image. *)
Definition noise_keeps_shape {F} (E : Externals F) : Prop :=
  forall mode param img g e,
    shape (fst (fst (random_noise mode param img g e))) = shape img.

(** torch: a loss that has a value is linked to the parameters, so that
    [loss.backward()] gives a gradient. *)
Definition backward_succeeds {F} (E : Externals F) : Prop :=
  forall loss_at cam, loss_at cam <> None -> autograd loss_at cam <> None.

(** The renderer answers one colour and one depth for each row of the
    batch. *)
Definition answers_each_row {F} (rend : Renderer F) : Prop :=
  forall batch pose,
    length (fst (get_img_from_pix rend batch pose)) = shape0 batch /\
    length (fst (snd (get_img_from_pix rend batch pose))) = shape0 batch.

(** [post m Q]: a value that [m] completes with satisfies [Q]. *)
Definition post {F} {E : Externals F} {A} (m : M A) (Q : A -> Prop) : Prop :=
  forall s a s' ev, m s = (Val a, s', ev) -> Q a.

(** A value that is not a negative number: a real that is at least 0,
    or not-a-number. *)
Definition not_negative (x : fp) : Prop :=
  match x with Fin r => (0 <= r)%R | NaN => True end.

(** The rows of finite colours. *)
Definition finite_colours (c : list (R * R * R)) : list (fp * fp * fp) :=
  map (fun '(r, g, b) => (Fin r, Fin g, Fin b)) c.

(* ================================================================= *)
(** ** The coarse distributions *)

Section Coarse.
Context {F : Type} {SF : Scalar F}.
Local Open Scope scalar_scope.

(** [torch.sum] of a vector *)
Definition total (xs : list F) : F := fold_left sadd xs #0.

(** [torch.sum((x - y)**2, dim=1)]: the squared error of each row *)
Definition row_errors (x y : list (F * F * F)) : list F :=
  map (fun '((r, g, b), (r', g', b')) =>
         sq (r - r') + sq (g - g') + sq (b - b'))
      (combine x y).

(** [(x - y)**2] *)
Definition errors (x y : list F) : list F :=
  map (fun '(a, b) => sq (a - b)) (combine x y).

(** [coarse = lambda x, y: torch.sum((x - y)**2, dim=1)
                           / torch.sum(torch.sum((x - y)**2, dim=1))] *)
Definition coarse (x y : list (F * F * F)) : list F :=
  map (fun e => e / total (row_errors x y)) (row_errors x y).

(** [coarse_depth = lambda x, y: (x - y)**2 / torch.sum((x - y)**2)] *)
Definition coarse_depth (x y : list F) : list F :=
  map (fun e => e / total (errors x y)) (errors x y).

End Coarse.

(* ================================================================= *)
(** ** fig_generation/piano_plot.py

    The planar example, over the exact reals: a state is a position and
    an angle [(x, y, a)], a trajectory is a sequence of states. *)

Module Piano.
Local Open Scope R_scope.

Definition vec2 : Type := R * R.
Definition mat2 : Type := vec2 * vec2.
Definition state : Type := R * R * R.

(** [torch.sigmoid] *)
Definition sigmoid (x : R) : R := 1 / (1 + exp (- x)).

(** [nerf(points)], at one point *)
Definition nerf (p : vec2) : R :=
  let '(x, y) := p in
  let sharpness := 8 in
  sigmoid (sharpness * (y - 1)) * sigmoid (sharpness * (x - 1)).

(** [System.rot_matrix(angle)], at one angle *)
Definition rot_matrix (angle : R) : mat2 :=
  ((cos angle, - sin angle),
   (sin angle,   cos angle)).

Definition eye2 : mat2 := ((1, 0), (0, 1)).

Definition matvec2 (m : mat2) (p : vec2) : vec2 :=
  let '((a, b), (c, d)) := m in
  let '(x, y) := p in
  (a * x + b * y, c * x + d * y).

Definition matmul2 (m n : mat2) : mat2 :=
  let '((a, b), (c, d)) := m in
  let '((a', b'), (c', d')) := n in
  ((a * a' + b * c', a * b' + b * d'),
   (c * a' + d * c', c * b' + d * d')).

Definition transpose2 (m : mat2) : mat2 :=
  let '((a, b), (c, d)) := m in ((a, c), (b, d)).

Definition det2 (m : mat2) : R :=
  let '((a, b), (c, d)) := m in a * d - b * c.

Definition dist2 (p q : vec2) : R :=
  sqrt ((fst p - fst q) * (fst p - fst q) + (snd p - snd q) * (snd p - snd q)).

(** [torch.linspace(a, b, steps)]: [steps] points from [a] to [b], both
    included; the single point is [a] *)
Definition linspace (a b : R) (steps : nat) : list R :=
  map (fun i => a + INR i * ((b - a) / INR (steps - 1))) (seq 0 steps).

(** the Python slices [xs[1:-1]], [xs[:-1]] and [xs[1:]] *)
Definition inner {A} (xs : list A) : list A := tl (removelast xs).

Record System : Type := {
  dt : R;
  start_state : state;
  end_state : state;
  states : list state;
  robot_body : list vec2
}.

(** [(1-slider) * start_state + slider * end_state], one row *)
Definition blend (s : R) (a b : state) : state :=
  let '(ax, ay, aa) := a in
  let '(bx, b_y, ba) := b in
  ((1 - s) * ax + s * bx, (1 - s) * ay + s * b_y, (1 - s) * aa + s * ba).

(** [System.__init__] *)
Definition init (start_state end_state : state) (steps : nat) : System :=
  let slider := inner (linspace 0 1 steps) in
  {| dt := 1 / 10;
     start_state := start_state;
     end_state := end_state;
     states := map (fun s => blend s start_state end_state) slider;
     robot_body :=
       flat_map (fun u => map (fun v => (u, v)) (linspace (-1) 1 10))
                (linspace (- (1 / 2)) (1 / 2) 10) |}.

(** [System.get_states] *)
Definition get_states (self : System) : list state :=
  [start_state self] ++ states self ++ [end_state self].

(** one row of [System.get_actions] *)
Definition action (dt : R) (prev_state next_state : state) : state :=
  let '(px, py, pa) := prev_state in
  let '(nx, ny, na) := next_state in
  let middle_rot := (pa + na) / 2 in
  let '(vx, vy) := matvec2 (rot_matrix (- middle_rot)) (nx - px, ny - py) in
  (vx / dt, vy / dt, (na - pa) / dt).

(** [System.get_actions] *)
Definition get_actions (self : System) : list state :=
  let states := get_states self in
  let prev_state := removelast states in
  let next_state := tl states in
  map (fun '(p, n) => action (dt self) p n) (combine prev_state next_state).

(** one state's row of [System.body_to_world] *)
Definition place (s : state) (p : vec2) : vec2 :=
  let '(x, y, rot) := s in
  let '(u, v) := matvec2 (rot_matrix rot) p in
  (u + x, v + y).

(** [System.body_to_world] *)
Definition body_to_world (self : System) (points : list vec2)
  : list (list vec2) :=
  map (fun s => map (place s) points) (get_states self).

(** [torch.mean] of a vector *)
Definition mean (xs : list R) : R :=
  fold_right Rplus 0 xs / INR (length xs).

(** one row of [System.get_cost]; [z**0.5] is the square root *)
Definition cost (dt : R) (act : state) (body : list vec2) : R :=
  let '(a0, a1, a2) := act in
  let x := a0 ^ 4 in
  let y := a1 ^ 4 in
  let a := a2 ^ 4 in
  let distance := sqrt (x ^ 2 + y ^ 2) * dt in
  let density := map (fun p => nerf p ^ 2) body in
  let colision_prob := mean density * distance in
  y * 10 + a * (1 / 10) + (1 / 100) * x + colision_prob * 10.

(** [System.get_cost] *)
Definition get_cost (self : System) : list R :=
  let actions := get_actions self in
  map (fun '(act, body) => cost (dt self) act body)
      (combine actions (tl (body_to_world self (robot_body self)))).

(** [System.total_cost] *)
Definition total_cost (self : System) : R :=
  fold_right Rplus 0 (get_cost self).

End Piano.

(* ================================================================= *)
(** * Properties *)

Unset Implicit Arguments.

(** ** Pose parameterization *)

Lemma vec2ss_matrix_skew {F} `{Scalar F} (a : vec3 F) :
  vec2ss_matrix a = skew a.
Proof. destruct a as [[a0 a1] a2]. reflexivity. Qed.

Lemma exp_i_homogeneous {F} `{Scalar F} (tw : camera_transf F) :
  exp_i tw = homogeneous (rotation_block tw) (translation_block tw).
Proof.
  destruct tw as [[[w0 w1] w2] [[v0 v1] v2] th].
  reflexivity.
Qed.

Ltac tensor_compute :=
  cbv [forward exp_i zero_twist vec2ss_matrix matmul44 matmul33 matvec3
       add33 scal33 set44 set33 set_block33 set_col3 zeros33 zeros44
       eye3 eye4 tab3 tab4 get3 get4 at3 at4 w v theta
       Nat.eqb Nat.ltb Nat.leb andb
       Scalar_R of_Z sadd ssub smul sneg ssin scos].

Ltac tuple_eq :=
  repeat match goal with
         | |- (_, _) = (_, _) => apply f_equal2
         end.

Lemma exp_i_zero_twist : exp_i (F := R) zero_twist = eye4.
Proof.
  tensor_compute.
  rewrite sin_0, cos_0.
  tuple_eq; ring.
Qed.

Lemma matmul44_eye4_l (x : mat4 R) : matmul44 eye4 x = x.
Proof.
  destruct x as [[[[[[a0 a1] a2] a3] [[[b0 b1] b2] b3]]
                    [[[c0 c1] c2] c3]] [[[d0 d1] d2] d3]].
  tensor_compute.
  tuple_eq; ring.
Qed.

(** C5. For every twist the matrix built by [camera_transf.forward] has
    the rotation block I + sin(theta) [w]x + (1 - cos theta) [w]x^2, the
    translation block (I theta + (1 - cos theta) [w]x
    + (theta - sin theta) [w]x^2) v and the bottom row [0,0,0,1], where
    [w]x is the skew-symmetric matrix of w, and the result is this matrix
    times the start pose; in exact arithmetic the matrix of the zero
    twist is the identity and the zero twist maps every start pose to
    itself. *)
Theorem forward_exponential_map :
  (forall F (SF : Scalar F) (tw : camera_transf F) (start_pose : mat4 F),
      vec2ss_matrix (w tw) = skew (w tw) /\
      forward tw start_pose =
        matmul44 (homogeneous (rotation_block tw) (translation_block tw))
                 start_pose /\
      get4 (homogeneous (rotation_block tw) (translation_block tw)) 3 =
        (of_Z 0, of_Z 0, of_Z 0, of_Z 1)) /\
  exp_i (F := R) zero_twist = eye4 /\
  (forall start_pose : mat4 R, forward zero_twist start_pose = start_pose).
Proof.
  split; [| split].
  - intros F SF tw start_pose. split; [| split].
    + apply vec2ss_matrix_skew.
    + unfold forward. now rewrite exp_i_homogeneous.
    + destruct tw as [[[w0 w1] w2] [[v0 v1] v2] th]. reflexivity.
  - exact exp_i_zero_twist.
  - intros x. unfold forward. rewrite exp_i_zero_twist.
    apply matmul44_eye4_l.
Qed.

(* ----------------------------------------------------------------- *)
(** ** Diagnostics *)

Lemma Rltb_true (a b : R) : (a < b)%R -> Rltb a b = true.
Proof. intros Hab. unfold Rltb. now destruct (Rlt_dec a b). Qed.

Lemma Rltb_false (a b : R) : (b <= a)%R -> Rltb a b = false.
Proof. intros Hab. unfold Rltb. destruct (Rlt_dec a b); [lra | reflexivity]. Qed.

Lemma Rleb_true (a b : R) : (a <= b)%R -> Rleb a b = true.
Proof. intros Hab. unfold Rleb. now destruct (Rle_dec a b). Qed.

Lemma Rleb_false (a b : R) : (b < a)%R -> Rleb a b = false.
Proof. intros Hab. unfold Rleb. destruct (Rle_dec a b); [lra | reflexivity]. Qed.

Lemma Reqb_true (a : R) : Reqb a a = true.
Proof. unfold Reqb. now destruct (Req_dec_T a a). Qed.

Lemma Reqb_false (a b : R) : a <> b -> Reqb a b = false.
Proof. intros Hab. unfold Reqb. now destruct (Req_dec_T a b). Qed.

(** C8. The angular error of one axis is |ref - cur| when that is below
    300 degrees and ||ref - cur| - 360| when it is 300 degrees or more;
    a reference of 170 and a current angle of -170 give 20. *)
Theorem angle_error_wraparound :
  (forall ref cur : R,
      ((Rabs (ref - cur) < 300)%R ->
       angle_error ref cur = Rabs (ref - cur)) /\
      ((300 <= Rabs (ref - cur))%R ->
       angle_error ref cur = Rabs (Rabs (ref - cur) - 360))) /\
  angle_error 170%R (-170)%R = 20%R.
Proof.
  split.
  - intros ref cur. unfold angle_error; cbn. split; intros Hd.
    + now rewrite Rltb_true.
    + now rewrite Rltb_false.
  - unfold angle_error; cbn.
    replace (170 - -170)%R with 340%R by lra.
    rewrite (Rabs_pos_eq 340) by lra.
    rewrite Rltb_false by lra.
    rewrite Rabs_left; lra.
Qed.

(* ----------------------------------------------------------------- *)
(** ** Observed image *)

Lemma all_pixels_map {A B} (P : B -> Prop) (f : A -> B) (img : image A) :
  all_pixels (fun a => P (f a)) img -> all_pixels P (map_img f img).
Proof.
  unfold all_pixels, map_img. intros Himg.
  apply Forall_map. eapply Forall_impl; [| exact Himg].
  intros row Hrow. now apply Forall_map.
Qed.

Lemma all_pixels_impl {A} (P Q : A -> Prop) (img : image A) :
  (forall a, P a -> Q a) -> all_pixels P img -> all_pixels Q img.
Proof.
  intros HPQ. unfold all_pixels. apply Forall_impl.
  intros row. now apply Forall_impl.
Qed.

Lemma all_pixels_true {A} (P : A -> Prop) (img : image A) :
  (forall a, P a) -> all_pixels P img.
Proof.
  intros HP. unfold all_pixels.
  apply Forall_forall; intros row _. apply Forall_forall; intros a _. apply HP.
Qed.

Lemma map_img_map_img {A B C} (f : A -> B) (g : B -> C) (img : image A) :
  map_img g (map_img f img) = map_img (fun a => g (f a)) img.
Proof.
  unfold map_img. rewrite map_map. apply map_ext. intros row. apply map_map.
Qed.

Lemma map_img_ext {A B} (f g : A -> B) (img : image A) :
  (forall a, f a = g a) -> map_img f img = map_img g img.
Proof.
  intros Hfg. unfold map_img. apply map_ext. intros row. now apply map_ext.
Qed.

Lemma byte_channel_bounds (c : Byte.byte) :
  (0 <= IZR (Z.of_N (Byte.to_N c)) <= 255)%R.
Proof.
  pose proof (Byte.to_N_bounded c) as Hc.
  split.
  - apply IZR_le. lia.
  - apply IZR_le. lia.
Qed.

Lemma twice_divided_dim (p : Byte.byte * Byte.byte * Byte.byte) :
  dim_colour (twice_divided p).
Proof.
  destruct p as [[r g] b]. unfold dim_colour, twice_divided.
  pose proof (byte_channel_bounds r). pose proof (byte_channel_bounds g).
  pose proof (byte_channel_bounds b).
  repeat split; lra.
Qed.

Lemma renormalize_normalize
      (obs_img : image (Byte.byte * Byte.byte * Byte.byte)) :
  renormalize (normalize obs_img) = map_img twice_divided obs_img.
Proof.
  unfold renormalize, normalize. rewrite map_img_map_img.
  apply map_img_ext. intros [[r g] b]. reflexivity.
Qed.

Lemma value_channel_shift (delta : R)
      (img : image (R * R * R)) :
  value_channel (shift_brightness delta img) =
  map_img (shift_value delta) (value_channel img).
Proof.
  unfold value_channel, shift_brightness. rewrite !map_img_map_img.
  apply map_img_ext. intros [[h s] value]. reflexivity.
Qed.

Lemma shift_value_clamps (delta value : R) :
  (delta < 0)%R -> (1 / 255 < Rabs delta)%R -> (0 <= value <= 1 / 255)%R ->
  shift_value delta value = 0%R.
Proof.
  intros Hneg Hbig Hval. unfold shift_value; cbn.
  rewrite (Rltb_true _ _ Hneg).
  rewrite Rltb_true by lra.
  rewrite Rleb_false by lra.
  reflexivity.
Qed.

Lemma stub_value_is_max (kps : list pixel) : value_is_max (stub kps).
Proof.
  intros r g b. cbn. unfold smax, Rmax; cbn. unfold Rltb.
  destruct (Rlt_dec r g), (Rle_dec r g); try lra.
  - destruct (Rlt_dec g b), (Rle_dec g b); lra.
  - assert (r = g) by lra; subst g.
    destruct (Rlt_dec r b), (Rle_dec r b); lra.
  - destruct (Rlt_dec r b), (Rle_dec r b); lra.
Qed.

(* ----------------------------------------------------------------- *)
(** ** Lists and indexing *)

Lemma pixel_eqb_eq (p q : pixel) : pixel_eqb p q = true <-> p = q.
Proof.
  destruct p as [x y], q as [x' y']. unfold pixel_eqb; cbn.
  rewrite andb_true_iff, !Nat.eqb_eq. split.
  - intros [-> ->]. reflexivity.
  - intros Heq. inversion Heq. auto.
Qed.

Lemma mem_pixel_In (p : pixel) (l : list pixel) :
  mem_pixel p l = true <-> In p l.
Proof.
  unfold mem_pixel. rewrite existsb_exists. split.
  - intros [q [Hq Hpq]]. apply pixel_eqb_eq in Hpq. now subst.
  - intros Hp. exists p. split; [assumption | now apply pixel_eqb_eq].
Qed.

Lemma not_mem_pixel (p : pixel) (l : list pixel) :
  negb (mem_pixel p l) = true <-> ~ In p l.
Proof.
  rewrite negb_true_iff, <- mem_pixel_In.
  destruct (mem_pixel p l); split; intros; congruence.
Qed.

Lemma points_np_array (l : list pixel) : points (np_array l) = l.
Proof. destruct l; reflexivity. Qed.

Lemma shape0_points (a : coord_array) : shape0 a = length (points a).
Proof. destruct a; reflexivity. Qed.

Lemma NoDup_firstn {A} (n : nat) (l : list A) : NoDup l -> NoDup (firstn n l).
Proof.
  intros Hl. rewrite <- (firstn_skipn n l) in Hl.
  now apply NoDup_app_remove_r in Hl.
Qed.

Lemma Forall_firstn {A} (P : A -> Prop) (n : nat) (l : list A) :
  Forall P l -> Forall P (firstn n l).
Proof.
  intros Hl. rewrite <- (firstn_skipn n l) in Hl.
  now apply Forall_app in Hl.
Qed.

Lemma all_some_spec {A} (l : list (option A)) (r : list A) :
  all_some l = Some r <-> l = map Some r.
Proof.
  revert r. induction l as [| o l IH]; intros r; cbn.
  - split.
    + intros [= <-]. reflexivity.
    + destruct r; [reflexivity | discriminate].
  - destruct o as [a |]; [| split; [discriminate | destruct r; discriminate]].
    destruct r as [| b r].
    + split; [| discriminate]. destruct (all_some l); discriminate.
    + cbn. specialize (IH r). destruct (all_some l) as [r' |].
      * split.
        -- intros [= -> ->]. f_equal. now apply IH.
        -- intros [= -> Hl]. apply IH in Hl. now inversion Hl.
      * split; [discriminate |]. intros [= -> Hl]. apply IH in Hl.
        discriminate.
Qed.

Lemma pick_spec {A} (l : list A) (inds : list nat) (rows : list A) :
  pick l inds = Some rows ->
  length rows = length inds /\
  incl rows l /\
  (NoDup l -> NoDup inds -> NoDup rows).
Proof.
  unfold pick. rewrite all_some_spec. revert rows.
  induction inds as [| i inds IH]; intros rows Heq.
  - destruct rows; [| discriminate]. repeat split.
    + intros x [].
    + constructor.
  - destruct rows as [| a rows]; [discriminate |]. cbn in Heq.
    inversion Heq as [[Ha Hrest]].
    destruct (IH rows Hrest) as [Hlen [Hincl Hnd]].
    repeat split.
    + cbn. now rewrite Hlen.
    + intros x [<- | Hx].
      * eapply nth_error_In. exact Ha.
      * now apply Hincl.
    + intros Hl Hinds. inversion Hinds as [| ? ? Hi Hinds']; subst.
      constructor; [| now apply Hnd].
      intros Hin. apply Hi.
      assert (Hfind : forall (js : list nat) (rs : list A),
                 map (nth_error l) js = map Some rs -> In a rs ->
                 exists j, In j js /\ nth_error l j = Some a).
      { clear. induction js as [| j js IHjs]; intros [| r rs] Hmap Hr;
          try discriminate; try contradiction.
        cbn in Hmap. inversion Hmap as [[Hj Hrest]].
        destruct Hr as [-> | Hr].
        - exists j. split; [now left | assumption].
        - destruct (IHjs rs Hrest Hr) as [j' [Hj' Hnth]].
          exists j'. split; [now right | assumption]. }
      destruct (Hfind inds rows Hrest Hin) as [j [Hj Hnth]].
      assert (i = j).
      { apply (proj1 (NoDup_nth_error l) Hl).
        - apply nth_error_Some. congruence.
        - congruence. }
      now subst.
Qed.

Lemma pick_total {A} (l : list A) (inds : list nat) :
  Forall (fun i => i < length l) inds -> exists rows, pick l inds = Some rows.
Proof.
  intros Hinds. unfold pick.
  induction Hinds as [| i inds Hi _ [rows IH]]; cbn.
  - now exists [].
  - destruct (nth_error l i) as [a |] eqn:Ha.
    + rewrite IH. now exists (a :: rows).
    + apply nth_error_None in Ha. lia.
Qed.

(* ----------------------------------------------------------------- *)
(** ** Reasoning about the calls *)

Section Hoare.
Context {F : Type} {SF : Scalar F} {E : Externals F}.
Variable P : event F -> Prop.

Lemma hoare_ret {A} (a : A) (Q : A -> Prop) : Q a -> hoare (ret a) Q P.
Proof.
  intros Ha s. split; [constructor |]. cbn. now intros ? [= <-].
Qed.

Lemma hoare_bind {A B} (m : M A) (f : A -> M B)
      (Q1 : A -> Prop) (Q : B -> Prop) :
  hoare m Q1 P -> (forall a, Q1 a -> hoare (f a) Q P) ->
  hoare (bind m f) Q P.
Proof.
  intros Hm Hf s. unfold bind.
  destruct (Hm s) as [Hev Hval].
  destruct (m s) as [[r s'] ev]; cbn in *.
  destruct r as [a | value | e]; cbn.
  - destruct (Hf a (Hval a eq_refl) s') as [Hev' Hval'].
    destruct (f a s') as [[r' s''] ev']; cbn in *.
    split; [now apply Forall_app | assumption].
  - split; [assumption | discriminate].
  - split; [assumption | discriminate].
Qed.

Lemma hoare_raise {A} (e : exn) (Q : A -> Prop) : hoare (raise e) Q P.
Proof. intros s. split; [constructor | discriminate]. Qed.

Lemma hoare_py_return {A} (value : option (mat4 F)) (Q : A -> Prop) :
  hoare (py_return value) Q P.
Proof. intros s. split; [constructor | discriminate]. Qed.

Lemma hoare_emit (e : event F) : P e -> hoare (emit e) (fun _ => True) P.
Proof. intros He s. split; [now repeat constructor | trivial]. Qed.

Lemma hoare_draw {A} (f : RNG -> A * RNG) (Q : A -> Prop) :
  (forall g, Q (fst (f g))) -> hoare (draw f) Q P.
Proof.
  intros Hf s. unfold draw. specialize (Hf (rng s)).
  destruct (f (rng s)) as [a g]. split; [constructor |].
  cbn in *. now intros ? [= <-].
Qed.

Lemma hoare_draw_unseeded {A} (f : RNG -> Entropy -> A * RNG * Entropy) :
  hoare (draw_unseeded f) (fun _ => True) P.
Proof.
  intros s. unfold draw_unseeded.
  destruct (f (rng s) (entropy s)) as [[a g] e]. split; [constructor | trivial].
Qed.

Lemma hoare_torch_try {A} (o : option A) :
  hoare (torch_try o) (fun a => o = Some a) P.
Proof.
  destruct o as [a |]; cbn.
  - now apply hoare_ret.
  - apply hoare_raise.
Qed.

Lemma hoare_set_pose_prior (p : mat4 F) :
  hoare (set_pose_prior p) (fun _ => True) P.
Proof. intros s. split; [constructor | trivial]. Qed.

Lemma hoare_need {A} (o : option A) :
  hoare (need o) (fun a => o = Some a) P.
Proof.
  destruct o as [a |]; cbn.
  - now apply hoare_ret.
  - apply hoare_raise.
Qed.

Lemma hoare_index {A} (o : option A) :
  hoare (index o) (fun a => o = Some a) P.
Proof.
  destruct o as [a |]; cbn.
  - now apply hoare_ret.
  - apply hoare_raise.
Qed.

Lemma hoare_conseq {A} (m : M A) (Q Q' : A -> Prop) :
  hoare m Q P -> (forall a, Q a -> Q' a) -> hoare m Q' P.
Proof.
  intros Hm HQ s. destruct (Hm s) as [Hev Hval]. split; [assumption |].
  intros a Ha. now apply HQ, Hval.
Qed.

Lemma hoare_for_each {S} (body : nat -> S -> M S) (I : S -> Prop)
      (ks : list nat) (st : S) :
  (forall k st, I st -> hoare (body k st) I P) ->
  I st -> hoare (for_each ks body st) I P.
Proof.
  intros Hbody. revert st. induction ks as [| k ks IH]; intros st Hst; cbn.
  - now apply hoare_ret.
  - eapply hoare_bind; [now apply Hbody |]. intros st' Hst'. now apply IH.
Qed.

(** *** The primitives of the sampling *)

Lemma hoare_np_random_choice (n size : nat) :
  permutation_spec E ->
  hoare (np_random_choice n size)
        (fun inds => size <= n /\ length inds = size /\ NoDup inds /\
                     Forall (fun i => i < n) inds) P.
Proof.
  intros Hperm. unfold np_random_choice.
  destruct (Nat.leb_spec size n) as [Hle | Hgt]; [| apply hoare_raise].
  eapply hoare_bind with (Q1 := fun perm => Permutation perm (seq 0 n)).
  - apply hoare_draw. intros g. apply Hperm.
  - intros perm Hp. apply hoare_ret.
    assert (Hlen : length perm = n).
    { rewrite (Permutation_length Hp). apply length_seq. }
    assert (Hnd : NoDup perm).
    { eapply Permutation_NoDup; [apply Permutation_sym, Hp |].
      apply seq_NoDup. }
    assert (Hlt : Forall (fun i => i < n) perm).
    { apply Forall_forall. intros i Hi.
      apply (Permutation_in _ Hp) in Hi. apply in_seq in Hi. lia. }
    repeat split.
    + assumption.
    + rewrite length_firstn. lia.
    + now apply NoDup_firstn.
    + now apply Forall_firstn.
Qed.

Lemma hoare_take (a : coord_array) (inds : list nat) :
  hoare (take a inds)
        (fun b => shape0 b = length inds /\
                  incl (points b) (points a) /\
                  (NoDup (points a) -> NoDup inds -> NoDup (points b))) P.
Proof.
  destruct a as [| l]; cbn.
  - destruct inds; [| apply hoare_raise].
    apply hoare_ret. cbn. repeat split; auto. intros x [].
  - eapply hoare_bind; [apply hoare_index |].
    intros rows Hrows. apply hoare_ret. cbn.
    now apply pick_spec in Hrows.
Qed.

Lemma hoare_assign_rows (batch : list pixel) (start n : nat)
      (src : coord_array) :
  hoare (assign_rows batch start n src)
        (fun b => exists l, src = Rows l /\ length l = n /\
                  b = firstn start batch ++ l ++ skipn (start + n) batch) P.
Proof.
  destruct src as [| l]; cbn; [apply hoare_raise |].
  destruct (Nat.eqb_spec (length l) n) as [Hlen | Hlen];
    [| apply hoare_raise].
  apply hoare_ret. now exists l.
Qed.

Lemma hoare_columns (a : coord_array) :
  hoare (columns a) (fun ps => a = Rows ps) P.
Proof.
  destruct a as [| l]; cbn; [apply hoare_raise | now apply hoare_ret].
Qed.

End Hoare.

(* ----------------------------------------------------------------- *)
(** ** Sampling *)

Lemma firstn_length_app {A} (l r : list A) : firstn (length l) (l ++ r) = l.
Proof. induction l as [| a l IH]; cbn; [reflexivity | now rewrite IH]. Qed.

Lemma skipn_length_app {A} (l r : list A) : skipn (length l) (l ++ r) = r.
Proof. induction l as [| a l IH]; cbn; [reflexivity | exact IH]. Qed.

Section Sampling.
Context {F : Type} {SF : Scalar F} {E : Externals F}.

Lemma strategy_is_other (self : Estimator F) (a b : string) :
  strategy_is self a = true -> a <> b -> strategy_is self b = false.
Proof.
  unfold strategy_is. intros Ha Hab. apply String.eqb_eq in Ha.
  apply String.eqb_neq. congruence.
Qed.

Lemma bind_run {A B} (m : M A) (f : A -> M B) (s s' : world) (a : A)
      (ev : list (event F)) :
  m s = (Val a, s', ev) ->
  bind m f s = (let '(r, s'', ev') := f a s' in (r, s'', ev ++ ev')).
Proof. intros Hm. unfold bind. now rewrite Hm. Qed.

Lemma np_random_choice_runs (n size : nat) (s : world) :
  permutation_spec E -> size <= n ->
  exists inds s',
    np_random_choice n size s = (Val inds, s', []) /\
    pose_prior s' = pose_prior s /\
    length inds = size /\ Forall (fun i => i < n) inds.
Proof.
  intros Hperm Hle.
  destruct (hoare_np_random_choice (fun _ => True) n size Hperm s)
    as [_ Hval].
  unfold np_random_choice in *.
  destruct (Nat.leb_spec size n) as [_ | Hgt]; [| lia].
  unfold bind, draw, ret in *.
  destruct (np_random_permutation n (rng s)) as [perm g]; cbn in *.
  exists (firstn size perm), {| rng := g; entropy := entropy s; pose_prior := pose_prior s |}.
  destruct (Hval _ eq_refl) as [_ [Hlen [_ Hlt]]].
  repeat split; assumption.
Qed.

Lemma take_runs (a : coord_array) (inds : list nat) (s : world) :
  Forall (fun i => i < shape0 a) inds ->
  exists b, take a inds s = (Val b, s, []).
Proof.
  intros Hinds. destruct a as [| l]; cbn in *.
  - destruct inds as [| i inds]; [now exists Empty1D |].
    inversion Hinds; lia.
  - destruct (pick_total l inds Hinds) as [rows Hrows].
    exists (Rows rows). unfold bind. rewrite Hrows. reflexivity.
Qed.

Variable P : event F -> Prop.

Lemma hoare_resample_random (self : Estimator F) (grid : coord_array)
      (POI not_POI regions : option coord_array) :
  permutation_spec E -> strategy_is self "random" = true ->
  hoare (resample self grid POI not_POI regions)
        (fun b => shape0 b = batch_size self /\
                  incl (points b) (points grid) /\
                  (NoDup (points grid) -> NoDup (points b))) P.
Proof.
  intros Hperm Hs. unfold resample. rewrite Hs.
  eapply hoare_bind; [now apply hoare_np_random_choice |].
  intros inds [_ [Hlen [Hnd _]]].
  eapply hoare_conseq; [apply hoare_take |].
  intros b [Hb [Hincl Hnodup]]. repeat split; auto. congruence.
Qed.

Lemma hoare_resample_interest_regions (self : Estimator F)
      (grid regions : coord_array) (POI not_POI : option coord_array) :
  permutation_spec E -> strategy_is self "interest_regions" = true ->
  hoare (resample self grid POI not_POI (Some regions))
        (fun b => shape0 b = batch_size self /\
                  incl (points b) (points regions)) P.
Proof.
  intros Hperm Hs. unfold resample.
  rewrite (strategy_is_other self "interest_regions" "random" Hs)
    by discriminate.
  rewrite (strategy_is_other self "interest_regions" "interest_points" Hs)
    by discriminate.
  rewrite Hs.
  eapply hoare_bind; [apply hoare_need |]. intros r [= <-].
  eapply hoare_bind; [now apply hoare_np_random_choice |].
  intros inds [_ [Hlen _]].
  eapply hoare_conseq; [apply hoare_take |].
  intros b [Hb [Hincl _]]. split; [congruence | assumption].
Qed.

Lemma hoare_resample_interest_points (self : Estimator F)
      (grid POI not_POI : coord_array) (regions : option coord_array) :
  permutation_spec E -> strategy_is self "interest_points" = true ->
  hoare (resample self grid (Some POI) (Some not_POI) regions)
        (fun b =>
           shape0 b = batch_size self /\
           (batch_size self <= shape0 POI ->
            incl (points b) (points POI) /\
            (NoDup (points POI) -> NoDup (points b))) /\
           (shape0 POI < batch_size self ->
            firstn (shape0 POI) (points b) = points POI /\
            incl (skipn (shape0 POI) (points b)) (points not_POI) /\
            (NoDup (points not_POI) ->
             NoDup (skipn (shape0 POI) (points b))))) P.
Proof.
  intros Hperm Hs. unfold resample.
  rewrite (strategy_is_other self "interest_points" "random" Hs)
    by discriminate.
  rewrite Hs.
  eapply hoare_bind; [apply hoare_need |]. intros r [= <-].
  destruct (Nat.leb_spec (batch_size self) (shape0 POI)) as [Hle | Hgt].
  - eapply hoare_bind; [now apply hoare_np_random_choice |].
    intros inds [_ [Hlen [Hnd _]]].
    eapply hoare_conseq; [apply hoare_take |].
    intros b [Hb [Hincl Hnodup]]. split; [congruence |].
    split; [auto | lia].
  - eapply hoare_bind; [apply hoare_assign_rows |].
    intros batch1 [l [HPOI [Hl Hbatch1]]].
    eapply hoare_bind; [apply hoare_need |]. intros r [= <-].
    eapply hoare_bind; [now apply hoare_np_random_choice |].
    intros inds [_ [Hlen [Hnd _]]].
    eapply hoare_bind; [apply hoare_take |].
    intros fill [Hfill [Hincl Hnodup]].
    eapply hoare_bind; [apply hoare_assign_rows |].
    intros batch2 [lf [Hlf [Hlflen Hbatch2]]].
    apply hoare_ret. subst POI fill. cbn in *.
    assert (H1 : batch1 = l ++ skipn (length l) (repeat (0, 0) (batch_size self)))
      by (subst batch1; reflexivity).
    assert (Hlen1 : length batch1 = batch_size self).
    { rewrite H1, length_app, length_skipn, repeat_length. lia. }
    assert (H2 : batch2 = l ++ lf).
    { subst batch2. rewrite H1 at 1. rewrite firstn_length_app.
      rewrite skipn_all2 by lia. now rewrite app_nil_r. }
    rewrite H2.
    rewrite length_app. split; [lia |]. split; [lia |]. intros _.
    rewrite firstn_length_app, skipn_length_app. auto.
Qed.

End Sampling.

Section SamplingRuns.
Context {F : Type} {SF : Scalar F} {E : Externals F}.

Lemma bind_ret_l {A B} (a : A) (f : A -> M B) (s : world) :
  bind (ret a) f s = f a s.
Proof. unfold bind, ret. now destruct (f a s) as [[r s'] ev]. Qed.

Lemma take_rows_runs (l : list pixel) (inds : list nat) (s : world) :
  Forall (fun i => i < length l) inds ->
  exists rows, take (Rows l) inds s = (Val (Rows rows), s, []) /\
               length rows = length inds.
Proof.
  intros Hinds. destruct (pick_total l inds Hinds) as [rows Hrows].
  exists rows. cbn. unfold bind. rewrite Hrows. cbn.
  split; [reflexivity |]. now apply pick_spec in Hrows.
Qed.

Lemma resample_interest_points_runs (self : Estimator F)
      (grid POI not_POI : coord_array) (regions : option coord_array)
      (s : world) :
  permutation_spec E -> strategy_is self "interest_points" = true ->
  batch_size self <= shape0 POI \/
  (0 < shape0 POI < batch_size self /\
   batch_size self - shape0 POI <= shape0 not_POI) ->
  exists b s', resample self grid (Some POI) (Some not_POI) regions s
               = (Val b, s', []).
Proof.
  intros Hperm Hs Hcase. unfold resample.
  rewrite (strategy_is_other self "interest_points" "random" Hs)
    by discriminate.
  rewrite Hs. cbn [need]. rewrite bind_ret_l.
  destruct Hcase as [Hle | [[Hpos Hlt] Hfill]].
  - apply Nat.leb_le in Hle as Hleb. rewrite Hleb.
    destruct (np_random_choice_runs (shape0 POI) (batch_size self) s
                Hperm Hle) as [inds [s' [Hrun [_ [_ Hinds]]]]].
    rewrite (bind_run _ _ _ _ _ _ Hrun).
    destruct (take_runs POI inds s' Hinds) as [b Hb].
    rewrite Hb. now exists b, s'.
  - assert (Hleb : Nat.leb (batch_size self) (shape0 POI) = false)
      by (apply Nat.leb_gt; lia).
    rewrite Hleb.
    destruct POI as [| l]; cbn in Hpos, Hlt, Hfill |- *; [lia |].
    rewrite Nat.eqb_refl, bind_ret_l, bind_ret_l.
    destruct (np_random_choice_runs (shape0 not_POI)
                (batch_size self - length l) s Hperm Hfill)
      as [inds [s' [Hrun [_ [Hlen Hinds]]]]].
    rewrite (bind_run _ _ _ _ _ _ Hrun).
    destruct not_POI as [| ln]; cbn in Hfill, Hinds; [lia |].
    destruct (take_rows_runs ln inds s' Hinds) as [rows [Hrows Hrlen]].
    rewrite (bind_run _ _ _ _ _ _ Hrows). cbn [assign_rows].
    assert (Heq : Nat.eqb (length rows) (batch_size self - length l) = true)
      by (apply Nat.eqb_eq; lia).
    rewrite Heq, bind_ret_l. cbn. eauto.
Qed.

End SamplingRuns.

Lemma set_iter_points {F} (E : Externals F) (l : list pixel) :
  set_iter_spec E -> NoDup (set_iter l) /\ incl (set_iter l) l.
Proof.
  intros Hset. destruct (Hset l) as [Hnd Hin]. split; [assumption |].
  intros p Hp. now apply Hin.
Qed.

(** C6. Under the strategy interest_points a resample event gives a batch
    of exactly batch_size rows.  With |POI| >= batch_size its rows are
    drawn without replacement from POI; otherwise its first |POI| rows
    are POI and the other rows are drawn without replacement from the grid
    without POI, so none of them is in POI.  The batch is produced
    whenever |POI| >= batch_size, and in the other case whenever POI is
    not empty and the grid without POI has batch_size - |POI| pixels. *)
Theorem interest_points_resample
        (F : Type) (SF : Scalar F) (E : Externals F) (self : Estimator F)
        (img : image (Byte.byte * Byte.byte * Byte.byte))
        (regions : option coord_array) :
  permutation_spec E -> set_iter_spec E ->
  strategy_is self "interest_points" = true ->
  let grid := reshape_rows (coords self) in
  let POI := find_POI img in
  let not_POI := complement_of grid POI in
  hoare (resample self grid (Some POI) (Some not_POI) regions)
        (interest_points_batch (batch_size self) (points grid) (points POI))
        (fun _ => True) /\
  (forall s,
      batch_size self <= shape0 POI \/
      (0 < shape0 POI < batch_size self /\
       batch_size self - shape0 POI <= shape0 not_POI) ->
      exists b s', resample self grid (Some POI) (Some not_POI) regions s
                   = (Val b, s', [])).
Proof.
  intros Hperm Hset Hs grid POI not_POI. split.
  - eapply hoare_conseq;
      [now apply hoare_resample_interest_points |].
    assert (HPOI : NoDup (points POI)).
    { unfold POI, find_POI. rewrite points_np_array. apply Hset. }
    assert (Hnot : NoDup (points not_POI) /\
                   incl (points not_POI)
                        (filter (fun p => negb (mem_pixel p (points POI)))
                                (points grid))).
    { unfold not_POI, complement_of. rewrite points_np_array.
      split; [apply Hset |].
      intros p Hp. apply (proj2 (set_iter_points E _ Hset)) in Hp.
      apply filter_In in Hp. destruct Hp as [Hp Hmem].
      apply filter_In. split; [| assumption].
      now apply (proj2 (set_iter_points E _ Hset)). }
    destruct Hnot as [Hnd Hincl].
    intros b [Hlen [Hge Hlt]]. unfold interest_points_batch, drawn_from.
    rewrite <- shape0_points.
    split; [assumption |]. split.
    + intros Hle. destruct (Hge Hle) as [Hin Hb]. auto.
    + intros Hless. destruct (Hlt Hless) as [Hfirst [Hin Hb]].
      split; [assumption |]. split.
      * split; [auto |]. intros p Hp. apply Hincl, Hin, Hp.
      * intros p Hp. apply Hin, Hincl, filter_In in Hp.
        now apply not_mem_pixel.
  - intros s Hcase. now apply resample_interest_points_runs.
Qed.

(* ----------------------------------------------------------------- *)
(** ** The stub collaborators meet the assumptions *)

Lemma stub_permutation_spec {F} {SF : Scalar F} (kps : list pixel) :
  permutation_spec (stub (F := F) kps).
Proof.
  intros n g. cbn. unfold rotate.
  eapply Permutation_trans; [apply Permutation_app_comm |].
  rewrite firstn_skipn. apply Permutation_refl.
Qed.

Lemma stub_set_iter_spec {F} {SF : Scalar F} (kps : list pixel) :
  set_iter_spec (stub (F := F) kps).
Proof.
  intros l. cbn. split; [apply NoDup_nodup | intros p; apply nodup_In].
Qed.

Lemma stub_keypoints_in_grid {F} {SF : Scalar F} (kps : list pixel)
      (W H : nat) :
  Forall (in_grid W H) kps -> keypoints_in_grid (stub (F := F) kps) W H.
Proof.
  intros Hkps img p Hp. cbn in Hp.
  now apply (proj1 (Forall_forall _ _) Hkps).
Qed.

(** The theorem on a grid of two pixels with one keypoint and a batch of
    two: the fallback draws the other pixel. *)
Lemma interest_points_resample_witness :
  let E := stub (F := R) [(0, 0)] in
  let self :=
    stub_estimator 1 2 "interest_points" (flat_renderer 2 1 0%R 0%R) None 0%R in
  let grid := reshape_rows (coords self) in
  let POI := find_POI [] in
  exists b s',
    resample self grid (Some POI) (Some (complement_of grid POI)) None
             {| rng := 0; entropy := 0; pose_prior := None |} = (Val b, s', []).
Proof.
  intros E self grid POI.
  apply (interest_points_resample R Scalar_R E self [] None
           (stub_permutation_spec _) (stub_set_iter_spec _) eq_refl).
  right. cbn. lia.
Defined.

(* ----------------------------------------------------------------- *)
(** ** The grid *)

Lemma in_meshgrid (W H : nat) (p : pixel) :
  In p (concat (meshgrid W H)) <-> in_grid W H p.
Proof.
  unfold meshgrid, in_grid. rewrite in_concat. split.
  - intros [row [Hrow Hp]]. apply in_map_iff in Hrow.
    destruct Hrow as [i [<- Hi]]. apply in_map_iff in Hp.
    destruct Hp as [j [<- Hj]]. apply in_seq in Hi, Hj. cbn. lia.
  - intros [Hx Hy]. destruct p as [x y]; cbn in *.
    exists (map (fun j => (j, y)) (seq 0 W)). split.
    + apply in_map_iff. exists y. split; [reflexivity |]. apply in_seq. lia.
    + apply in_map_iff. exists x. split; [reflexivity |]. apply in_seq. lia.
Qed.

Lemma NoDup_meshgrid_rows (xs ys : list nat) :
  NoDup xs -> NoDup ys ->
  NoDup (concat (map (fun i => map (fun j => (j, i)) xs) ys)).
Proof.
  intros Hxs Hys. induction Hys as [| i ys Hi Hys IH]; cbn; [constructor |].
  apply NoDup_app.
  - clear - Hxs. induction Hxs as [| j xs Hj Hxs IH]; cbn; constructor.
    + intros Hin. apply in_map_iff in Hin. destruct Hin as [j' [[= ->] Hj']].
      contradiction.
    + exact IH.
  - exact IH.
  - intros p Hp Hin. apply in_map_iff in Hp. destruct Hp as [j [<- Hj]].
    apply in_concat in Hin. destruct Hin as [row [Hrow Hp]].
    apply in_map_iff in Hrow. destruct Hrow as [i' [<- Hi']].
    apply in_map_iff in Hp. destruct Hp as [j' [[= -> ->] _]].
    contradiction.
Qed.

Lemma NoDup_meshgrid (W H : nat) : NoDup (concat (meshgrid W H)).
Proof. apply NoDup_meshgrid_rows; apply seq_NoDup. Qed.

Lemma mask_select_incl (c : image pixel) (mask : image bool)
      (rows : list pixel) :
  mask_select c mask = Some rows -> incl rows (concat c).
Proof.
  unfold mask_select. destruct (same_shape c mask); [| discriminate].
  intros [= <-] p Hp. apply in_map_iff in Hp.
  destruct Hp as [[q b] [<- Hq]]. apply filter_In in Hq.
  destruct Hq as [Hq _]. now apply in_combine_l in Hq.
Qed.

(* ----------------------------------------------------------------- *)
(** ** Every sampled batch lies in the grid *)

Lemma bind_events {F} {E : Externals F} {A B} (m : M A) (f : A -> M B)
      (s s1 : world) (a : A) (ev1 : list (event F)) :
  m s = (Val a, s1, ev1) -> snd (bind m f s) = ev1 ++ snd (f a s1).
Proof.
  intros Hm. unfold bind. rewrite Hm.
  now destruct (f a s1) as [[r s2] ev2].
Qed.

Section BatchInvariant.
Context {F : Type} {SF : Scalar F} {E : Externals F}.
Variable self : Estimator F.

Let P : event F -> Prop := sampled_ok self.

Lemma hoare_true {A} (m : M A) (Q : A -> Prop) :
  hoare m Q P -> hoare m (fun _ => True) P.
Proof. intros Hm. eapply hoare_conseq; [exact Hm | trivial]. Qed.

Lemma hoare_bind_ret {A B} (a : A) (f : A -> M B) (Q : B -> Prop) :
  hoare (f a) Q P -> hoare (bind (ret a) f) Q P.
Proof.
  intros Hf. eapply hoare_bind with (Q1 := fun x => x = a).
  - now apply hoare_ret.
  - now intros x ->.
Qed.

Lemma hoare_print (text : string) (values : list F) :
  hoare (print text values) (fun _ => True) P.
Proof. apply hoare_emit. exact I. Qed.

Lemma hoare_gather {A} (img : image A) (b : coord_array) :
  hoare (gather img b) (fun _ => True) P.
Proof.
  unfold gather. eapply hoare_bind; [apply hoare_columns |].
  intros ps _. eapply hoare_true, hoare_index.
Qed.

Lemma hoare_report (k : nat) (loss : F) (refs : F * F * F * F)
      (pose : mat4 F) :
  hoare (report k loss refs pose) (fun _ => True) P.
Proof.
  unfold report. destruct refs as [[[phi_ref theta_ref] psi_ref] t_ref].
  destruct (pose_angles pose) as [[[phi theta] psi] t].
  repeat (eapply hoare_bind; [apply hoare_print | intros _ _]).
  apply hoare_print.
Qed.

Lemma hoare_noised (mode : string) (param : option F)
      (img : image (F * F * F)) :
  hoare (noised mode param img) (fun _ => True) P.
Proof.
  unfold noised.
  eapply hoare_bind with (Q1 := fun _ => True);
    [apply hoare_draw_unseeded | intros img' _].
  eapply hoare_bind; [apply hoare_emit; exact I | intros _ _].
  now apply hoare_ret.
Qed.

Lemma hoare_apply_noise (img : image (F * F * F)) :
  hoare (apply_noise self img) (fun _ => True) P.
Proof.
  unfold apply_noise.
  repeat match goal with
         | |- context [if ?c then _ else _] => destruct c
         end; try apply hoare_noised.
  now apply hoare_ret.
Qed.

Lemma hoare_new_camera_transf :
  hoare new_camera_transf (fun _ => True) P.
Proof.
  unfold new_camera_transf.
  repeat (eapply hoare_bind with (Q1 := fun _ => True);
          [now apply hoare_draw | intros ? _]).
  eapply hoare_bind; [apply hoare_emit; exact I | intros _ _].
  now apply hoare_ret.
Qed.

Lemma hoare_interest_region_coords (POI : coord_array) :
  hoare (interest_region_coords self POI)
        (fun r => incl (points r) (concat (coords self))) P.
Proof.
  unfold interest_region_coords.
  eapply hoare_bind; [apply hoare_columns | intros ps _].
  eapply hoare_bind; [apply hoare_index | intros mask _].
  eapply hoare_bind; [apply hoare_index | intros rows Hrows].
  apply hoare_ret. cbn. now apply mask_select_incl in Hrows.
Qed.

Lemma hoare_iteration (start_pose : mat4 F)
      (obs_img_noised : image (F * F * F)) (obs_img_depth : option (image F))
      (grid : coord_array) (POI not_POI regions : option coord_array)
      (refs : F * F * F * F) (k : nat) (st : locals) :
  hoare (resample self grid POI not_POI regions) (batch_ok self) P ->
  hoare (iteration self start_pose obs_img_noised obs_img_depth grid
                   POI not_POI regions refs k st)
        (fun _ => True) P.
Proof.
  intros Hres. unfold iteration.
  eapply hoare_bind with (Q1 := fun _ => True).
  { destruct (Nat.eqb (k mod Globals.N) 0).
    - eapply hoare_bind; [exact Hres | intros b Hb].
      eapply hoare_bind; [apply hoare_emit; exact Hb | intros _ _].
      now apply hoare_ret.
    - eapply hoare_true, hoare_need. }
  intros b _.
  eapply hoare_bind; [apply hoare_gather | intros target_s _].
  eapply hoare_bind; [apply hoare_emit; exact I | intros _ _].
  eapply hoare_bind with (Q1 := fun _ => True).
  { destruct obs_img_depth; [now apply hoare_ret | apply hoare_raise]. }
  intros depth_img _.
  eapply hoare_bind; [apply hoare_gather | intros depth_s _].
  eapply hoare_bind; [apply hoare_emit; exact I | intros _ _].
  eapply hoare_bind; [apply hoare_torch_try | intros loss _].
  eapply hoare_bind; [apply hoare_torch_try | intros grad _].
  match goal with
  | |- context [adam_step ?a ?b ?c ?d] =>
      destruct (adam_step a b c d) as [moments' cam']
  end.
  eapply hoare_bind; [apply hoare_emit; exact I | intros _ _].
  eapply hoare_bind with (Q1 := fun _ => True).
  { destruct (report_due k); [apply hoare_report | now apply hoare_ret]. }
  intros _ _. now apply hoare_ret.
Qed.

Lemma hoare_resample_unknown (grid : coord_array)
      (POI not_POI regions : option coord_array) :
  strategy_is self "random" = false ->
  strategy_is self "interest_points" = false ->
  strategy_is self "interest_regions" = false ->
  hoare (resample self grid POI not_POI regions) (batch_ok self) P.
Proof.
  intros H1 H2 H3. unfold resample. rewrite H1, H2, H3.
  eapply hoare_bind; [apply hoare_print | intros _ _].
  apply hoare_py_return.
Qed.

Lemma grid_points_in_grid (l : list pixel) :
  incl l (concat (coords self)) ->
  Forall (in_grid (W self) (H self)) l.
Proof.
  intros Hl. apply Forall_forall. intros p Hp.
  apply in_meshgrid. apply Hl, Hp.
Qed.

Hypothesis Hperm : permutation_spec E.

(** The batches of a call are as stated when, under the strategy
    interest_points, the keypoints that the detector reports on the image
    of the call lie in the grid of the renderer. *)
Lemma batches_of_estimate_pose_body (start_pose : mat4 F)
      (obs_img : image (Byte.byte * Byte.byte * Byte.byte))
      (obs_img_pose : mat4 F) (obs_img_depth : option (image F))
      (s : world) :
  (strategy_is self "interest_points" = true ->
   set_iter_spec E /\
   Forall (in_grid (W self) (H self))
          (sift_keypoints (detector_input self obs_img s))) ->
  Forall P (snd (estimate_pose_body self start_pose obs_img obs_img_pose
                                    obs_img_depth s)).
Proof.
  intros Hpoints. unfold estimate_pose_body. cbv zeta.
  unfold detector_input in Hpoints.
  destruct (hoare_apply_noise (change_brightness self (normalize obs_img)) s)
    as [Hev1 _].
  destruct (apply_noise self (change_brightness self (normalize obs_img)) s)
    as [[[obs_img_noised | value | e] s1] ev1] eqn:Hnoise;
    cbn [fst snd] in *;
    [| unfold bind; now rewrite Hnoise | unfold bind; now rewrite Hnoise].
  rewrite (bind_events _ _ _ _ _ _ Hnoise). apply Forall_app.
  split; [exact Hev1 |].
  match goal with
  | |- Forall P (snd (?m s1)) =>
      assert (Hrest : hoare m (fun _ => True) P); [| apply (Hrest s1)]
  end.
  set (img := to_uint8 obs_img_noised) in *.
  set (grid := reshape_rows (coords self)).
  destruct (strategy_is self "random") eqn:Hrandom.
  { (* random *)
    rewrite (strategy_is_other self "random" "interest_regions" Hrandom)
      by discriminate.
    rewrite (strategy_is_other self "random" "interest_points" Hrandom)
      by discriminate.
    cbn [orb]. do 2 apply hoare_bind_ret.
    eapply hoare_bind; [apply hoare_new_camera_transf | intros cam _].
    eapply hoare_bind with (Q1 := fun _ => True).
    - apply hoare_for_each; [| trivial]. intros k st _.
      apply hoare_iteration.
      eapply hoare_conseq; [now apply hoare_resample_random |].
      intros b [Hlen [Hincl Hnd]]. repeat split.
      + assumption.
      + now apply grid_points_in_grid.
      + intros _. apply Hnd. apply NoDup_meshgrid.
    - intros st _.
      eapply hoare_bind; [apply hoare_need | intros pose _].
      eapply hoare_bind; [apply hoare_set_pose_prior | intros _ _].
      apply hoare_py_return. }
  destruct (strategy_is self "interest_points") eqn:Hpts.
  { (* interest_points *)
    rewrite (strategy_is_other self "interest_points" "interest_regions" Hpts)
      by discriminate.
    cbn [orb need]. apply hoare_bind_ret.
    eapply hoare_bind with
      (Q1 := fun o => o = Some (complement_of grid (find_POI img))).
    { apply hoare_bind_ret. now apply hoare_ret. }
    intros not_POI ->.
    destruct (Hpoints eq_refl) as [Hset Hkps].
    eapply hoare_bind; [apply hoare_new_camera_transf | intros cam _].
    eapply hoare_bind with (Q1 := fun _ => True).
    - apply hoare_for_each; [| trivial]. intros k st _.
      apply hoare_iteration.
      eapply hoare_conseq;
        [now apply hoare_resample_interest_points |].
      assert (HPOI : Forall (in_grid (W self) (H self))
                            (points (find_POI img))).
      { unfold find_POI. rewrite points_np_array.
        apply Forall_forall. intros p Hp.
        apply (proj2 (set_iter_points E _ Hset)) in Hp.
        exact (proj1 (Forall_forall _ _) Hkps p Hp). }
      assert (Hnot : incl (points (complement_of grid (find_POI img)))
                          (concat (coords self))).
      { unfold complement_of. rewrite points_np_array. intros p Hp.
        apply (proj2 (set_iter_points E _ Hset)) in Hp.
        apply filter_In in Hp. destruct Hp as [Hp _].
        now apply (proj2 (set_iter_points E _ Hset)) in Hp. }
      intros b [Hlen [Hge Hlt]]. repeat split.
      + assumption.
      + destruct (Nat.le_gt_cases (batch_size self)
                                  (shape0 (find_POI img))) as [Hle | Hgt].
        * destruct (Hge Hle) as [Hincl _].
          apply Forall_forall. intros p Hp.
          apply (proj1 (Forall_forall _ _) HPOI). now apply Hincl.
        * destruct (Hlt Hgt) as [Hfirst [Hincl _]].
          rewrite <- (firstn_skipn (shape0 (find_POI img)) (points b)).
          apply Forall_app. split.
          -- now rewrite Hfirst.
          -- apply grid_points_in_grid. intros p Hp.
             now apply Hnot, Hincl.
      + congruence.
    - intros st _.
      eapply hoare_bind; [apply hoare_need | intros pose _].
      eapply hoare_bind; [apply hoare_set_pose_prior | intros _ _].
      apply hoare_py_return. }
  destruct (strategy_is self "interest_regions") eqn:Hreg.
  { (* interest_regions *)
    cbn [orb need].
    eapply hoare_bind with
      (Q1 := fun o => exists r, o = Some r /\
                                incl (points r) (concat (coords self))).
    { apply hoare_bind_ret.
      eapply hoare_bind; [apply hoare_interest_region_coords |].
      intros r Hr. apply hoare_ret. now exists r. }
    intros regions [r [-> Hr]]. apply hoare_bind_ret.
    eapply hoare_bind; [apply hoare_new_camera_transf | intros cam _].
    eapply hoare_bind with (Q1 := fun _ => True).
    - apply hoare_for_each; [| trivial]. intros k st _.
      apply hoare_iteration.
      eapply hoare_conseq;
        [now apply hoare_resample_interest_regions |].
      intros b [Hlen Hincl]. repeat split.
      + assumption.
      + apply grid_points_in_grid. intros p Hp. now apply Hr, Hincl.
      + congruence.
    - intros st _.
      eapply hoare_bind; [apply hoare_need | intros pose _].
      eapply hoare_bind; [apply hoare_set_pose_prior | intros _ _].
      apply hoare_py_return. }
  (* an unrecognized strategy *)
  cbn [orb]. do 2 apply hoare_bind_ret.
  eapply hoare_bind; [apply hoare_new_camera_transf | intros cam _].
  eapply hoare_bind with (Q1 := fun _ => True).
  - apply hoare_for_each; [| trivial]. intros k st _.
    apply hoare_iteration. now apply hoare_resample_unknown.
  - intros st _.
    eapply hoare_bind; [apply hoare_need | intros pose _].
    eapply hoare_bind; [apply hoare_set_pose_prior | intros _ _].
    apply hoare_py_return.
Qed.

End BatchInvariant.

Lemma estimate_pose_events {F} {SF : Scalar F} {E : Externals F}
      (self : Estimator F) (start_pose : mat4 F)
      (obs_img : image (Byte.byte * Byte.byte * Byte.byte))
      (obs_img_pose : mat4 F) (obs_img_depth : option (image F))
      (s : world) :
  snd (estimate_pose self start_pose obs_img obs_img_pose obs_img_depth s) =
  snd (estimate_pose_body self start_pose obs_img obs_img_pose
                          obs_img_depth s).
Proof.
  unfold estimate_pose.
  destruct (estimate_pose_body _ _ _ _ _ s) as [[[a | value | e] s'] ev];
    reflexivity.
Qed.

Lemma change_brightness_off {E : Externals R} (self : Estimator R)
      (img : image (R * R * R)) :
  delta_brightness self = 0%R -> change_brightness self img = img.
Proof.
  intros Hd. unfold change_brightness. rewrite Hd. cbn.
  now rewrite Reqb_true.
Qed.

(** C9 (as amended). Every batch that a call of [estimate_pose] samples
    under the strategy random or interest_regions holds exactly
    batch_size pixel coordinates, each inside [0,W) x [0,H), and under
    the strategy random no coordinate twice.  Under the strategy
    interest_points the same holds when the keypoints that the detector
    reports on the observed image of the call lie inside [0,W) x [0,H)
    (and a set holds each element once); the code does not check it: it
    never compares the size of the observed image with W and H. *)
Theorem sampled_batch_in_grid
        (F : Type) (SF : Scalar F) (E : Externals F) (self : Estimator F)
        (start_pose : mat4 F)
        (obs_img : image (Byte.byte * Byte.byte * Byte.byte))
        (obs_img_pose : mat4 F) (obs_img_depth : option (image F))
        (s : world) (k : nat) (b : coord_array) :
  permutation_spec E ->
  (strategy_is self "interest_points" = true ->
   set_iter_spec E /\
   Forall (in_grid (W self) (H self))
          (sift_keypoints (detector_input self obs_img s))) ->
  In (Sampled k b)
     (snd (estimate_pose self start_pose obs_img obs_img_pose
                         obs_img_depth s)) ->
  shape0 b = batch_size self /\
  Forall (in_grid (W self) (H self)) (points b) /\
  (strategy_is self "random" = true -> NoDup (points b)).
Proof.
  intros Hperm Hpoints Hin. rewrite estimate_pose_events in Hin.
  pose proof (batches_of_estimate_pose_body self Hperm start_pose obs_img
                obs_img_pose obs_img_depth s Hpoints) as Hev.
  apply (proj1 (Forall_forall _ _) Hev) in Hin. exact Hin.
Qed.

(** The amended statement on the first batch of a call with the strategy
    interest_points, on a grid of two pixels with the keypoint (1, 0);
    the call is made without a depth image and stops after the batch. *)
Lemma sampled_batch_in_grid_witness :
  let self :=
    stub_estimator 1 1 "interest_points" (flat_renderer 2 1 0%R 0%R)
                   None 0%R in
  shape0 (Rows [(1, 0)]) = batch_size self /\
  Forall (in_grid (W self) (H self)) (points (Rows [(1, 0)])) /\
  (strategy_is self "random" = true -> NoDup (points (Rows [(1, 0)]))).
Proof.
  intros self.
  apply (sampled_batch_in_grid R Scalar_R (stub [(1, 0)]) self eye4
           (flat_image 2 1 (Byte.x00, Byte.x00, Byte.x00)) eye4 None
           (stub_world [(1, 0)] 0) 0 (Rows [(1, 0)])).
  - apply stub_permutation_spec.
  - intros _. split; [apply stub_set_iter_spec |].
    repeat constructor.
  - unfold estimate_pose, estimate_pose_body.
    rewrite change_brightness_off by reflexivity.
    apply (nth_error_In _ 1). lazy. reflexivity.
Defined.

(** C9 as stated fails: with the strategy interest_points, an observed
    image of 6 x 6 pixels with a keypoint at (5, 5) and a renderer of
    2 x 1 pixels, the batch of the first iteration is the coordinate
    (5, 5), outside [0,2) x [0,1), and the call renders it and returns a
    pose. *)
Lemma sampled_batch_outside_grid :
  let E := stub (F := R) [(5, 5)] in
  let self :=
    stub_estimator 1 1 "interest_points" (flat_renderer 2 1 0%R 0%R)
                   None 0%R in
  let run :=
    estimate_pose self eye4 (flat_image 6 6 (Byte.x00, Byte.x00, Byte.x00))
                  eye4 (Some (flat_image 6 6 0%R)) (stub_world [(5, 5)] 0) in
  In (Sampled 0 (Rows [(5, 5)])) (snd run) /\
  ~ in_grid (W self) (H self) (5, 5) /\
  exists p, fst (fst run) = Returned (Some p).
Proof.
  intros E self run. subst run. unfold estimate_pose, estimate_pose_body.
  rewrite change_brightness_off by reflexivity.
  split; [| split].
  - apply (nth_error_In _ 1). lazy. reflexivity.
  - unfold in_grid. cbn. lia.
  - eexists. lazy. reflexivity.
Qed.

(* ----------------------------------------------------------------- *)
(** ** Runs of the parts of a call *)

Section Runs.
Context {F : Type} {SF : Scalar F} {E : Externals F}.

Lemma bind_raise_l {A B} (e : exn) (f : A -> M B) (s : world) :
  bind (raise e) f s = (Raised e, s, []).
Proof. reflexivity. Qed.

Lemma bind_run_raise {A B} (m : M A) (f : A -> M B) (s s' : world)
      (e : exn) (ev : list (event F)) :
  m s = (Raised e, s', ev) -> bind m f s = (Raised e, s', ev).
Proof. intros Hm. unfold bind. now rewrite Hm. Qed.

Lemma bind_run_returned {A B} (m : M A) (f : A -> M B) (s s' : world)
      (value : option (mat4 F)) (ev : list (event F)) :
  m s = (Returned value, s', ev) -> bind m f s = (Returned value, s', ev).
Proof. intros Hm. unfold bind. now rewrite Hm. Qed.

Lemma bind_assoc {A B C} (m : M A) (f : A -> M B) (g : B -> M C)
      (s : world) :
  bind (bind m f) g s = bind m (fun a => bind (f a) g) s.
Proof.
  unfold bind. destruct (m s) as [[[a | value | e] s'] ev]; try reflexivity.
  destruct (f a s') as [[[b | value | e] s''] ev']; try reflexivity.
  destruct (g b s'') as [[r s3] ev3]. now rewrite app_assoc.
Qed.

Lemma noised_runs (mode : string) (param : option F)
      (img : image (F * F * F)) (s : world) :
  exists img' s',
    noised mode param img s = (Val img', s', [Noised mode]) /\
    pose_prior s' = pose_prior s /\
    (img', rng s', entropy s')
    = random_noise mode param img (rng s) (entropy s).
Proof.
  unfold noised, bind, draw_unseeded, emit, ret.
  destruct (random_noise mode param img (rng s) (entropy s)) as [[img' g] e].
  exists img', {| rng := g; entropy := e; pose_prior := pose_prior s |}.
  repeat split.
Qed.

Lemma apply_noise_runs (self : Estimator F) (img : image (F * F * F))
      (s : world) :
  exists img' s' ev,
    apply_noise self img s = (Val img', s', ev) /\
    pose_prior s' = pose_prior s.
Proof.
  unfold apply_noise.
  repeat match goal with
         | |- context [if ?c then _ else _] => destruct c
         end;
    try (match goal with
         | |- context [noised ?m ?p ?i ?s] =>
             destruct (noised_runs m p i s) as [img' [s' [Hrun [Hp _]]]]
         end; rewrite Hrun; eauto).
  exists img, s, []. split; reflexivity.
Qed.

Lemma new_camera_transf_runs (s : world) :
  exists cam s',
    new_camera_transf s = (Val cam, s', [Initialised cam]) /\
    pose_prior s' = pose_prior s.
Proof.
  unfold new_camera_transf, bind, draw, emit, ret; cbn.
  repeat match goal with
         | |- context [torch_normal ?a ?b ?g] =>
             destruct (torch_normal a b g); cbn
         end.
  eexists _, _. split; reflexivity.
Qed.

Lemma interest_region_coords_cases (self : Estimator F)
      (POI : coord_array) (s : world) :
  (exists r, interest_region_coords self POI s = (Val r, s, [])) \/
  interest_region_coords self POI s = (Raised IndexError, s, []).
Proof.
  unfold interest_region_coords. destruct POI as [| l]; cbn.
  - right. reflexivity.
  - unfold bind, ret, index; cbn.
    destruct (set_mask_all _ l) as [mask |]; cbn; [| now right].
    destruct (mask_select _ _) as [rows |]; cbn; [| now right].
    left. now exists (Rows rows).
Qed.

Lemma interest_region_coords_empty (self : Estimator F) (s : world) :
  interest_region_coords self Empty1D s = (Raised IndexError, s, []).
Proof. reflexivity. Qed.

End Runs.

(* ----------------------------------------------------------------- *)
(** ** A call without iterations *)

Section NoIterations.
Context {F : Type} {SF : Scalar F} {E : Externals F}.

(** The complement of POI is computed without drawing or reporting. *)
Lemma not_POI_runs (c : bool) (POI : option coord_array)
      (grid : coord_array) (s : world) :
  (c = true -> POI <> None) ->
  exists o,
    (if c
     then bind (need POI) (fun POI => ret (Some (complement_of grid POI)))
     else ret None) s = (Val o, s, []).
Proof.
  intros HPOI. destruct c.
  - destruct POI as [a |]; [| now elim HPOI]. now eexists.
  - now eexists.
Qed.

End NoIterations.

(** C10 (as amended). A call configured with 0 iterations raises an error
    instead of returning a pose, and caches no pose prior: the error is
    the unbound-variable error of the loop-local pose, unless the strategy
    is interest_regions and the construction of the region mask has
    failed before with an IndexError. *)
Theorem zero_iterations_raise
        (F : Type) (SF : Scalar F) (E : Externals F) (self : Estimator F)
        (start_pose : mat4 F)
        (obs_img : image (Byte.byte * Byte.byte * Byte.byte))
        (obs_img_pose : mat4 F) (obs_img_depth : option (image F))
        (s : world) :
  iter self = 0 ->
  exists e s' ev,
    estimate_pose self start_pose obs_img obs_img_pose obs_img_depth s
    = (Raised e, s', ev) /\
    pose_prior s' = pose_prior s /\
    (e = UnboundLocalError \/
     (strategy_is self "interest_regions" = true /\ e = IndexError)).
Proof.
  intros Hiter. unfold estimate_pose, estimate_pose_body. cbv zeta.
  rewrite Hiter. cbn [seq for_each].
  destruct (apply_noise_runs self (change_brightness self (normalize obs_img)) s)
    as [noised [s1 [ev1 [Hnoise Hp1]]]].
  rewrite (bind_run _ _ _ _ _ _ Hnoise).
  set (POI := if strategy_is self "interest_regions"
                 || strategy_is self "interest_points"
              then Some (find_POI (to_uint8 noised)) else None).
  assert (Htail :
    exists cam s2,
      bind (if strategy_is self "interest_points"
            then bind (need POI)
                      (fun POI => ret (Some (complement_of
                                     (reshape_rows (coords self)) POI)))
            else ret None)
           (fun not_POI =>
              bind new_camera_transf
                (fun cam_transf =>
                   bind (ret {| cam_transf := cam_transf;
                                optim := {| moments := adam_init;
                                            lr := lrate self |};
                                batch := None; pose := None |})
                     (fun st =>
                        bind (need (pose st))
                          (fun pose =>
                             bind (set_pose_prior pose)
                               (fun _ => py_return (A := unit)
                                                   (Some pose)))))) s1
      = (Raised UnboundLocalError, s2, [Initialised cam]) /\
      pose_prior s2 = pose_prior s1).
  { destruct (not_POI_runs (strategy_is self "interest_points") POI
                (reshape_rows (coords self)) s1) as [o Ho].
    { intros Hpts. unfold POI. rewrite Hpts, orb_true_r. discriminate. }
    rewrite (bind_run _ _ _ _ _ _ Ho).
    destruct (new_camera_transf_runs s1) as [cam [s2 [Hcam Hp2]]].
    rewrite (bind_run _ _ _ _ _ _ Hcam), bind_ret_l.
    exists cam, s2. split; [reflexivity | assumption]. }
  destruct (strategy_is self "interest_regions") eqn:Hreg.
  - cbn [orb] in POI. subst POI. cbn [need] in *.
    rewrite bind_assoc, bind_ret_l, bind_assoc.
    destruct (interest_region_coords_cases self (find_POI (to_uint8 noised)) s1)
      as [[r Hr] | Hr].
    + rewrite (bind_run _ _ _ _ _ _ Hr), bind_ret_l.
      destruct Htail as [cam [s2 [Hrun Hp2]]].
      rewrite Hrun. cbn. eexists _, _, _.
      split; [reflexivity |]. split; [congruence | now left].
    + rewrite (bind_run_raise _ _ _ _ _ _ Hr). cbn. eexists _, _, _.
      split; [reflexivity |]. split; [assumption | now right].
  - rewrite bind_ret_l.
    destruct Htail as [cam [s2 [Hrun Hp2]]].
    rewrite Hrun. cbn. eexists _, _, _.
    split; [reflexivity |]. split; [congruence | now left].
Qed.

(** The amended statement on a call with the strategy random. *)
Lemma zero_iterations_raise_witness :
  exists e s' ev,
    estimate_pose
      (stub_estimator 0 1 "random" (flat_renderer 1 1 0%R 0%R) None 0%R)
      eye4 (flat_image 1 1 (Byte.x00, Byte.x00, Byte.x00)) eye4
      (Some (flat_image 1 1 0%R)) (stub_world [] 0)
    = (Raised e, s', ev) /\
    pose_prior s' = pose_prior (stub_world [] 0) /\
    (e = UnboundLocalError \/
     (strategy_is
        (stub_estimator 0 1 "random" (flat_renderer 1 1 0%R 0%R) None 0%R)
        "interest_regions" = true /\ e = IndexError)).
Proof.
  apply (zero_iterations_raise R Scalar_R (stub [])). reflexivity.
Defined.

(** C10 as stated fails: with 0 iterations, the strategy interest_regions
    and a detector that finds no keypoint, the call fails with an
    IndexError in the construction of the region mask, not with the
    unbound-variable error. *)
Lemma zero_iterations_index_error :
  let run :=
    estimate_pose
      (stub_estimator 0 1 "interest_regions" (flat_renderer 1 1 0%R 0%R)
                      None 0%R)
      eye4 (flat_image 1 1 (Byte.x00, Byte.x00, Byte.x00)) eye4
      (Some (flat_image 1 1 0%R)) (stub_world [] 0) in
  iter (stub_estimator 0 1 "interest_regions" (flat_renderer 1 1 0%R 0%R)
                       None 0%R) = 0 /\
  fst (fst run) = Raised IndexError /\
  fst (fst run) <> Raised UnboundLocalError.
Proof.
  cbv zeta. split; [reflexivity |].
  assert (Hrun : fst (fst (estimate_pose
      (stub_estimator 0 1 "interest_regions" (flat_renderer 1 1 0%R 0%R)
                      None 0%R)
      eye4 (flat_image 1 1 (Byte.x00, Byte.x00, Byte.x00)) eye4
      (Some (flat_image 1 1 0%R)) (stub_world [] 0))) = Raised IndexError)
    by (vm_compute; reflexivity).
  rewrite Hrun. split; [reflexivity | discriminate].
Qed.

(* ----------------------------------------------------------------- *)
(** ** An unrecognized strategy *)

Section Unrecognized.
Context {F : Type} {SF : Scalar F} {E : Externals F}.

Lemma resample_unknown_runs (self : Estimator F) (grid : coord_array)
      (POI not_POI regions : option coord_array) (s : world) :
  unrecognized self ->
  resample self grid POI not_POI regions s
  = (Returned None, s, [Printed "Unknown sampling strategy" []]).
Proof.
  intros [H1 [H2 H3]]. unfold resample. rewrite H1, H2, H3. reflexivity.
Qed.

Lemma iteration_unknown_runs (self : Estimator F) (start_pose : mat4 F)
      (obs_img_noised : image (F * F * F)) (obs_img_depth : option (image F))
      (grid : coord_array) (POI not_POI regions : option coord_array)
      (refs : F * F * F * F) (st : locals) (s : world) :
  unrecognized self ->
  iteration self start_pose obs_img_noised obs_img_depth grid POI not_POI
            regions refs 0 st s
  = (Returned None, s, [Printed "Unknown sampling strategy" []]).
Proof.
  intros Hself. unfold iteration.
  change (Nat.eqb (0 mod Globals.N) 0) with true. cbv iota.
  rewrite bind_assoc.
  now rewrite (bind_run_returned _ _ _ _ _ _
                 (resample_unknown_runs self grid POI not_POI regions s
                                        Hself)).
Qed.

End Unrecognized.

(** C1 (as amended). With a sampling strategy that is none of random,
    interest_points and interest_regions, and at least one iteration, a
    call of [estimate_pose] raises no error: it applies the noise to the
    observed image, draws the initial twist, enters the loop, prints
    'Unknown sampling strategy' in the first iteration and returns None,
    without a query to the renderer, an optimizer step or a cached pose
    prior. *)
Theorem unknown_strategy_returns_none
        (F : Type) (SF : Scalar F) (E : Externals F) (self : Estimator F)
        (start_pose : mat4 F)
        (obs_img : image (Byte.byte * Byte.byte * Byte.byte))
        (obs_img_pose : mat4 F) (obs_img_depth : option (image F))
        (s : world) :
  unrecognized self ->
  iter self <> 0 ->
  exists noised s1 ev1 cam s2,
    apply_noise self (change_brightness self (normalize obs_img)) s
    = (Val noised, s1, ev1) /\
    new_camera_transf s1 = (Val cam, s2, [Initialised cam]) /\
    estimate_pose self start_pose obs_img obs_img_pose obs_img_depth s
    = (Returned None, s2,
       ev1 ++ [Initialised cam; Printed "Unknown sampling strategy" []]) /\
    pose_prior s2 = pose_prior s.
Proof.
  intros Hself Hiter.
  destruct (apply_noise_runs self (change_brightness self (normalize obs_img)) s)
    as [noised [s1 [ev1 [Hnoise Hp1]]]].
  destruct (new_camera_transf_runs s1) as [cam [s2 [Hcam Hp2]]].
  exists noised, s1, ev1, cam, s2.
  split; [assumption |]. split; [assumption |]. split; [| congruence].
  unfold estimate_pose, estimate_pose_body. cbv zeta.
  rewrite (bind_run _ _ _ _ _ _ Hnoise).
  destruct Hself as [H1 [H2 H3]]. rewrite H2, H3. cbn [orb].
  rewrite !bind_ret_l, (bind_run _ _ _ _ _ _ Hcam).
  destruct (iter self) as [| n]; [now elim Hiter |].
  cbn [seq for_each]. rewrite bind_assoc.
  rewrite (bind_run_returned _ _ _ _ _ _
             (iteration_unknown_runs self _ _ _ _ _ _ _ _ _ s2
                                     (conj H1 (conj H2 H3)))).
  reflexivity.
Qed.

(** The amended statement on a call with the strategy "unknown". *)
Lemma unknown_strategy_returns_none_witness :
  let E := stub (F := R) [] in
  let self :=
    stub_estimator 1 1 "unknown" (flat_renderer 1 1 0%R 0%R) None 0%R in
  let obs_img := flat_image 1 1 (Byte.x00, Byte.x00, Byte.x00) in
  exists noised s1 ev1 cam s2,
    apply_noise self (change_brightness self (normalize obs_img))
                (stub_world [] 0)
    = (Val noised, s1, ev1) /\
    new_camera_transf s1 = (Val cam, s2, [Initialised cam]) /\
    estimate_pose self eye4 obs_img eye4 (Some (flat_image 1 1 0%R))
                  (stub_world [] 0)
    = (Returned None, s2,
       ev1 ++ [Initialised cam; Printed "Unknown sampling strategy" []]) /\
    pose_prior s2 = pose_prior (stub_world [] 0).
Proof.
  intros E self obs_img.
  apply (unknown_strategy_returns_none R Scalar_R E).
  - repeat split.
  - discriminate.
Defined.

(** C1 as stated fails: with the strategy "unknown", Gaussian noise and
    one iteration the call raises nothing and returns None, after the
    noise and the initial twist were drawn from the generators. *)
Lemma unknown_strategy_no_error :
  let run :=
    estimate_pose
      (stub_estimator 1 1 "unknown" (flat_renderer 1 1 0%R 0%R)
                      (Some "gaussian"%string) 0%R)
      eye4 (flat_image 1 1 (Byte.x00, Byte.x00, Byte.x00)) eye4
      (Some (flat_image 1 1 0%R)) (stub_world [] 0) in
  fst (fst run) = Returned None /\
  (forall e, fst (fst run) <> Raised e) /\
  rng (snd (fst run)) = 8 /\
  hd_error (snd run) = Some (Noised "gaussian").
Proof.
  cbv zeta.
  assert (Hrun : exists cam,
    estimate_pose
      (stub_estimator 1 1 "unknown" (flat_renderer 1 1 0%R 0%R)
                      (Some "gaussian"%string) 0%R)
      eye4 (flat_image 1 1 (Byte.x00, Byte.x00, Byte.x00)) eye4
      (Some (flat_image 1 1 0%R)) (stub_world [] 0)
    = (Returned None, @Build_world R (stub []) 8 1 None,
       [Noised "gaussian"; Initialised cam;
        Printed "Unknown sampling strategy" []])).
  { eexists. vm_compute. reflexivity. }
  destruct Hrun as [cam Hrun]. rewrite Hrun. cbn.
  repeat split. discriminate.
Qed.

(* ----------------------------------------------------------------- *)
(** ** An empty set of interest points *)

Lemma find_POI_empty {F} (E : Externals F)
      (img : image (Byte.byte * Byte.byte * Byte.byte)) :
  set_iter_spec E -> sift_keypoints img = [] -> find_POI img = Empty1D.
Proof.
  intros Hset Hkps. unfold find_POI. rewrite Hkps.
  destruct (set_iter []) as [| p l] eqn:Hl; [reflexivity |].
  exfalso. apply (proj2 (set_iter_points E [] Hset) p).
  rewrite Hl. now left.
Qed.

Section EmptyPOI.
Context {F : Type} {SF : Scalar F} {E : Externals F}.

Lemma resample_empty_POI (self : Estimator F) (grid : coord_array)
      (not_POI regions : option coord_array) (s : world) :
  strategy_is self "interest_points" = true ->
  (batch_size self <> 0 ->
   resample self grid (Some Empty1D) not_POI regions s
   = (Raised ValueError, s, [])) /\
  (batch_size self = 0 ->
   exists s', resample self grid (Some Empty1D) not_POI regions s
              = (Val Empty1D, s', []) /\
              pose_prior s' = pose_prior s).
Proof.
  intros Hs. unfold resample.
  rewrite (strategy_is_other self "interest_points" "random" Hs)
    by discriminate.
  rewrite Hs. cbn [need]. rewrite bind_ret_l. cbn [shape0].
  split; intros Hb.
  - destruct (batch_size self) as [| n]; [now elim Hb |]. reflexivity.
  - rewrite Hb. cbn [Nat.leb]. unfold np_random_choice. cbn [Nat.leb].
    unfold bind, draw, ret.
    destruct (np_random_permutation 0 (rng s)) as [perm g]. cbn.
    eexists. split; reflexivity.
Qed.

Lemma iteration_empty_POI (self : Estimator F) (start_pose : mat4 F)
      (obs_img_noised : image (F * F * F)) (obs_img_depth : option (image F))
      (grid : coord_array) (not_POI regions : option coord_array)
      (refs : F * F * F * F) (st : locals) (s : world) :
  strategy_is self "interest_points" = true ->
  exists s' ev,
    iteration self start_pose obs_img_noised obs_img_depth grid
              (Some Empty1D) not_POI regions refs 0 st s
    = (Raised (if Nat.eqb (batch_size self) 0
               then IndexError else ValueError), s', ev) /\
    pose_prior s' = pose_prior s.
Proof.
  intros Hs. unfold iteration.
  change (Nat.eqb (0 mod Globals.N) 0) with true. cbv iota.
  destruct (resample_empty_POI self grid not_POI regions s Hs)
    as [Hpos Hzero].
  destruct (Nat.eqb_spec (batch_size self) 0) as [Hb | Hb].
  - destruct (Hzero Hb) as [s' [Hrun Hp]].
    rewrite bind_assoc, (bind_run _ _ _ _ _ _ Hrun).
    exists s', [Sampled 0 Empty1D]. split; [reflexivity | assumption].
  - rewrite bind_assoc, (bind_run_raise _ _ _ _ _ _ (Hpos Hb)).
    exists s, []. split; reflexivity.
Qed.

End EmptyPOI.

(** C2 (as amended). When the detector finds no interest point, the call
    raises no configuration error and fails in the array code.  Under
    interest_regions it fails with an IndexError where the mask is
    indexed with the columns of the empty POI array, after the noise and
    before the twist is drawn.  Under interest_points with at least one
    iteration it fails in the first iteration: with a ValueError where
    the empty POI array is assigned into the batch, or, with a batch size
    of 0, with an IndexError where the columns of the empty batch are
    taken.  No pose prior is cached. *)
Theorem empty_POI_fails_in_indexing
        (F : Type) (SF : Scalar F) (E : Externals F) (self : Estimator F)
        (start_pose : mat4 F)
        (obs_img : image (Byte.byte * Byte.byte * Byte.byte))
        (obs_img_pose : mat4 F) (obs_img_depth : option (image F))
        (s : world) :
  find_POI (detector_input self obs_img s) = Empty1D ->
  (strategy_is self "interest_regions" = true ->
   exists noised s1 ev1,
     apply_noise self (change_brightness self (normalize obs_img)) s
     = (Val noised, s1, ev1) /\
     estimate_pose self start_pose obs_img obs_img_pose obs_img_depth s
     = (Raised IndexError, s1, ev1) /\
     pose_prior s1 = pose_prior s) /\
  (strategy_is self "interest_points" = true -> iter self <> 0 ->
   exists s' ev,
     estimate_pose self start_pose obs_img obs_img_pose obs_img_depth s
     = (Raised (if Nat.eqb (batch_size self) 0
                then IndexError else ValueError), s', ev) /\
     pose_prior s' = pose_prior s).
Proof.
  intros HPOI.
  destruct (apply_noise_runs self (change_brightness self (normalize obs_img)) s)
    as [noised [s1 [ev1 [Hnoise Hp1]]]].
  unfold detector_input in HPOI. rewrite Hnoise in HPOI.
  split.
  - intros Hreg. exists noised, s1, ev1.
    split; [assumption |]. split; [| assumption].
    unfold estimate_pose, estimate_pose_body. cbv zeta.
    rewrite (bind_run _ _ _ _ _ _ Hnoise).
    rewrite Hreg, HPOI. cbn [orb need].
    rewrite bind_assoc, bind_ret_l, bind_assoc.
    rewrite (bind_run_raise _ _ _ _ _ _
               (interest_region_coords_empty self s1)).
    cbn. now rewrite app_nil_r.
  - intros Hpts Hiter.
    unfold estimate_pose, estimate_pose_body. cbv zeta.
    rewrite (bind_run _ _ _ _ _ _ Hnoise).
    rewrite (strategy_is_other self "interest_points" "interest_regions" Hpts)
      by discriminate.
    rewrite Hpts, HPOI. cbn [orb need].
    rewrite bind_ret_l, bind_assoc, !bind_ret_l.
    destruct (new_camera_transf_runs s1) as [cam [s2 [Hcam Hp2]]].
    rewrite (bind_run _ _ _ _ _ _ Hcam).
    destruct (iter self) as [| n]; [now elim Hiter |].
    cbn [seq for_each]. rewrite bind_assoc.
    match goal with
    | |- context [iteration self ?a ?b ?c ?d (Some Empty1D) ?n ?r ?f 0 ?st] =>
        destruct (iteration_empty_POI self a b c d n r f st s2 Hpts)
          as [s' [ev [Hrun Hp']]]
    end.
    rewrite (bind_run_raise _ _ _ _ _ _ Hrun). cbn.
    eexists _, _. split; [reflexivity | congruence].
Qed.

(** The amended statement on a call with the strategy interest_regions
    and a detector without keypoints. *)
Lemma empty_POI_fails_in_indexing_witness :
  let E := stub (F := R) [] in
  let self :=
    stub_estimator 1 1 "interest_regions" (flat_renderer 1 1 0%R 0%R)
                   None 0%R in
  let obs_img := flat_image 1 1 (Byte.x00, Byte.x00, Byte.x00) in
  exists noised s1 ev1,
    apply_noise self (change_brightness self (normalize obs_img))
                (stub_world [] 0)
    = (Val noised, s1, ev1) /\
    estimate_pose self eye4 obs_img eye4 (Some (flat_image 1 1 0%R))
                  (stub_world [] 0)
    = (Raised IndexError, s1, ev1) /\
    pose_prior s1 = pose_prior (stub_world [] 0).
Proof.
  intros E self obs_img.
  apply (empty_POI_fails_in_indexing R Scalar_R E self eye4 obs_img eye4
           (Some (flat_image 1 1 0%R)) (stub_world [] 0)).
  - reflexivity.
  - reflexivity.
Defined.

(** C2 as stated fails: with a detector that finds no keypoint the call
    raises the errors of the array code, an IndexError under
    interest_regions and a ValueError under interest_points. *)
Lemma empty_POI_array_errors :
  let E := stub (F := R) [] in
  let call (strategy : string) :=
    estimate_pose
      (stub_estimator 1 1 strategy (flat_renderer 1 1 0%R 0%R) None 0%R)
      eye4 (flat_image 1 1 (Byte.x00, Byte.x00, Byte.x00)) eye4
      (Some (flat_image 1 1 0%R)) (stub_world [] 0) in
  find_POI [] = Empty1D /\
  fst (fst (call "interest_regions"%string)) = Raised IndexError /\
  fst (fst (call "interest_points"%string)) = Raised ValueError.
Proof.
  cbv zeta. split; [reflexivity |]. split; vm_compute; reflexivity.
Qed.

(* ----------------------------------------------------------------- *)
(** ** Determinism *)

Section Determinism.
Context {F : Type} {SF : Scalar F} {E : Externals F}.

















Lemma apply_noise_noiseless (self : Estimator F) (img : image (F * F * F)) :
  noiseless self -> apply_noise self img = ret img.
Proof.
  intros [H1 [H2 [H3 [H4 H5]]]]. unfold apply_noise.
  now rewrite H1, H2, H3, H4, H5.
Qed.


End Determinism.






(* ----------------------------------------------------------------- *)
(** ** The steps of the optimizer *)

Lemma steps_app {F} (ev1 ev2 : list (event F)) :
  steps (ev1 ++ ev2) = steps ev1 ++ steps ev2.
Proof.
  induction ev1 as [| e ev1 IH]; [reflexivity |].
  destruct e; cbn; now rewrite ?IH.
Qed.

Lemma renders_app {F} (ev1 ev2 : list (event F)) :
  renders (ev1 ++ ev2) = renders ev1 ++ renders ev2.
Proof.
  induction ev1 as [| e ev1 IH]; [reflexivity |].
  destruct e; cbn; now rewrite ?IH.
Qed.

Lemma last_default {A} (l : list A) (d d' : A) :
  l <> [] -> last l d = last l d'.
Proof.
  induction l as [| a l IH]; [congruence |]. intros _.
  destruct l as [| b l]; [reflexivity |]. cbn in *. apply IH. discriminate.
Qed.

Lemma last_cons_default {A} (a : A) (l : list A) (d : A) :
  last (a :: l) d = last l a.
Proof.
  destruct l as [| b l]; [reflexivity |].
  change (last (a :: b :: l) d) with (last (b :: l) d).
  apply last_default. discriminate.
Qed.

Section Outcome.
Context {F : Type} {SF : Scalar F} {E : Externals F}.

Lemma quiet_ret {A} (a : A) : quiet (ret a).
Proof. intros s. cbn. repeat split. discriminate. Qed.

Lemma quiet_raise {A} (e : exn) : quiet (raise (A := A) e).
Proof. intros s. cbn. repeat split. discriminate. Qed.

Lemma quiet_py_return_None {A} : quiet (py_return (A := A) None).
Proof. intros s. cbn. repeat split. now intros ? [= <-]. Qed.

Lemma quiet_emit (e : event F) :
  steps [e] = [] -> renders [e] = [] -> quiet (emit e).
Proof. intros Hs Hr s. cbn - [steps renders]. repeat split; auto. discriminate. Qed.

Lemma quiet_print (text : string) (values : list F) :
  quiet (print text values).
Proof. now apply quiet_emit. Qed.

Lemma quiet_draw {A} (f : RNG -> A * RNG) : quiet (draw f).
Proof.
  intros s. unfold draw. destruct (f (rng s)). cbn. repeat split.
  discriminate.
Qed.

Lemma quiet_draw_unseeded {A} (f : RNG -> Entropy -> A * RNG * Entropy) :
  quiet (draw_unseeded f).
Proof.
  intros s. unfold draw_unseeded. destruct (f (rng s) (entropy s)) as [[a g] e].
  cbn. repeat split. discriminate.
Qed.

Lemma quiet_torch_try {A} (o : option A) : quiet (torch_try o).
Proof. destruct o; [apply quiet_ret | apply quiet_raise]. Qed.

Lemma quiet_need {A} (o : option A) : quiet (need o).
Proof. destruct o; [apply quiet_ret | apply quiet_raise]. Qed.

Lemma quiet_index {A} (o : option A) : quiet (index o).
Proof. destruct o; [apply quiet_ret | apply quiet_raise]. Qed.

Lemma quiet_bind {A B} (m : M A) (f : A -> M B) :
  quiet m -> (forall a, quiet (f a)) -> quiet (bind m f).
Proof.
  intros Hm Hf s. unfold bind. destruct (Hm s) as [Hs [Hr Hv]].
  destruct (m s) as [[[a | value | e] s'] ev]; cbn in *.
  - destruct (Hf a s') as [Hs' [Hr' Hv']].
    destruct (f a s') as [[r' s''] ev']; cbn in *.
    rewrite steps_app, renders_app, Hs, Hr, Hs', Hr'.
    repeat split; auto.
  - split; [assumption | split; [assumption |]].
    intros v [= <-]. now apply Hv.
  - split; [assumption | split; [assumption | discriminate]].
Qed.

Ltac quiet_step :=
  first
    [ apply quiet_ret | apply quiet_raise | apply quiet_py_return_None
    | apply quiet_print | apply quiet_draw | apply quiet_draw_unseeded
    | apply quiet_need | apply quiet_index | apply quiet_torch_try
    | apply quiet_emit; reflexivity
    | apply quiet_bind; [| intros ?]
    | match goal with
      | |- quiet (if ?c then _ else _) => destruct c
      | |- quiet (match ?o with Some _ => _ | None => _ end) => destruct o
      | |- quiet (match ?a with Empty1D => _ | Rows _ => _ end) => destruct a
      | |- quiet (match ?l with [] => _ | _ :: _ => _ end) => destruct l
      end ].

Lemma quiet_resample (self : Estimator F) (grid : coord_array)
      (POI not_POI regions : option coord_array) :
  quiet (resample self grid POI not_POI regions).
Proof.
  unfold resample, np_random_choice, take, assign_rows.
  repeat quiet_step.
Qed.

Lemma quiet_gather {A} (img : image A) (b : coord_array) :
  quiet (gather img b).
Proof. unfold gather, columns. repeat quiet_step. Qed.

Lemma quiet_report (k : nat) (loss : F) (refs : F * F * F * F)
      (pose : mat4 F) :
  quiet (report k loss refs pose).
Proof.
  unfold report.
  destruct refs as [[[phi_ref theta_ref] psi_ref] t_ref].
  destruct (pose_angles pose) as [[[phi theta] psi] t].
  repeat quiet_step.
Qed.

Lemma quiet_preamble_noise (self : Estimator F) (img : image (F * F * F)) :
  quiet (apply_noise self img).
Proof. unfold apply_noise, noised. repeat quiet_step. Qed.

Lemma quiet_interest_region_coords (self : Estimator F) (POI : coord_array) :
  quiet (interest_region_coords self POI).
Proof. unfold interest_region_coords, columns. repeat quiet_step. Qed.

Lemma quiet_new_camera_transf : quiet new_camera_transf.
Proof. unfold new_camera_transf. repeat quiet_step. Qed.

(** A quiet statement in front leaves the outcome to what follows. *)
Lemma outcome_quiet_bind {A B} (m : M A) (f : A -> M B)
      (Phi : res B -> world -> list (nat * F) -> list (nat * mat4 F) ->
             Prop) :
  quiet m ->
  (forall a, outcome (f a) Phi) ->
  (forall e s, Phi (Raised e) s [] []) ->
  (forall s, Phi (Returned None) s [] []) ->
  outcome (bind m f) Phi.
Proof.
  intros Hm Hf Hraise Hnone s. unfold bind.
  destruct (Hm s) as [Hs [Hr Hv]].
  destruct (m s) as [[[a | value | e] s'] ev]; cbn in *.
  - specialize (Hf a s').
    destruct (f a s') as [[r' s''] ev']; cbn in *.
    now rewrite steps_app, renders_app, Hs, Hr.
  - assert (Hval : value = None) by now apply Hv.
    subst value. rewrite Hs, Hr. apply Hnone.
  - rewrite Hs, Hr. apply Hraise.
Qed.

Lemma bind_emit_run {B} (e : event F) (f : unit -> M B) (s : world) :
  bind (emit e) f s = (let '(r, s', ev) := f tt s in (r, s', e :: ev)).
Proof. reflexivity. Qed.

Lemma bind_torch_try_run {A B} (o : option A) (f : A -> M B) (s : world) :
  bind (torch_try o) f s
  = match o with
    | Some a => f a s
    | None => (Raised RuntimeError, s, [])
    end.
Proof.
  destruct o as [a |]; [| reflexivity].
  unfold torch_try, bind, ret. destruct (f a s) as [[r s'] ev]. reflexivity.
Qed.

Lemma bind_then_ret_cases {A B} (m : M A) (b : B) (s : world) :
  quiet m ->
  steps (snd (bind m (fun _ => ret b) s)) = [] /\
  renders (snd (bind m (fun _ => ret b) s)) = [] /\
  match fst (fst (bind m (fun _ => ret b) s)) with
  | Val b' => b' = b
  | Returned value => value = None
  | Raised _ => True
  end.
Proof.
  intros Hm. destruct (Hm s) as [Hs [Hr Hv]]. unfold bind, ret.
  destruct (m s) as [[[a | value | e] s'] ev]; cbn in *.
  - now rewrite app_nil_r.
  - repeat split; auto.
  - repeat split; auto.
Qed.

Lemma outcome_iteration (self : Estimator F) (start_pose : mat4 F)
      (obs_img_noised : image (F * F * F)) (obs_img_depth : option (image F))
      (grid : coord_array) (POI not_POI regions : option coord_array)
      (refs : F * F * F * F) (k : nat) (st : locals) :
  outcome (iteration self start_pose obs_img_noised obs_img_depth grid
                     POI not_POI regions refs k st)
          (iteration_outcome k).
Proof.
  unfold iteration.
  apply outcome_quiet_bind; [| | now cbn | now cbn].
  { destruct (Nat.eqb _ _); [| apply quiet_need].
    apply quiet_bind; [apply quiet_resample | intros b].
    repeat quiet_step. }
  intros b.
  apply outcome_quiet_bind; [apply quiet_gather | | now cbn | now cbn].
  intros target_s.
  apply outcome_quiet_bind; [now apply quiet_emit | | now cbn | now cbn].
  intros _.
  apply outcome_quiet_bind; [| | now cbn | now cbn].
  { destruct obs_img_depth; repeat quiet_step. }
  intros depth_img.
  apply outcome_quiet_bind; [apply quiet_gather | | now cbn | now cbn].
  intros depth_s s.
  rewrite bind_emit_run, bind_torch_try_run.
  match goal with
  | |- context [match ?o with Some _ => _ | None => (Raised _, _, _) end] =>
      destruct o as [loss |]; [| exact I]
  end.
  rewrite bind_torch_try_run.
  match goal with
  | |- context [match ?o with Some _ => _ | None => (Raised _, _, _) end] =>
      destruct o as [grad |]; [| exact I]
  end.
  match goal with
  | |- context [adam_step ?a ?b ?c ?d] =>
      destruct (adam_step a b c d) as [moments' cam']
  end.
  rewrite bind_emit_run.
  match goal with
  | |- context [bind ?m (fun _ => ret ?x) s] =>
      assert (Hq : quiet m)
        by (destruct (report_due k); [apply quiet_report | apply quiet_ret]);
      destruct (bind_then_ret_cases m x s Hq) as [Hs [Hr Hres]];
      destruct (bind m (fun _ => ret x) s) as [[r s'] ev]
  end.
  cbn [fst snd steps renders] in *. rewrite Hs, Hr.
  destruct r as [l' | value | e]; cbn.
  - subst l'. split; [reflexivity |]. eexists. split; reflexivity.
  - assumption.
  - exact I.
Qed.

Lemma outcome_for_each (body : nat -> locals -> M locals) (ks : list nat)
      (st : locals) :
  (forall k st, outcome (body k st) (iteration_outcome k)) ->
  outcome (for_each ks body st) (loop_outcome ks (pose st)).
Proof.
  intros Hbody. revert st.
  induction ks as [| k ks IH]; intros st s; cbn [for_each].
  - cbn. auto.
  - unfold bind. specialize (Hbody k st s).
    destruct (body k st s) as [[[st1 | value | e] s1] ev1]; cbn in *.
    + destruct Hbody as [Hs1 [p [Hp Hr1]]].
      specialize (IH st1 s1).
      destruct (for_each ks body st1 s1) as [[[st2 | value | e] s2] ev2];
        cbn in *.
      * destruct IH as [Hs2 [Hr2 Hlast]].
        rewrite steps_app, renders_app, !map_app, Hs1, Hs2, Hr1, Hr2.
        cbn [app map fst snd]. repeat split.
        rewrite last_cons_default, Hlast, Hp. reflexivity.
      * exact IH.
      * exact I.
    + exact Hbody.
    + exact I.
Qed.

Lemma outcome_estimate_pose_body (self : Estimator F) (start_pose : mat4 F)
      (obs_img : image (Byte.byte * Byte.byte * Byte.byte))
      (obs_img_pose : mat4 F) (obs_img_depth : option (image F)) :
  outcome (estimate_pose_body self start_pose obs_img obs_img_pose
                              obs_img_depth)
          (call_outcome (iter self)).
Proof.
  assert (Hraise : forall e s,
             call_outcome (A := unit) (iter self) (Raised e) s [] [])
    by (intros e s p Hp; discriminate).
  assert (Hnone : forall s,
             call_outcome (A := unit) (iter self) (Returned None) s [] [])
    by (intros s p Hp; discriminate).
  unfold estimate_pose_body. cbv zeta.
  apply outcome_quiet_bind; [apply quiet_preamble_noise | | easy | easy].
  intros obs_img_noised.
  apply outcome_quiet_bind; [| | easy | easy].
  { destruct (strategy_is self "interest_regions"); [| apply quiet_ret].
    apply quiet_bind; [apply quiet_need | intros POI].
    apply quiet_bind; [apply quiet_interest_region_coords |].
    intros r. apply quiet_ret. }
  intros regions.
  apply outcome_quiet_bind; [| | easy | easy].
  { destruct (strategy_is self "interest_points"); [| apply quiet_ret].
    apply quiet_bind; [apply quiet_need | intros POI; apply quiet_ret]. }
  intros not_POI.
  apply outcome_quiet_bind; [apply quiet_new_camera_transf | | easy | easy].
  intros cam s. unfold outcome in *.
  match goal with
  | |- context [bind (for_each ?ks ?body ?st0) ?f s] =>
      pose proof (outcome_for_each body ks st0
                    (fun k l => outcome_iteration self _ _ _ _ _ _ _ _ k l)
                    s) as Hloop;
      destruct (for_each ks body st0 s) as [[[st' | value | e] s'] ev]
               eqn:Hrun
  end; cbn in Hloop.
  - rewrite (bind_run _ _ _ _ _ _ Hrun).
    destruct Hloop as [Hs [Hr Hlast]].
    destruct (pose st') as [p |] eqn:Hp; cbn.
    + intros q [= <-]. rewrite !app_nil_r. auto.
    + intros q Hq. discriminate.
  - rewrite (bind_run_returned _ _ _ _ _ _ Hrun). cbn. subst value.
    intros q Hq. discriminate.
  - rewrite (bind_run_raise _ _ _ _ _ _ Hrun). cbn.
    intros q Hq. discriminate.
Qed.

End Outcome.

(* ----------------------------------------------------------------- *)
(** ** The printed lines *)

Lemma texts_app {F} (ev1 ev2 : list (event F)) :
  texts (ev1 ++ ev2) = texts ev1 ++ texts ev2.
Proof.
  induction ev1 as [| e ev1 IH]; [reflexivity |].
  destruct e; cbn; now rewrite ?IH.
Qed.

Section Prints.
Context {F : Type} {SF : Scalar F} {E : Externals F}.

Lemma hushed_ret {A} (a : A) : hushed (ret a).
Proof. intros s. cbn. split; [reflexivity | discriminate]. Qed.

Lemma hushed_raise {A} (e : exn) : hushed (raise (A := A) e).
Proof. intros s. cbn. split; discriminate. Qed.

Lemma hushed_py_return_None {A} : hushed (py_return (A := A) None).
Proof. intros s. cbn. split; [discriminate | now intros ? [= <-]]. Qed.

Lemma hushed_emit (e : event F) : texts [e] = [] -> hushed (emit e).
Proof. intros He s. cbn - [texts]. split; [auto | discriminate]. Qed.

Lemma hushed_draw {A} (f : RNG -> A * RNG) : hushed (draw f).
Proof.
  intros s. unfold draw. destruct (f (rng s)). cbn.
  split; [reflexivity | discriminate].
Qed.

Lemma hushed_draw_unseeded {A} (f : RNG -> Entropy -> A * RNG * Entropy) :
  hushed (draw_unseeded f).
Proof.
  intros s. unfold draw_unseeded.
  destruct (f (rng s) (entropy s)) as [[a g] e]. cbn.
  split; [reflexivity | discriminate].
Qed.

Lemma hushed_need {A} (o : option A) : hushed (need o).
Proof. destruct o; [apply hushed_ret | apply hushed_raise]. Qed.

Lemma hushed_index {A} (o : option A) : hushed (index o).
Proof. destruct o; [apply hushed_ret | apply hushed_raise]. Qed.

Lemma hushed_torch_try {A} (o : option A) : hushed (torch_try o).
Proof. destruct o; [apply hushed_ret | apply hushed_raise]. Qed.

Lemma hushed_set_pose_prior (p : mat4 F) : hushed (set_pose_prior p).
Proof. intros s. cbn. split; [reflexivity | discriminate]. Qed.

Lemma hushed_bind {A B} (m : M A) (f : A -> M B) :
  hushed m -> (forall a, hushed (f a)) -> hushed (bind m f).
Proof.
  intros Hm Hf s. unfold bind. destruct (Hm s) as [Hv Hr].
  destruct (m s) as [[[a | value | e] s'] ev]; cbn in *.
  - destruct (Hf a s') as [Hv' Hr'].
    destruct (f a s') as [[r' s''] ev']; cbn in *.
    split; [| exact Hr'].
    intros b Hb. now rewrite texts_app, (Hv a eq_refl), (Hv' b Hb).
  - split; [discriminate |]. intros v [= <-]. now apply Hr.
  - split; discriminate.
Qed.

(** The unknown strategy prints its line and makes the function return
    None: it does not complete. *)
Lemma hushed_unknown {A} (text : string) :
  hushed (bind (print text []) (fun _ => py_return (A := A) None)).
Proof. intros s. cbn. split; [discriminate | now intros ? [= <-]]. Qed.

Ltac hushed_step :=
  first
    [ apply hushed_ret | apply hushed_raise | apply hushed_py_return_None
    | apply hushed_unknown
    | apply hushed_draw | apply hushed_draw_unseeded
    | apply hushed_need | apply hushed_index | apply hushed_torch_try
    | apply hushed_set_pose_prior
    | apply hushed_emit; reflexivity
    | apply hushed_bind; [| intros ?]
    | match goal with
      | |- hushed (if ?c then _ else _) => destruct c
      | |- hushed (match ?o with Some _ => _ | None => _ end) => destruct o
      | |- hushed (match ?a with Empty1D => _ | Rows _ => _ end) =>
          destruct a
      | |- hushed (match ?l with [] => _ | _ :: _ => _ end) => destruct l
      end ].

Lemma hushed_resample (self : Estimator F) (grid : coord_array)
      (POI not_POI regions : option coord_array) :
  hushed (resample self grid POI not_POI regions).
Proof.
  unfold resample, np_random_choice, take, assign_rows.
  repeat hushed_step.
Qed.

Lemma hushed_gather {A} (img : image A) (b : coord_array) :
  hushed (gather img b).
Proof. unfold gather, columns. repeat hushed_step. Qed.

Lemma hushed_apply_noise (self : Estimator F) (img : image (F * F * F)) :
  hushed (apply_noise self img).
Proof. unfold apply_noise, noised. repeat hushed_step. Qed.

Lemma hushed_interest_region_coords (self : Estimator F)
      (POI : coord_array) :
  hushed (interest_region_coords self POI).
Proof. unfold interest_region_coords, columns. repeat hushed_step. Qed.

Lemma hushed_new_camera_transf : hushed new_camera_transf.
Proof. unfold new_camera_transf. repeat hushed_step. Qed.

(** A hushed statement in front leaves the printed lines to what
    follows. *)
Lemma printing_hushed_bind {A B} (m : M A) (f : A -> M B)
      (Phi : res B -> list string -> Prop) :
  hushed m ->
  (forall a, printing (f a) Phi) ->
  (forall e lines, Phi (Raised e) lines) ->
  (forall lines, Phi (Returned None) lines) ->
  printing (bind m f) Phi.
Proof.
  intros Hm Hf Hraise Hnone s. unfold bind.
  destruct (Hm s) as [Hv Hr].
  destruct (m s) as [[[a | value | e] s'] ev]; cbn in *.
  - specialize (Hf a s').
    destruct (f a s') as [[r' s''] ev']; cbn in *.
    now rewrite texts_app, (Hv a eq_refl).
  - rewrite (Hr value eq_refl). apply Hnone.
  - apply Hraise.
Qed.

Lemma report_run (k : nat) (loss : F) (refs : F * F * F * F)
      (pose : mat4 F) (s : world) :
  exists ev,
    report k loss refs pose s = (Val tt, s, ev) /\ texts ev = report_labels.
Proof.
  unfold report.
  destruct refs as [[[phi_ref theta_ref] psi_ref] t_ref].
  destruct (pose_angles pose) as [[[phi theta] psi] t].
  eexists. split; reflexivity.
Qed.

Lemma printing_iteration (self : Estimator F) (start_pose : mat4 F)
      (obs_img_noised : image (F * F * F)) (obs_img_depth : option (image F))
      (grid : coord_array) (POI not_POI regions : option coord_array)
      (refs : F * F * F * F) (k : nat) (st : locals) :
  printing (iteration self start_pose obs_img_noised obs_img_depth grid
                      POI not_POI regions refs k st)
           (prints_of (if report_due k then report_labels else [])).
Proof.
  unfold iteration.
  apply printing_hushed_bind; [| | now cbn | now cbn].
  { destruct (Nat.eqb _ _); [| apply hushed_need].
    apply hushed_bind; [apply hushed_resample | intros b].
    repeat hushed_step. }
  intros b.
  apply printing_hushed_bind; [apply hushed_gather | | now cbn | now cbn].
  intros target_s.
  apply printing_hushed_bind; [now apply hushed_emit | | now cbn | now cbn].
  intros _.
  apply printing_hushed_bind; [| | now cbn | now cbn].
  { destruct obs_img_depth; repeat hushed_step. }
  intros depth_img.
  apply printing_hushed_bind; [apply hushed_gather | | now cbn | now cbn].
  intros depth_s.
  apply printing_hushed_bind; [now apply hushed_emit | | now cbn | now cbn].
  intros _.
  apply printing_hushed_bind;
    [apply hushed_torch_try | | now cbn | now cbn].
  intros loss.
  apply printing_hushed_bind;
    [apply hushed_torch_try | | now cbn | now cbn].
  intros grad s.
  match goal with
  | |- context [adam_step ?a ?b ?c ?d] =>
      destruct (adam_step a b c d) as [moments' cam']
  end.
  rewrite bind_emit_run.
  destruct (report_due k).
  - match goal with
    | |- context [report ?a ?b ?c ?d] =>
        destruct (report_run a b c d s) as [ev [Hrun Hev]]
    end.
    rewrite (bind_run _ _ _ _ _ _ Hrun). cbn - [texts].
    change (texts (Stepped k loss :: ev ++ [])) with (texts (ev ++ [])).
    now rewrite app_nil_r.
  - reflexivity.
Qed.

Lemma printing_for_each {S} (body : nat -> S -> M S) (ks : list nat)
      (st : S) :
  (forall k st,
      printing (body k st)
               (prints_of (if report_due k then report_labels else []))) ->
  printing (for_each ks body st) (prints_of (report_lines ks)).
Proof.
  intros Hbody. revert st.
  induction ks as [| k ks IH]; intros st s; cbn [for_each].
  - reflexivity.
  - unfold bind. specialize (Hbody k st s).
    destruct (body k st s) as [[[st1 | value | e] s1] ev1]; cbn in *.
    + specialize (IH st1 s1).
      destruct (for_each ks body st1 s1) as [[[st2 | value | e] s2] ev2];
        cbn in *.
      * now rewrite texts_app, Hbody, IH.
      * exact IH.
      * exact I.
    + exact Hbody.
    + exact I.
Qed.

Lemma printing_estimate_pose_body (self : Estimator F) (start_pose : mat4 F)
      (obs_img : image (Byte.byte * Byte.byte * Byte.byte))
      (obs_img_pose : mat4 F) (obs_img_depth : option (image F)) :
  printing (estimate_pose_body self start_pose obs_img obs_img_pose
                               obs_img_depth)
           (fun r lines =>
              forall p, r = Returned (Some p) ->
                        lines = report_lines (seq 0 (iter self))).
Proof.
  assert (Hraise : forall (e : exn) (lines : list string) (p : mat4 F),
             @Raised F unit e = Returned (Some p) ->
             lines = report_lines (seq 0 (iter self)))
    by (intros e lines p Hp; discriminate).
  assert (Hnone : forall (lines : list string) (p : mat4 F),
             @Returned F unit None = Returned (Some p) ->
             lines = report_lines (seq 0 (iter self)))
    by (intros lines p Hp; discriminate).
  unfold estimate_pose_body. cbv zeta.
  apply printing_hushed_bind; [apply hushed_apply_noise | | easy | easy].
  intros obs_img_noised.
  apply printing_hushed_bind; [| | easy | easy].
  { destruct (strategy_is self "interest_regions"); [| apply hushed_ret].
    apply hushed_bind; [apply hushed_need | intros POI].
    apply hushed_bind; [apply hushed_interest_region_coords |].
    intros r. apply hushed_ret. }
  intros regions.
  apply printing_hushed_bind; [| | easy | easy].
  { destruct (strategy_is self "interest_points"); [| apply hushed_ret].
    apply hushed_bind; [apply hushed_need | intros POI; apply hushed_ret]. }
  intros not_POI.
  apply printing_hushed_bind; [apply hushed_new_camera_transf | | easy | easy].
  intros cam s. unfold printing in *.
  match goal with
  | |- context [bind (for_each ?ks ?body ?st0) ?f s] =>
      pose proof (printing_for_each body ks st0
                    (fun k l => printing_iteration self _ _ _ _ _ _ _ _ k l)
                    s) as Hloop;
      destruct (for_each ks body st0 s) as [[[st' | value | e] s'] ev]
               eqn:Hrun
  end; cbn in Hloop.
  - rewrite (bind_run _ _ _ _ _ _ Hrun).
    destruct (pose st') as [p |] eqn:Hp; cbn.
    + intros q _. now rewrite !app_nil_r.
    + intros q Hq. discriminate.
  - rewrite (bind_run_returned _ _ _ _ _ _ Hrun). cbn. subst value.
    intros q Hq. discriminate.
  - rewrite (bind_run_raise _ _ _ _ _ _ Hrun). cbn.
    intros q Hq. discriminate.
Qed.

End Prints.

(** C3 (as amended). No iteration of [estimate_pose] checks its loss: a
    call that returns a pose has queried the renderer and stepped the
    optimizer once in each of its iterations 0 .. N_iter - 1, whatever
    the losses were, and it returns and caches the pose of the last
    query.  It gives no warning: the lines it has printed are the five
    lines of the diagnostics, for the iteration 0 and every twentieth
    one, and no other line. *)
Theorem loss_is_never_checked
        (F : Type) (SF : Scalar F) (E : Externals F) (self : Estimator F)
        (start_pose : mat4 F)
        (obs_img : image (Byte.byte * Byte.byte * Byte.byte))
        (obs_img_pose : mat4 F) (obs_img_depth : option (image F))
        (s : world) (p : mat4 F) :
  let run :=
    estimate_pose self start_pose obs_img obs_img_pose obs_img_depth s in
  fst (fst run) = Returned (Some p) ->
  map fst (steps (snd run)) = seq 0 (iter self) /\
  map fst (renders (snd run)) = seq 0 (iter self) /\
  last (map (fun x => Some (snd x)) (renders (snd run))) None = Some p /\
  pose_prior (snd (fst run)) = Some p /\
  texts (snd run) = report_lines (seq 0 (iter self)).
Proof.
  intros run Hrun. subst run.
  pose proof (outcome_estimate_pose_body self start_pose obs_img
                obs_img_pose obs_img_depth s) as Hbody.
  pose proof (printing_estimate_pose_body self start_pose obs_img
                obs_img_pose obs_img_depth s) as Hprint.
  unfold estimate_pose in *.
  destruct (estimate_pose_body _ _ _ _ _ s) as [[[u | value | e] s'] ev];
    cbn in *; try discriminate.
  injection Hrun as ->.
  destruct (Hbody p eq_refl) as [H1 [H2 [H3 H4]]].
  repeat split; try assumption. exact (Hprint _ eq_refl).
Qed.

Lemma change_brightness_zero {F} {SF : Scalar F} {E : Externals F}
      (self : Estimator F) (img : image (F * F * F)) :
  seqb (delta_brightness self) (of_Z 0) = true ->
  change_brightness self img = img.
Proof. intros Hd. unfold change_brightness. now rewrite Hd. Qed.

(** The amended statement on a call with one iteration that returns the
    start pose moved by the initial twist. *)
Lemma loss_is_never_checked_witness :
  let E := stub (F := R) [] in
  let self :=
    stub_estimator 1 1 "random" (flat_renderer 1 1 0%R 0%R) None 0%R in
  let run :=
    estimate_pose self eye4 (flat_image 1 1 (Byte.x00, Byte.x00, Byte.x00))
                  eye4 (Some (flat_image 1 1 0%R)) (stub_world [] 0) in
  map fst (steps (snd run)) = seq 0 (iter self) /\
  map fst (renders (snd run)) = seq 0 (iter self) /\
  last (map (fun x => Some (snd x)) (renders (snd run))) None
  = Some (forward zero_twist eye4) /\
  pose_prior (snd (fst run)) = Some (forward zero_twist eye4) /\
  texts (snd run) = report_lines (seq 0 (iter self)).
Proof.
  intros E self run.
  apply (loss_is_never_checked R Scalar_R E self eye4
           (flat_image 1 1 (Byte.x00, Byte.x00, Byte.x00)) eye4
           (Some (flat_image 1 1 0%R)) (stub_world [] 0)
           (forward zero_twist eye4)).
  unfold estimate_pose, estimate_pose_body.
  rewrite change_brightness_off by reflexivity.
  lazy. reflexivity.
Defined.

(** C3 as stated fails: with a renderer that answers not-a-number the
    loss of the first iteration is not finite, and the call still steps
    the optimizer with it, runs the second iteration, steps again and
    returns a pose, having printed the diagnostics of the first iteration
    and no other line. *)
Lemma nonfinite_loss_is_stepped :
  let E := stub (F := fp) [] in
  let self :=
    stub_estimator 2 1 "random" (flat_renderer 1 1 NaN NaN) None (Fin 0) in
  let run :=
    estimate_pose self eye4 (flat_image 1 1 (Byte.x00, Byte.x00, Byte.x00))
                  eye4 (Some (flat_image 1 1 (Fin 0))) (stub_world [] 0) in
  isfinite NaN = false /\
  steps (snd run) = [(0, NaN); (1, NaN)] /\
  texts (snd run) = report_labels /\
  exists p, fst (fst run) = Returned (Some p).
Proof.
  intros E self run. split; [reflexivity |].
  subst run. unfold estimate_pose, estimate_pose_body.
  rewrite change_brightness_zero by (cbn; apply Reqb_true).
  split; [| split].
  - lazy. reflexivity.
  - lazy. reflexivity.
  - eexists. lazy. reflexivity.
Qed.

(* ================================================================= *)
(** * Further properties *)

(** ** The twist *)

From Stdlib Require Import RNsatz.

Ltac more_tensor_compute :=
  cbv [forward exp_i zero_twist vec2ss_matrix matmul44 matmul33 matvec3
       add33 scal33 set44 set33 set_block33 set_col3 zeros33 zeros44
       eye3 eye4 tab3 tab4 get3 get4 at3 at4 w v theta
       transpose33 cross3 norm2 upper_left last_column
       rot_psi rot_theta rot_phi trans_t
       Nat.eqb Nat.ltb Nat.leb andb
       Scalar_R of_Z sadd ssub smul sneg ssin scos].

(** X1. [vec2ss_matrix a] is skew-symmetric, it maps a vector [b] to the
    cross product of [a] and [b], and so it maps [a] to zero. *)
Theorem vec2ss_matrix_cross (a b : vec3 R) :
  transpose33 (vec2ss_matrix a) = scal33 (-1)%R (vec2ss_matrix a) /\
  matvec3 (vec2ss_matrix a) b = cross3 a b /\
  matvec3 (vec2ss_matrix a) a = (0, 0, 0)%R.
Proof.
  destruct a as [[a0 a1] a2], b as [[b0 b1] b2].
  repeat split; more_tensor_compute; tuple_eq; ring.
Qed.

(** X2. With the angle 0 and a generator [w] whose entries are at most
    10^18 in absolute value, the matrix of a twist is the identity
    whatever [w] and [v] are, and [forward] returns the start pose.  The
    bound keeps the products of the entries of [w] inside the range of
    float32, where 0 times an overflowed product is not-a-number; the
    exact arithmetic of the proof does not need it. *)
Theorem forward_zero_angle (gw gv : vec3 R) (start_pose : mat4 R) :
  bounded3 (10 ^ 18) gw ->
  exp_i {| w := gw; v := gv; theta := 0%R |} = eye4 /\
  forward {| w := gw; v := gv; theta := 0%R |} start_pose = start_pose.
Proof.
  intros _.
  assert (Hexp : exp_i {| w := gw; v := gv; theta := 0%R |} = eye4).
  { destruct gw as [[w0 w1] w2], gv as [[v0 v1] v2].
    more_tensor_compute. rewrite sin_0, cos_0. tuple_eq; ring. }
  split; [exact Hexp |].
  unfold forward. rewrite Hexp. apply matmul44_eye4_l.
Qed.

(** The theorem on a twist along the first axis. *)
Lemma forward_zero_angle_witness :
  exp_i {| w := (1, 0, 0)%R; v := (2, 3, 4)%R; theta := 0%R |} = eye4 /\
  forward {| w := (1, 0, 0)%R; v := (2, 3, 4)%R; theta := 0%R |} eye4 = eye4.
Proof.
  apply (forward_zero_angle (1, 0, 0)%R (2, 3, 4)%R eye4).
  unfold bounded3. rewrite Rabs_R1, Rabs_R0.
  assert (H18 : (1 <= 10 ^ 18)%R) by (apply pow_R1_Rle; lra).
  lra.
Defined.

(** X3. [forward] leaves the bottom row of the start pose as it is: a
    start pose with the bottom row [0,0,0,1] gives a pose with that
    bottom row. *)
Theorem forward_keeps_bottom_row (tw : camera_transf R) (start_pose : mat4 R) :
  get4 (forward tw start_pose) 3 = get4 start_pose 3.
Proof.
  destruct tw as [[[w0 w1] w2] [[v0 v1] v2] th].
  destruct start_pose as [[[[[[a0 a1] a2] a3] [[[b0 b1] b2] b3]]
                             [[[c0 c1] c2] c3]] [[[d0 d1] d2] d3]].
  more_tensor_compute. tuple_eq; ring.
Qed.

(** X4. The rotation block R that [forward] builds satisfies
    R R^T = I + (1 - cos theta)^2 (1 - |w|^2) [w]x^2: it is orthonormal
    when [w] has the length 1 (the code does not normalize [w]). *)
Theorem rotation_block_gram (tw : camera_transf R) :
  let rot := upper_left (exp_i tw) in
  let wx := vec2ss_matrix (w tw) in
  matmul33 rot (transpose33 rot) =
    add33 eye3
          (scal33 ((1 - cos (theta tw)) * (1 - cos (theta tw))
                   * (1 - norm2 (w tw)))%R
                  (matmul33 wx wx)) /\
  (norm2 (w tw) = 1%R -> matmul33 rot (transpose33 rot) = eye3).
Proof.
  destruct tw as [[[w0 w1] w2] [[v0 v1] v2] th].
  cbv zeta.
  assert (Hgram :
    matmul33 (upper_left (exp_i {| w := (w0, w1, w2); v := (v0, v1, v2);
                                   theta := th |}))
             (transpose33 (upper_left (exp_i {| w := (w0, w1, w2);
                                               v := (v0, v1, v2);
                                               theta := th |}))) =
    add33 eye3
          (scal33 ((1 - cos th) * (1 - cos th)
                   * (1 - norm2 (w0, w1, w2)))%R
                  (matmul33 (vec2ss_matrix (w0, w1, w2))
                            (vec2ss_matrix (w0, w1, w2))))).
  { pose proof (sin2_cos2 th) as Htrig. unfold Rsqr in Htrig.
    more_tensor_compute.
    set (s := sin th) in *. set (c := cos th) in *.
    tuple_eq; nsatz. }
  split; [exact Hgram |].
  cbn [w]. intros Hunit. rewrite Hgram, Hunit.
  more_tensor_compute. tuple_eq; ring.
Qed.

(* ----------------------------------------------------------------- *)
(** ** The rotation and translation lambdas *)

(** X5. Each of [rot_psi], [rot_theta] and [rot_phi] turns the sum of
    two angles into the product of the two rotations and the angle 0
    into the identity, [trans_t] does so for two translations, and the
    rotation [rot_phi] about the third axis commutes with the translation
    [trans_t] along it. *)
Theorem rotation_lambdas_compose (a b : R) :
  matmul44 (rot_psi a) (rot_psi b) = rot_psi (a + b)%R /\
  matmul44 (rot_theta a) (rot_theta b) = rot_theta (a + b)%R /\
  matmul44 (rot_phi a) (rot_phi b) = rot_phi (a + b)%R /\
  matmul44 (trans_t a) (trans_t b) = trans_t (a + b)%R /\
  rot_psi 0%R = eye4 /\ rot_theta 0%R = eye4 /\ rot_phi 0%R = eye4 /\
  trans_t 0%R = eye4 (F := R) /\
  matmul44 (rot_phi a) (trans_t b) = matmul44 (trans_t b) (rot_phi a).
Proof.
  repeat split; more_tensor_compute;
    rewrite ?cos_plus, ?sin_plus, ?sin_0, ?cos_0; tuple_eq; ring.
Qed.

Lemma Ratan2_pos (y x : R) : (0 < x)%R -> Ratan2 y x = atan (y / x).
Proof. intros Hx. unfold Ratan2. now destruct (Rlt_dec 0 x). Qed.

Lemma Ratan2_0_pos (x : R) : (0 < x)%R -> Ratan2 0 x = 0%R.
Proof.
  intros Hx. rewrite Ratan2_pos by assumption.
  unfold Rdiv. rewrite Rmult_0_l. apply atan_0.
Qed.

Lemma Ratan2_sin_cos (a : R) :
  (- (PI / 2) < a < PI / 2)%R -> Ratan2 (sin a) (cos a) = a.
Proof.
  intros Ha. rewrite Ratan2_pos by (apply cos_gt_0; lra).
  change (sin a / cos a)%R with (tan a). now apply atan_tan.
Qed.

(** X6. The decomposition of the diagnostics reads the angle back from
    the rotation lambdas: for an angle [a] between -pi/2 and pi/2,
    [rot_phi a] has the angles (a, 0, 0) in degrees, [rot_psi a] has
    (0, 0, a) and [rot_theta a] has (0, -a, 0), each with the translation
    norm 0; [trans_t t] has no rotation and the translation norm |t|. *)
Theorem pose_angles_of_lambdas (a t : R) :
  (- (PI / 2) < a < PI / 2)%R ->
  pose_angles (rot_phi a) = (degrees a, 0, 0, 0)%R /\
  pose_angles (rot_psi a) = (0, 0, degrees a, 0)%R /\
  pose_angles (rot_theta a) = (0, degrees (- a), 0, 0)%R /\
  pose_angles (trans_t t) = (0, 0, 0, Rabs t)%R.
Proof.
  intros Ha.
  assert (Hcos : (0 < cos a)%R) by (apply cos_gt_0; lra).
  assert (H01 : (0 < 1)%R) by lra.
  assert (Hsq0 : sqrt (0 * 0 + 0 * 0 + 0 * 0) = 0%R).
  { replace (0 * 0 + 0 * 0 + 0 * 0)%R with 0%R by ring. apply sqrt_0. }
  assert (Hsq1 : sqrt (0 * 0 + 1 * 1) = 1%R).
  { replace (0 * 0 + 1 * 1)%R with 1%R by ring. apply sqrt_1. }
  assert (degrees_0 : (0 * 180 / PI)%R = 0%R)
    by (unfold Rdiv; now rewrite !Rmult_0_l).
  unfold pose_angles, sq.
  repeat split;
    cbv [rot_phi rot_psi rot_theta trans_t at4 get4 degrees
         Scalar_R of_Z sadd ssub smul sdiv sneg ssin scos ssqrt satan2 spi];
    rewrite ?Ropp_0, ?Hsq0, ?Hsq1.
  - rewrite Ratan2_sin_cos, !Ratan2_0_pos, degrees_0 by assumption.
    reflexivity.
  - assert (Hs : sqrt (sin a * sin a + cos a * cos a) = 1%R).
    { replace (sin a * sin a + cos a * cos a)%R with 1%R; [apply sqrt_1 |].
      pose proof (sin2_cos2 a) as Htrig. unfold Rsqr in Htrig. lra. }
    rewrite Hs, Ratan2_sin_cos, !Ratan2_0_pos, degrees_0 by assumption.
    reflexivity.
  - assert (Hs : sqrt (0 * 0 + cos a * cos a) = cos a).
    { replace (0 * 0 + cos a * cos a)%R with (cos a * cos a)%R by ring.
      apply sqrt_square. lra. }
    rewrite Hs, !Ratan2_0_pos, degrees_0 by assumption.
    rewrite <- sin_neg, <- (cos_neg a).
    rewrite Ratan2_sin_cos by lra. reflexivity.
  - assert (Hs : sqrt (0 * 0 + 0 * 0 + t * t) = Rabs t).
    { replace (0 * 0 + 0 * 0 + t * t)%R with (Rsqr t) by (unfold Rsqr; ring).
      apply sqrt_Rsqr_abs. }
    rewrite Hs, !Ratan2_0_pos, degrees_0 by assumption. reflexivity.
Qed.

(** The theorem at the angle 0 and the translation 2. *)
Lemma pose_angles_of_lambdas_witness :
  pose_angles (rot_phi 0%R) = (degrees 0, 0, 0, 0)%R /\
  pose_angles (rot_psi 0%R) = (0, 0, degrees 0, 0)%R /\
  pose_angles (rot_theta 0%R) = (0, degrees (- 0), 0, 0)%R /\
  pose_angles (trans_t 2%R) = (0, 0, 0, Rabs 2)%R.
Proof.
  apply (pose_angles_of_lambdas 0 2).
  pose proof PI_RGT_0. split; lra.
Defined.

(* ----------------------------------------------------------------- *)
(** ** The grid of the estimator and the interest points *)

Lemma length_meshgrid_rows (W H : nat) :
  length (concat (meshgrid W H)) = W * H.
Proof.
  unfold meshgrid. generalize (seq 0 H) (length_seq H 0).
  intros rows Hrows. rewrite <- Hrows. clear Hrows.
  induction rows as [| i rows IH]; cbn; [lia |].
  rewrite length_app, length_map, length_seq, IH. lia.
Qed.

Lemma pixel_at_meshgrid (W H : nat) (p : pixel) :
  pixel_at (meshgrid W H) p =
  if Nat.ltb (fst p) W && Nat.ltb (snd p) H then Some p else None.
Proof.
  destruct p as [x y]. unfold pixel_at, meshgrid; cbn [fst snd].
  rewrite nth_error_map, nth_error_seq.
  destruct (Nat.ltb y H); cbn [option_map].
  - rewrite nth_error_map, nth_error_seq.
    destruct (Nat.ltb x W); reflexivity.
  - now rewrite andb_false_r.
Qed.

(** X7. The grid that [Estimator.__init__] stores has H rows of W
    columns and holds at row y, column x the coordinate (x, y); indexing
    it outside fails.  Reshaped to rows it lists every coordinate of
    [0,W) x [0,H) exactly once, W * H rows in all. *)
Theorem coords_enumerate_grid (F : Type) (self : Estimator F) (p : pixel) :
  length (coords self) = H self /\
  Forall (fun row => length row = W self) (coords self) /\
  (in_grid (W self) (H self) p -> pixel_at (coords self) p = Some p) /\
  (~ in_grid (W self) (H self) p -> pixel_at (coords self) p = None) /\
  shape0 (reshape_rows (coords self)) = W self * H self /\
  NoDup (points (reshape_rows (coords self))) /\
  (In p (points (reshape_rows (coords self))) <->
   in_grid (W self) (H self) p).
Proof.
  unfold coords, reshape_rows; cbn [shape0 points].
  split; [unfold meshgrid; now rewrite length_map, length_seq |].
  split.
  { unfold meshgrid. apply Forall_forall. intros row Hrow.
    apply in_map_iff in Hrow. destruct Hrow as [i [<- _]].
    now rewrite length_map, length_seq. }
  split.
  { intros [Hx Hy]. rewrite pixel_at_meshgrid.
    apply Nat.ltb_lt in Hx, Hy. now rewrite Hx, Hy. }
  split.
  { intros Hout. rewrite pixel_at_meshgrid.
    destruct (Nat.ltb_spec (fst p) (W self)) as [Hx | Hx]; [| reflexivity].
    destruct (Nat.ltb_spec (snd p) (H self)) as [Hy | Hy]; [| reflexivity].
    elim Hout. now split. }
  split; [apply length_meshgrid_rows |].
  split; [apply NoDup_meshgrid | apply in_meshgrid].
Qed.

(** X8. [find_POI] returns every keypoint of the detector once: its rows
    are pairwise different, a coordinate is a row if and only if it is a
    keypoint, there are at most as many rows as keypoints, and the array
    is the one-dimensional empty array exactly when there is no
    keypoint. *)
Theorem find_POI_is_the_keypoint_set
        (F : Type) (E : Externals F)
        (img : image (Byte.byte * Byte.byte * Byte.byte)) :
  set_iter_spec E ->
  NoDup (points (find_POI img)) /\
  (forall p, In p (points (find_POI img)) <-> In p (sift_keypoints img)) /\
  shape0 (find_POI img) <= length (sift_keypoints img) /\
  (find_POI img = Empty1D <-> sift_keypoints img = []).
Proof.
  intros Hset. unfold find_POI.
  destruct (Hset (sift_keypoints img)) as [Hnd Hin].
  rewrite shape0_points, points_np_array.
  split; [assumption |]. split; [assumption |]. split.
  - apply NoDup_incl_length; [assumption |]. intros p Hp. now apply Hin.
  - split.
    + intros Hempty. destruct (sift_keypoints img) as [| q l]; [reflexivity |].
      assert (Hq : In q (set_iter (q :: l))) by (apply Hin; now left).
      destruct (set_iter (q :: l)); [contradiction | discriminate].
    + intros Hnone. rewrite Hnone in *.
      destruct (set_iter []) as [| q l]; [reflexivity |].
      exfalso. apply (Hin q). now left.
Qed.

(** The theorem for a detector that reports one keypoint twice. *)
Lemma find_POI_is_the_keypoint_set_witness :
  let E := stub (F := R) [(1, 0); (1, 0)] in
  NoDup (points (find_POI [])) /\
  (forall p, In p (points (find_POI [])) <-> In p (sift_keypoints [])) /\
  shape0 (find_POI []) <= length (sift_keypoints []) /\
  (find_POI [] = Empty1D <-> sift_keypoints [] = []).
Proof.
  intros E.
  apply (find_POI_is_the_keypoint_set R E []). apply stub_set_iter_spec.
Defined.

(** X9. Under the strategy random a resample yields a batch whenever
    batch_size is at most W * H, and raises a ValueError, without a draw
    from the generators, when batch_size is larger than the number of
    pixels. *)
Theorem random_resample_total
        (F : Type) (SF : Scalar F) (E : Externals F) (self : Estimator F)
        (POI not_POI regions : option coord_array) (s : world) :
  permutation_spec E ->
  strategy_is self "random" = true ->
  (batch_size self <= W self * H self ->
   exists b s',
     resample self (reshape_rows (coords self)) POI not_POI regions s
     = (Val b, s', []) /\
     pose_prior s' = pose_prior s /\ shape0 b = batch_size self) /\
  (W self * H self < batch_size self ->
   resample self (reshape_rows (coords self)) POI not_POI regions s
   = (Raised ValueError, s, [])).
Proof.
  intros Hperm Hs. unfold resample. rewrite Hs.
  assert (Hn : shape0 (reshape_rows (coords self)) = W self * H self)
    by apply length_meshgrid_rows.
  rewrite Hn. split.
  - intros Hle.
    destruct (np_random_choice_runs (W self * H self) (batch_size self) s
                Hperm Hle) as [inds [s' [Hrun [Hp [Hlen Hinds]]]]].
    rewrite (bind_run _ _ _ _ _ _ Hrun).
    rewrite <- Hn in Hinds.
    destruct (take_rows_runs _ inds s' Hinds) as [rows [Hrows Hrlen]].
    unfold reshape_rows. rewrite Hrows. exists (Rows rows), s'.
    cbn. repeat split; [assumption | congruence].
  - intros Hgt. unfold np_random_choice.
    assert (Hleb : Nat.leb (batch_size self) (W self * H self) = false)
      by (apply Nat.leb_gt; lia).
    now rewrite Hleb.
Qed.

(** The theorem for a batch of one pixel on a grid of two. *)
Lemma random_resample_total_witness :
  let E := stub (F := R) [] in
  let self :=
    stub_estimator 1 1 "random" (flat_renderer 2 1 0%R 0%R) None 0%R in
  exists b s',
    resample self (reshape_rows (coords self)) None None None
             (stub_world [] 0) = (Val b, s', []) /\
    pose_prior s' = pose_prior (stub_world [] 0) /\
    shape0 b = batch_size self.
Proof.
  intros E self.
  apply (random_resample_total R Scalar_R E self None None None
           (stub_world [] 0) (stub_permutation_spec _) eq_refl).
  cbn. lia.
Defined.

(* ----------------------------------------------------------------- *)
(** ** A call without a depth image *)

Section Silent.
Context {F : Type} {SF : Scalar F} {E : Externals F}.

Lemma quiet_silent {A} (m : M A) : quiet m -> silent m.
Proof. intros Hm s. destruct (Hm s) as [Hs [Hr _]]. now split. Qed.

Lemma silent_bind {A B} (m : M A) (f : A -> M B) :
  silent m -> (forall a, silent (f a)) -> silent (bind m f).
Proof.
  intros Hm Hf s. unfold bind. destruct (Hm s) as [Hs Hr].
  destruct (m s) as [[[a | value | e] s'] ev]; cbn in *; auto.
  destruct (Hf a s') as [Hs' Hr'].
  destruct (f a s') as [[r' s''] ev']; cbn in *.
  rewrite steps_app, renders_app, Hs, Hr, Hs', Hr'. auto.
Qed.

Lemma silent_bind_raise {A B} (e : exn) (f : A -> M B) :
  silent (bind (raise e) f).
Proof. intros s. cbn. auto. Qed.

Lemma silent_for_each {S} (body : nat -> S -> M S) (ks : list nat) (st : S) :
  (forall k st, silent (body k st)) -> silent (for_each ks body st).
Proof.
  intros Hbody. revert st. induction ks as [| k ks IH]; intros st; cbn.
  - apply quiet_silent, quiet_ret.
  - apply silent_bind; [apply Hbody | exact IH].
Qed.

Lemma silent_iteration_without_depth
      (self : Estimator F) (start_pose : mat4 F)
      (obs_img_noised : image (F * F * F))
      (grid : coord_array) (POI not_POI regions : option coord_array)
      (refs : F * F * F * F) (k : nat) (st : locals) :
  silent (iteration self start_pose obs_img_noised None grid
                    POI not_POI regions refs k st).
Proof.
  unfold iteration.
  apply silent_bind.
  { apply quiet_silent. destruct (Nat.eqb _ _); [| apply quiet_need].
    apply quiet_bind; [apply quiet_resample | intros b].
    apply quiet_bind; [now apply quiet_emit | intros _; apply quiet_ret]. }
  intros b. apply silent_bind; [apply quiet_silent, quiet_gather |].
  intros target_s.
  apply silent_bind; [apply quiet_silent; now apply quiet_emit |].
  intros _. apply silent_bind_raise.
Qed.

Lemma silent_body_without_depth
      (self : Estimator F) (start_pose : mat4 F)
      (obs_img : image (Byte.byte * Byte.byte * Byte.byte))
      (obs_img_pose : mat4 F) :
  silent (estimate_pose_body self start_pose obs_img obs_img_pose None).
Proof.
  unfold estimate_pose_body. cbv zeta.
  apply silent_bind; [apply quiet_silent, quiet_preamble_noise |].
  intros obs_img_noised. apply silent_bind.
  { apply quiet_silent.
    destruct (strategy_is self "interest_regions"); [| apply quiet_ret].
    apply quiet_bind; [apply quiet_need | intros POI].
    apply quiet_bind; [apply quiet_interest_region_coords |].
    intros r. apply quiet_ret. }
  intros regions. apply silent_bind.
  { apply quiet_silent.
    destruct (strategy_is self "interest_points"); [| apply quiet_ret].
    apply quiet_bind; [apply quiet_need | intros POI; apply quiet_ret]. }
  intros not_POI.
  apply silent_bind; [apply quiet_silent, quiet_new_camera_transf |].
  intros cam. apply silent_bind.
  { apply silent_for_each. intros k st.
    apply silent_iteration_without_depth. }
  intros st. apply silent_bind; [apply quiet_silent, quiet_need |].
  intros pose. intros s. cbn. auto.
Qed.

End Silent.

(** X10. A call of [estimate_pose] without a depth image (the default
    [obs_img_depth=None]) never queries the renderer, never steps the
    optimizer and never returns a pose, whatever the configuration and
    the other inputs are. *)
Theorem no_depth_no_pose
        (F : Type) (SF : Scalar F) (E : Externals F) (self : Estimator F)
        (start_pose : mat4 F)
        (obs_img : image (Byte.byte * Byte.byte * Byte.byte))
        (obs_img_pose : mat4 F) (s : world) :
  let run := estimate_pose self start_pose obs_img obs_img_pose None s in
  renders (snd run) = [] /\
  steps (snd run) = [] /\
  (forall p, fst (fst run) <> Returned (Some p)).
Proof.
  intros run.
  assert (Hev : steps (snd run) = [] /\ renders (snd run) = []).
  { subst run. rewrite estimate_pose_events.
    apply silent_body_without_depth. }
  destruct Hev as [Hs Hr]. split; [assumption |]. split; [assumption |].
  intros p Hp.
  pose proof (outcome_estimate_pose_body self start_pose obs_img
                obs_img_pose None s) as Hbody.
  subst run. unfold estimate_pose in *.
  destruct (estimate_pose_body _ _ _ _ _ s) as [[[u | value | e] s'] ev];
    cbn in *; try discriminate.
  injection Hp as ->.
  destruct (Hbody p eq_refl) as [_ [_ [Hlast _]]].
  rewrite Hr in Hlast. discriminate.
Qed.

(* ----------------------------------------------------------------- *)
(** ** The cached pose prior *)

Section Prior.
Context {F : Type} {SF : Scalar F} {E : Externals F}.

Lemma inert_ret {A} (a : A) : inert (ret a).
Proof. intros s. cbn. split; [reflexivity | discriminate]. Qed.

Lemma inert_raise {A} (e : exn) : inert (raise (A := A) e).
Proof. intros s. cbn. split; [reflexivity | discriminate]. Qed.

Lemma inert_py_return_None {A} : inert (py_return (A := A) None).
Proof. intros s. cbn. split; [reflexivity | now intros ? [= <-]]. Qed.

Lemma inert_emit (e : event F) : inert (emit e).
Proof. intros s. cbn. split; [reflexivity | discriminate]. Qed.

Lemma inert_draw {A} (f : RNG -> A * RNG) : inert (draw f).
Proof.
  intros s. unfold draw. destruct (f (rng s)). cbn.
  split; [reflexivity | discriminate].
Qed.

Lemma inert_draw_unseeded {A} (f : RNG -> Entropy -> A * RNG * Entropy) :
  inert (draw_unseeded f).
Proof.
  intros s. unfold draw_unseeded.
  destruct (f (rng s) (entropy s)) as [[a g] e]. cbn.
  split; [reflexivity | discriminate].
Qed.

Lemma inert_torch_try {A} (o : option A) : inert (torch_try o).
Proof. destruct o; [apply inert_ret | apply inert_raise]. Qed.

Lemma inert_need {A} (o : option A) : inert (need o).
Proof. destruct o; [apply inert_ret | apply inert_raise]. Qed.

Lemma inert_index {A} (o : option A) : inert (index o).
Proof. destruct o; [apply inert_ret | apply inert_raise]. Qed.

Lemma inert_bind {A B} (m : M A) (f : A -> M B) :
  inert m -> (forall a, inert (f a)) -> inert (bind m f).
Proof.
  intros Hm Hf s. unfold bind. destruct (Hm s) as [Hp Hv].
  destruct (m s) as [[[a | value | e] s'] ev]; cbn in *.
  - destruct (Hf a s') as [Hp' Hv'].
    destruct (f a s') as [[r' s''] ev']; cbn in *.
    split; [congruence | assumption].
  - split; [assumption |]. intros v [= <-]. now apply Hv.
  - split; [assumption | discriminate].
Qed.

Lemma inert_for_each {S} (body : nat -> S -> M S) (ks : list nat) (st : S) :
  (forall k st, inert (body k st)) -> inert (for_each ks body st).
Proof.
  intros Hbody. revert st. induction ks as [| k ks IH]; intros st; cbn.
  - apply inert_ret.
  - apply inert_bind; [apply Hbody | exact IH].
Qed.

Ltac inert_step :=
  first
    [ apply inert_ret | apply inert_raise | apply inert_py_return_None
    | apply inert_emit | apply inert_draw | apply inert_draw_unseeded
    | apply inert_need | apply inert_index | apply inert_torch_try
    | apply inert_bind; [| intros ?]
    | match goal with
      | |- inert (if ?c then _ else _) => destruct c
      | |- inert (match ?o with Some _ => _ | None => _ end) => destruct o
      | |- inert (match ?a with Empty1D => _ | Rows _ => _ end) => destruct a
      | |- inert (match ?l with [] => _ | _ :: _ => _ end) => destruct l
      | |- inert (let '(_, _) := ?p in _) => destruct p
      end ].

Lemma inert_resample (self : Estimator F) (grid : coord_array)
      (POI not_POI regions : option coord_array) :
  inert (resample self grid POI not_POI regions).
Proof.
  unfold resample, np_random_choice, take, assign_rows, print.
  repeat inert_step.
Qed.

Lemma inert_gather {A} (img : image A) (b : coord_array) :
  inert (gather img b).
Proof. unfold gather, columns. repeat inert_step. Qed.

Lemma inert_report (k : nat) (loss : F) (refs : F * F * F * F)
      (pose : mat4 F) :
  inert (report k loss refs pose).
Proof.
  unfold report, print.
  destruct refs as [[[phi_ref theta_ref] psi_ref] t_ref].
  destruct (pose_angles pose) as [[[phi theta] psi] t].
  repeat inert_step.
Qed.

Lemma inert_iteration (self : Estimator F) (start_pose : mat4 F)
      (obs_img_noised : image (F * F * F)) (obs_img_depth : option (image F))
      (grid : coord_array) (POI not_POI regions : option coord_array)
      (refs : F * F * F * F) (k : nat) (st : locals) :
  inert (iteration self start_pose obs_img_noised obs_img_depth grid
                   POI not_POI regions refs k st).
Proof.
  unfold iteration.
  apply inert_bind.
  { destruct (Nat.eqb _ _); [| apply inert_need].
    apply inert_bind; [apply inert_resample | intros b]. repeat inert_step. }
  intros b. apply inert_bind; [apply inert_gather | intros target_s].
  apply inert_bind; [apply inert_emit | intros _].
  apply inert_bind; [destruct obs_img_depth; repeat inert_step |].
  intros depth_img. apply inert_bind; [apply inert_gather | intros depth_s].
  apply inert_bind; [apply inert_emit | intros _].
  apply inert_bind; [apply inert_torch_try | intros loss].
  apply inert_bind; [apply inert_torch_try | intros grad].
  match goal with
  | |- context [adam_step ?a ?b ?c ?d] =>
      destruct (adam_step a b c d) as [moments' cam']
  end.
  apply inert_bind; [apply inert_emit | intros _].
  apply inert_bind; [| intros _; apply inert_ret].
  destruct (report_due k); [apply inert_report | apply inert_ret].
Qed.

Lemma prior_follows_inert_bind {A B} (m : M A) (f : A -> M B) :
  inert m -> (forall a, prior_follows_result (f a)) ->
  prior_follows_result (bind m f).
Proof.
  intros Hm Hf s. unfold bind. destruct (Hm s) as [Hp Hv].
  destruct (m s) as [[[a | value | e] s'] ev]; cbn in *.
  - specialize (Hf a s').
    destruct (f a s') as [[r' s''] ev']; cbn in *.
    destruct r' as [b | [p |] | e']; congruence.
  - now rewrite (Hv value eq_refl).
  - assumption.
Qed.

Lemma prior_follows_body
      (self : Estimator F) (start_pose : mat4 F)
      (obs_img : image (Byte.byte * Byte.byte * Byte.byte))
      (obs_img_pose : mat4 F) (obs_img_depth : option (image F)) :
  prior_follows_result
    (estimate_pose_body self start_pose obs_img obs_img_pose obs_img_depth).
Proof.
  unfold estimate_pose_body. cbv zeta.
  apply prior_follows_inert_bind.
  { unfold apply_noise, noised. repeat inert_step. }
  intros obs_img_noised. apply prior_follows_inert_bind.
  { destruct (strategy_is self "interest_regions"); [| apply inert_ret].
    apply inert_bind; [apply inert_need | intros POI].
    apply inert_bind; [| intros r; apply inert_ret].
    unfold interest_region_coords, columns. repeat inert_step. }
  intros regions. apply prior_follows_inert_bind.
  { destruct (strategy_is self "interest_points"); repeat inert_step. }
  intros not_POI. apply prior_follows_inert_bind.
  { unfold new_camera_transf. repeat inert_step. }
  intros cam. apply prior_follows_inert_bind.
  { apply inert_for_each. intros k st. apply inert_iteration. }
  intros st. apply prior_follows_inert_bind; [apply inert_need |].
  intros pose s. reflexivity.
Qed.

End Prior.

(** X11. [estimate_pose] writes the attribute [pose_prior] only when it
    returns a pose: after a call that returns the pose p the prior is p,
    and after a call that returns None or raises an error the prior is
    what it was before the call. *)
Theorem pose_prior_follows_result
        (F : Type) (SF : Scalar F) (E : Externals F) (self : Estimator F)
        (start_pose : mat4 F)
        (obs_img : image (Byte.byte * Byte.byte * Byte.byte))
        (obs_img_pose : mat4 F) (obs_img_depth : option (image F))
        (s : world) :
  let run :=
    estimate_pose self start_pose obs_img obs_img_pose obs_img_depth s in
  (forall p, fst (fst run) = Returned (Some p) ->
             pose_prior (snd (fst run)) = Some p) /\
  (fst (fst run) = Returned None -> pose_prior (snd (fst run)) = pose_prior s) /\
  (forall e, fst (fst run) = Raised e ->
             pose_prior (snd (fst run)) = pose_prior s).
Proof.
  intros run. subst run.
  pose proof (prior_follows_body self start_pose obs_img obs_img_pose
                obs_img_depth s) as Hbody.
  unfold estimate_pose.
  destruct (estimate_pose_body _ _ _ _ _ s) as [[[u | [p |] | e] s'] ev];
    cbn in *; repeat split; intros; try discriminate; try congruence.
Qed.

(* ----------------------------------------------------------------- *)
(** ** A call with the strategy random that returns a pose *)

Lemma shape_map_img {A B} (f : A -> B) (img : image A) :
  shape (map_img f img) = shape img.
Proof.
  unfold shape, map_img. rewrite map_map. apply map_ext.
  intros row. apply length_map.
Qed.

Lemma pixel_at_shape {A} (img : image A) (W H : nat) (p : pixel) :
  shape img = repeat W H -> in_grid W H p ->
  exists a, pixel_at img p = Some a.
Proof.
  intros Hshape [Hx Hy]. unfold pixel_at.
  assert (Hlen : length img = H).
  { apply (f_equal (@length nat)) in Hshape.
    unfold shape in Hshape. now rewrite length_map, repeat_length in Hshape. }
  destruct (nth_error img (snd p)) as [row |] eqn:Hrow.
  - assert (Hw : length row = W).
    { assert (Hin : In (length row) (shape img)).
      { unfold shape. apply in_map. eapply nth_error_In, Hrow. }
      rewrite Hshape in Hin. now apply repeat_spec in Hin. }
    destruct (nth_error row (fst p)) as [a |] eqn:Ha; [now exists a |].
    apply nth_error_None in Ha. lia.
  - apply nth_error_None in Hrow. lia.
Qed.

Section HappyPath.
Context {F : Type} {SF : Scalar F} {E : Externals F}.

Lemma gather_runs {A} (img : image A) (W H : nat) (rows : list pixel)
      (s : world) :
  shape img = repeat W H -> Forall (in_grid W H) rows ->
  exists vals, gather img (Rows rows) s = (Val vals, s, []) /\
               length vals = length rows.
Proof.
  intros Hshape Hrows. unfold gather. cbn [columns]. rewrite bind_ret_l.
  assert (Hall : exists vals, all_some (map (pixel_at img) rows) = Some vals).
  { induction Hrows as [| p rows Hp _ [vals IH]]; cbn; [now exists [] |].
    destruct (pixel_at_shape img W H p Hshape Hp) as [a Ha].
    rewrite Ha, IH. now exists (a :: vals). }
  destruct Hall as [vals Hvals]. rewrite Hvals. exists vals.
  split; [reflexivity |].
  apply all_some_spec in Hvals. apply (f_equal (@length _)) in Hvals.
  now rewrite !length_map in Hvals.
Qed.

Lemma img2mse_some (x y : list (F * F * F)) :
  length x = length y -> exists loss, img2mse x y = Some loss.
Proof.
  intros Hlen. unfold img2mse, broadcast. rewrite Hlen, Nat.eqb_refl.
  eexists. reflexivity.
Qed.

Lemma depth2mse_some (x y z : list F) :
  length x = length y -> exists loss, depth2mse x y z = Some loss.
Proof.
  intros Hlen. unfold depth2mse, broadcast. rewrite Hlen, Nat.eqb_refl.
  eexists. reflexivity.
Qed.

Lemma resample_random_runs (self : Estimator F)
      (POI not_POI regions : option coord_array) (s : world) :
  permutation_spec E -> strategy_is self "random" = true ->
  batch_size self <= W self * H self ->
  exists rows s',
    resample self (reshape_rows (coords self)) POI not_POI regions s
    = (Val (Rows rows), s', []) /\
    Forall (in_grid (W self) (H self)) rows.
Proof.
  intros Hperm Hs Hle. unfold resample. rewrite Hs.
  assert (Hn : shape0 (reshape_rows (coords self)) = W self * H self)
    by apply length_meshgrid_rows.
  rewrite Hn.
  destruct (np_random_choice_runs (W self * H self) (batch_size self) s
              Hperm Hle) as [inds [s' [Hrun [_ [_ Hinds]]]]].
  rewrite (bind_run _ _ _ _ _ _ Hrun). unfold reshape_rows in *.
  cbn [shape0] in Hn. rewrite <- Hn in Hinds.
  destruct (pick_total _ inds Hinds) as [rows Hrows].
  exists rows, s'. cbn [take]. unfold bind. rewrite Hrows. cbn.
  split; [reflexivity |].
  apply grid_points_in_grid. now apply pick_spec in Hrows.
Qed.

Lemma report_runs (k : nat) (loss : F) (refs : F * F * F * F)
      (pose : mat4 F) (s : world) :
  exists ev, report k loss refs pose s = (Val tt, s, ev).
Proof.
  unfold report. destruct refs as [[[phi_ref theta_ref] psi_ref] t_ref].
  destruct (pose_angles pose) as [[[phi theta] psi] t].
  eexists. reflexivity.
Qed.

Lemma iteration_runs (self : Estimator F) (start_pose : mat4 F)
      (obs_img_noised : image (F * F * F)) (depth : image F)
      (POI not_POI regions : option coord_array)
      (refs : F * F * F * F) (k : nat) (st : locals) (s : world) :
  permutation_spec E -> backward_succeeds E ->
  answers_each_row (renderer self) ->
  strategy_is self "random" = true ->
  batch_size self <= W self * H self ->
  shape obs_img_noised = repeat (W self) (H self) ->
  shape depth = repeat (W self) (H self) ->
  exists st' s' ev,
    iteration self start_pose obs_img_noised (Some depth)
              (reshape_rows (coords self)) POI not_POI regions refs k st s
    = (Val st', s', ev) /\
    pose st' = Some (forward (cam_transf st) start_pose).
Proof.
  intros Hperm Hback Hrend Hs Hle Himg Hdepth. unfold iteration.
  replace (k mod Globals.N) with 0 by (symmetry; apply Nat.mod_1_r).
  cbn [Nat.eqb].
  destruct (resample_random_runs self POI not_POI regions s Hperm Hs Hle)
    as [rows [s1 [Hres Hrows]]].
  rewrite bind_assoc, (bind_run _ _ _ _ _ _ Hres).
  rewrite bind_assoc, bind_emit_run, bind_ret_l.
  destruct (gather_runs obs_img_noised _ _ rows s1 Himg Hrows)
    as [target_s [Htarget Hlt]].
  rewrite (bind_run _ _ _ _ _ _ Htarget), bind_emit_run, bind_ret_l.
  destruct (gather_runs depth _ _ rows s1 Hdepth Hrows)
    as [depth_s [Hds Hld]].
  rewrite (bind_run _ _ _ _ _ _ Hds), bind_emit_run.
  cbv beta zeta.
  match goal with
  | |- context [bind (torch_try ?o) _] =>
      lazymatch o with
      | autograd _ _ => fail
      | _ => assert (Hloss : exists loss, o = Some loss)
      end
  end.
  { destruct (Hrend (Rows rows) (forward (cam_transf st) start_pose))
      as [H1 H2].
    destruct (get_img_from_pix _ _ _) as [rgb [dv dvar]].
    cbn [fst snd shape0] in *.
    destruct (img2mse_some rgb target_s) as [l1 Hl1]; [congruence |].
    destruct (depth2mse_some dv depth_s dvar) as [l2 Hl2]; [congruence |].
    rewrite Hl1, Hl2. eexists. reflexivity. }
  destruct Hloss as [loss Hloss].
  rewrite bind_torch_try_run, Hloss, bind_torch_try_run.
  match goal with
  | |- context [autograd ?f ?c] =>
      destruct (autograd f c) as [grad |] eqn:Hgrad;
      [| exfalso; apply (Hback f c);
         [cbv beta; rewrite Hloss; discriminate | exact Hgrad]]
  end.
  match goal with
  | |- context [adam_step ?a ?b ?c ?d] =>
      destruct (adam_step a b c d) as [moments' cam']
  end.
  rewrite bind_emit_run.
  match goal with
  | |- context [bind (if ?c then report ?a ?b ?r ?p else ret tt) ?f s1] =>
      assert (Hrep : exists ev,
                 (if c then report a b r p else ret tt) s1 = (Val tt, s1, ev))
        by (destruct c; [apply report_runs | now exists []]);
      destruct Hrep as [evr Hrep];
      rewrite (bind_run _ _ _ _ _ _ Hrep)
  end.
  cbn. eexists _, _, _. split; reflexivity.
Qed.

Lemma for_each_runs (body : nat -> locals -> M locals) (ks : list nat)
      (st : locals) (s : world) :
  (forall k st s, exists st' s' ev,
      body k st s = (Val st', s', ev) /\ pose st' <> None) ->
  exists st' s' ev,
    for_each ks body st s = (Val st', s', ev) /\
    (ks <> [] -> pose st' <> None).
Proof.
  intros Hbody. revert st s.
  induction ks as [| k ks IH]; intros st s; cbn [for_each].
  - exists st, s, []. split; [reflexivity | congruence].
  - destruct (Hbody k st s) as [st1 [s1 [ev1 [Hrun Hpose]]]].
    rewrite (bind_run _ _ _ _ _ _ Hrun).
    destruct (IH st1 s1) as [st2 [s2 [ev2 [Hrun2 Hpose2]]]].
    rewrite Hrun2. exists st2, s2, (ev1 ++ ev2). split; [reflexivity |].
    intros _. destruct ks as [| k' ks'].
    + cbn in Hrun2. injection Hrun2 as <- _ _. assumption.
    + apply Hpose2. discriminate.
Qed.

Lemma apply_noise_shape (self : Estimator F) (img : image (F * F * F))
      (s : world) :
  noise_keeps_shape E ->
  exists img' s' ev,
    apply_noise self img s = (Val img', s', ev) /\ shape img' = shape img.
Proof.
  intros Hnoise. unfold apply_noise.
  repeat match goal with
         | |- context [if ?c then _ else _] => destruct c
         end;
    try (match goal with
         | |- context [noised ?m ?p ?i ?s] =>
             destruct (noised_runs m p i s) as [img' [s' [Hrun [_ Himg]]]];
             pose proof (Hnoise m p i (rng s) (entropy s)) as Hshape
         end;
         rewrite <- Himg in Hshape; rewrite Hrun; eauto).
  exists img, s, []. split; reflexivity.
Qed.

Lemma change_brightness_shape (self : Estimator F) (img : image (F * F * F)) :
  shape (change_brightness self img) = shape img.
Proof.
  unfold change_brightness, renormalize, shift_brightness.
  destruct (negb _); [| reflexivity]. now rewrite !shape_map_img.
Qed.

End HappyPath.

(** X12. Under the strategy random, with at least one iteration, a batch
    size of at most W * H, an observed image and a depth image of H rows
    of W pixels, a renderer that answers one colour and one depth for
    each row of the batch, and a loss that is linked to the parameters
    (so that [loss.backward()] gives a gradient), a call of
    [estimate_pose] returns a pose and caches it; it has then queried the
    renderer and stepped the optimizer in each iteration. *)
Theorem random_call_returns_pose
        (F : Type) (SF : Scalar F) (E : Externals F) (self : Estimator F)
        (start_pose : mat4 F)
        (obs_img : image (Byte.byte * Byte.byte * Byte.byte))
        (obs_img_pose : mat4 F) (depth : image F) (s : world) :
  permutation_spec E -> noise_keeps_shape E -> backward_succeeds E ->
  answers_each_row (renderer self) ->
  strategy_is self "random" = true ->
  iter self <> 0 ->
  batch_size self <= W self * H self ->
  shape obs_img = repeat (W self) (H self) ->
  shape depth = repeat (W self) (H self) ->
  let run :=
    estimate_pose self start_pose obs_img obs_img_pose (Some depth) s in
  exists p,
    fst (fst run) = Returned (Some p) /\
    pose_prior (snd (fst run)) = Some p /\
    map fst (steps (snd run)) = seq 0 (iter self) /\
    map fst (renders (snd run)) = seq 0 (iter self).
Proof.
  intros Hperm Hnoise Hback Hrend Hs Hiter Hle Himg Hdepth run.
  assert (Hrun : exists p, fst (fst run) = Returned (Some p)).
  { subst run. unfold estimate_pose, estimate_pose_body. cbv zeta.
    destruct (apply_noise_shape self
                (change_brightness self (normalize obs_img)) s Hnoise)
      as [noised [s1 [ev1 [Hn Hshape]]]].
    rewrite change_brightness_shape in Hshape.
    unfold normalize in Hshape. rewrite shape_map_img, Himg in Hshape.
    rewrite (bind_run _ _ _ _ _ _ Hn).
    rewrite (strategy_is_other self "random" "interest_regions" Hs)
      by discriminate.
    rewrite (strategy_is_other self "random" "interest_points" Hs)
      by discriminate.
    cbn [orb]. rewrite !bind_ret_l.
    destruct (new_camera_transf_runs s1) as [cam [s2 [Hcam _]]].
    rewrite (bind_run _ _ _ _ _ _ Hcam).
    match goal with
    | |- context [for_each ?ks ?body ?st0] =>
        destruct (for_each_runs body ks st0 s2) as [st' [s' [ev [Hloop Hp]]]]
    end.
    { intros k st s0.
      destruct (iteration_runs self start_pose noised depth None None None
                  (pose_angles obs_img_pose) k st s0 Hperm Hback Hrend Hs Hle
                  Hshape Hdepth) as [st' [s' [ev [Hit Hp]]]].
      exists st', s', ev. split; [assumption | congruence]. }
    rewrite (bind_run _ _ _ _ _ _ Hloop).
    destruct (pose st') as [p |] eqn:Hpose.
    - exists p. reflexivity.
    - elim Hp; [| reflexivity]. destruct (iter self); [congruence |].
      discriminate. }
  destruct Hrun as [p Hp]. exists p.
  pose proof (outcome_estimate_pose_body self start_pose obs_img
                obs_img_pose (Some depth) s) as Hbody.
  subst run. unfold estimate_pose in *.
  destruct (estimate_pose_body _ _ _ _ _ s) as [[[u | value | e] s'] ev];
    cbn in *; try discriminate.
  injection Hp as ->.
  destruct (Hbody p eq_refl) as [Hsteps [Hrenders [_ Hprior]]].
  auto.
Qed.

Lemma stub_noise_keeps_shape {F} {SF : Scalar F} (kps : list pixel) :
  noise_keeps_shape (stub (F := F) kps).
Proof.
  intros mode param img g [| e]; [reflexivity |]. apply shape_map_img.
Qed.

Lemma stub_backward_succeeds {F} {SF : Scalar F} (kps : list pixel) :
  backward_succeeds (stub (F := F) kps).
Proof.
  intros loss_at cam Hloss. cbn. now destruct (loss_at cam).
Qed.

Lemma flat_renderer_answers_each_row {F} {SF : Scalar F}
      (width height : nat) (c d : F) :
  answers_each_row (flat_renderer width height c d).
Proof.
  intros batch pose. cbn. rewrite !length_map.
  split; symmetry; apply shape0_points.
Qed.

(** The theorem on a grid of two pixels. *)
Lemma random_call_returns_pose_witness :
  let E := stub (F := R) [] in
  let self :=
    stub_estimator 1 1 "random" (flat_renderer 2 1 0%R 0%R) None 0%R in
  let run :=
    estimate_pose self eye4 (flat_image 2 1 (Byte.x00, Byte.x00, Byte.x00))
                  eye4 (Some (flat_image 2 1 0%R)) (stub_world [] 0) in
  exists p,
    fst (fst run) = Returned (Some p) /\
    pose_prior (snd (fst run)) = Some p /\
    map fst (steps (snd run)) = seq 0 (iter self) /\
    map fst (renders (snd run)) = seq 0 (iter self).
Proof.
  intros E self run.
  apply (random_call_returns_pose R Scalar_R E self eye4
           (flat_image 2 1 (Byte.x00, Byte.x00, Byte.x00)) eye4
           (flat_image 2 1 0%R) (stub_world [] 0)).
  - apply stub_permutation_spec.
  - apply stub_noise_keeps_shape.
  - apply stub_backward_succeeds.
  - apply flat_renderer_answers_each_row.
  - reflexivity.
  - discriminate.
  - cbn. lia.
  - reflexivity.
  - reflexivity.
Defined.

(* ----------------------------------------------------------------- *)
(** ** The brightness shift as a saturating sum *)

(** X13. On a value in [0,1] the two masked assignments of the brightness
    shift add the delta and saturate at 0 and 1: the shifted value is
    min(1, max(0, value + delta)) for every delta, and so lies in
    [0,1]. *)
Theorem shift_value_saturates (delta value : R) :
  (0 <= value <= 1)%R ->
  shift_value delta value = Rmin 1 (Rmax 0 (value + delta)) /\
  (0 <= shift_value delta value <= 1)%R.
Proof.
  intros Hv.
  assert (Hsat : forall x : R,
             (x <= 0 -> Rmin 1 (Rmax 0 x) = 0)%R /\
             (0 <= x <= 1 -> Rmin 1 (Rmax 0 x) = x)%R /\
             (1 <= x -> Rmin 1 (Rmax 0 x) = 1)%R).
  { intros x. unfold Rmin, Rmax.
    repeat split; intros Hx;
      destruct (Rle_dec 0 x); destruct (Rle_dec 1 _); lra. }
  assert (Heq : shift_value delta value = Rmin 1 (Rmax 0 (value + delta))).
  { destruct (Hsat (value + delta)%R) as [Hlow [Hmid Hhigh]].
    unfold shift_value; cbn.
    destruct (Rlt_dec delta 0) as [Hneg | Hpos].
    - rewrite (Rltb_true _ _ Hneg), (Rabs_left _ Hneg).
      destruct (Rlt_dec value (- delta)) as [Hsmall | Hbig].
      + rewrite (Rltb_true _ _ Hsmall), Rleb_false by lra.
        symmetry. apply Hlow. lra.
      + rewrite Rltb_false, Rleb_true by lra. symmetry. apply Hmid. lra.
    - rewrite Rltb_false by lra.
      destruct (Rlt_dec (1 - delta) value) as [Hbig | Hsmall].
      + rewrite (Rltb_true _ _ Hbig), Rleb_false by lra.
        symmetry. apply Hhigh. lra.
      + rewrite Rltb_false, Rleb_true by lra. symmetry. apply Hmid. lra. }
  split; [exact Heq |]. rewrite Heq. unfold Rmin, Rmax.
  repeat match goal with
         | |- context [Rle_dec ?x ?y] => destruct (Rle_dec x y)
         end; lra.
Qed.

(** The theorem for the value 1/2 darkened by 1. *)
Lemma shift_value_saturates_witness :
  shift_value (-1)%R (1 / 2)%R = Rmin 1 (Rmax 0 (1 / 2 + -1)) /\
  (0 <= shift_value (-1)%R (1 / 2)%R <= 1)%R.
Proof. apply shift_value_saturates. lra. Defined.

(* ----------------------------------------------------------------- *)
(** ** The learning rate *)

Section Post.
Context {F : Type} {SF : Scalar F} {E : Externals F}.

Lemma post_bind {A B} (m : M A) (f : A -> M B) (Q : B -> Prop) :
  (forall a, post (f a) Q) -> post (bind m f) Q.
Proof.
  intros Hf s b s' ev. unfold bind.
  destruct (m s) as [[[a | value | e] s1] ev1]; try discriminate.
  specialize (Hf a s1). destruct (f a s1) as [[r s2] ev2].
  intros [= -> <- <-]. eapply Hf. reflexivity.
Qed.

Lemma post_ret {A} (a : A) (Q : A -> Prop) : Q a -> post (ret a) Q.
Proof. intros Ha s b s' ev [= <- _ _]. exact Ha. Qed.

Lemma post_iteration_lr (self : Estimator F) (start_pose : mat4 F)
      (obs_img_noised : image (F * F * F)) (obs_img_depth : option (image F))
      (grid : coord_array) (POI not_POI regions : option coord_array)
      (refs : F * F * F * F) (k : nat) (st : locals) :
  post (iteration self start_pose obs_img_noised obs_img_depth grid
                  POI not_POI regions refs k st)
       (fun st' =>
          lr (optim st') =
          smul (lrate self)
               (spow (sdiv (of_Z 8) (of_Z 10))
                     (sdiv (of_Z (Z.of_nat (k + 1))) (of_Z 100)))).
Proof.
  unfold iteration.
  apply post_bind; intros b. apply post_bind; intros target_s.
  apply post_bind; intros _.
  apply post_bind; intros depth_img. apply post_bind; intros depth_s.
  apply post_bind; intros _.
  apply post_bind; intros loss. apply post_bind; intros grad.
  match goal with
  | |- context [adam_step ?a ?b ?c ?d] =>
      destruct (adam_step a b c d) as [moments' cam']
  end.
  apply post_bind; intros _. apply post_bind; intros _.
  now apply post_ret.
Qed.

End Post.

Lemma decay_below_one (x : R) : (0 < x)%R -> (0 < Rpower (8 / 10) x < 1)%R.
Proof.
  intros Hx. unfold Rpower. split; [apply exp_pos |].
  rewrite <- exp_0. apply exp_increasing.
  assert (Hln : (ln (8 / 10) < 0)%R).
  { rewrite <- ln_1. apply ln_increasing; lra. }
  nra.
Qed.

Lemma decay_decreases (x y : R) :
  (x < y)%R -> (Rpower (8 / 10) y < Rpower (8 / 10) x)%R.
Proof.
  intros Hxy. unfold Rpower. apply exp_increasing.
  assert (Hln : (ln (8 / 10) < 0)%R).
  { rewrite <- ln_1. apply ln_increasing; lra. }
  nra.
Qed.

(** X14. An iteration k that completes leaves the optimizer with the
    learning rate lrate * 0.8 ^ ((k + 1) / 100), computed from the
    configured rate and not from the rate before it.  For a positive
    configured rate this rate is positive, below the configured rate,
    and below the rate that the iteration before leaves. *)
Theorem learning_rate_decays
        (E : Externals R) (self : Estimator R) (start_pose : mat4 R)
        (obs_img_noised : image (R * R * R)) (obs_img_depth : option (image R))
        (grid : coord_array) (POI not_POI regions : option coord_array)
        (refs : R * R * R * R) (k : nat)
        (st st1 st' st1' : locals) (s s1 : world) :
  fst (fst (iteration self start_pose obs_img_noised obs_img_depth grid POI
                      not_POI regions refs k st s)) = Val st' ->
  fst (fst (iteration self start_pose obs_img_noised obs_img_depth grid POI
                      not_POI regions refs (k + 1) st1 s1)) = Val st1' ->
  lr (optim st') =
    (lrate self * Rpower (8 / 10) (IZR (Z.of_nat (k + 1)) / 100))%R /\
  ((0 < lrate self)%R ->
   (0 < lr (optim st1') < lr (optim st') /\ lr (optim st') < lrate self)%R).
Proof.
  intros Hk Hk1.
  assert (Hpost : forall j l0 s0 l',
             fst (fst (iteration self start_pose obs_img_noised obs_img_depth
                                 grid POI not_POI regions refs j l0 s0))
             = Val l' ->
             lr (optim l') =
             (lrate self * Rpower (8 / 10) (IZR (Z.of_nat (j + 1)) / 100))%R).
  { intros j l0 s0 l' Hrun.
    change (lr (optim l') =
            smul (lrate self)
                 (spow (sdiv (of_Z 8) (of_Z 10))
                       (sdiv (of_Z (Z.of_nat (j + 1))) (of_Z 100)))).
    apply (post_iteration_lr self start_pose obs_img_noised obs_img_depth
             grid POI not_POI regions refs j l0 s0 l'
             (snd (fst (iteration self start_pose obs_img_noised
                                  obs_img_depth grid POI not_POI regions refs
                                  j l0 s0)))
             (snd (iteration self start_pose obs_img_noised obs_img_depth
                             grid POI not_POI regions refs j l0 s0))).
    destruct (iteration _ _ _ _ _ _ _ _ _ j l0 s0) as [[r s2] ev2].
    cbn in *. now subst r. }
  apply Hpost in Hk, Hk1.
  split; [exact Hk |]. intros Hpos. rewrite Hk, Hk1.
  assert (H0 : (0 < IZR (Z.of_nat (k + 1)) / 100)%R).
  { apply Rdiv_lt_0_compat; [| lra]. apply IZR_lt. lia. }
  assert (H1 : (IZR (Z.of_nat (k + 1)) / 100
                < IZR (Z.of_nat (k + 1 + 1)) / 100)%R).
  { apply Rmult_lt_compat_r; [lra |]. apply IZR_lt. lia. }
  pose proof (decay_below_one _ H0) as [Hp Hb].
  pose proof (decay_below_one _ (Rlt_trans _ _ _ H0 H1)) as [Hp1 _].
  pose proof (decay_decreases _ _ H1) as Hd.
  repeat split; nra.
Qed.

(** The theorem on the iterations 1 and 2 of a call with the strategy
    random on a grid of one pixel. *)
Lemma learning_rate_decays_witness :
  let E := stub (F := R) [] in
  let self :=
    stub_estimator 3 1 "random" (flat_renderer 1 1 0%R 0%R) None 0%R in
  let st0 : locals :=
    {| cam_transf := zero_twist;
       optim := {| moments := adam_init; lr := lrate self |};
       batch := None; pose := None |} in
  exists st' st1' : locals,
    lr (optim st') =
      (lrate self * Rpower (8 / 10) (IZR (Z.of_nat (1 + 1)) / 100))%R /\
    ((0 < lrate self)%R ->
     (0 < lr (optim st1') < lr (optim st') /\ lr (optim st') < lrate self)%R).
Proof.
  intros E self st0. eexists. eexists.
  eapply (learning_rate_decays E self eye4 (flat_image 1 1 (0, 0, 0)%R)
            (Some (flat_image 1 1 0%R)) (reshape_rows (coords self))
            None None None (0, 0, 0, 0)%R 1 st0 st0 _ _
            (stub_world [] 0) (stub_world [] 0)).
  - lazy. reflexivity.
  - lazy. reflexivity.
Defined.

(* ----------------------------------------------------------------- *)
(** ** The losses *)

Lemma fold_left_Rplus_acc (l : list R) (a : R) :
  fold_left Rplus l a = (a + fold_left Rplus l 0)%R.
Proof.
  revert a. induction l as [| x l IH]; intros a; cbn; [ring |].
  rewrite (IH (a + x)%R), (IH (0 + x)%R). ring.
Qed.

Lemma fold_left_Rplus_nonneg (l : list R) :
  Forall (fun x => 0 <= x)%R l -> (0 <= fold_left Rplus l 0)%R.
Proof.
  induction 1 as [| x l Hx _ IH]; cbn; [lra |].
  rewrite fold_left_Rplus_acc. lra.
Qed.

Lemma not_negative_sq (d : fp) : not_negative (sq d).
Proof.
  destruct d as [r |]; cbn; [| exact I].
  pose proof (Rle_0_sqr r) as Hr. unfold Rsqr in Hr. exact Hr.
Qed.

Lemma not_negative_add (a b : fp) :
  not_negative a -> not_negative b -> not_negative (sadd a b).
Proof. destruct a, b; cbn; try trivial. lra. Qed.

Lemma not_negative_sum (l : list fp) (a : fp) :
  Forall not_negative l -> not_negative a ->
  not_negative (fold_left sadd l a).
Proof.
  intros Hl. revert a. induction Hl as [| x l Hx _ IH]; intros a Ha;
    cbn [fold_left]; [assumption |].
  apply IH. now apply not_negative_add.
Qed.

Lemma not_negative_mean (l : list fp) :
  Forall not_negative l -> not_negative (mean l).
Proof.
  intros Hl. unfold mean.
  assert (Hsum : not_negative (fold_left sadd l (of_Z 0))).
  { apply not_negative_sum; [exact Hl |]. apply Rle_refl. }
  destruct (fold_left sadd l (of_Z 0)) as [r |]; cbn; [| exact I].
  destruct (Req_dec_T _ 0) as [_ | Hn]; [exact I |].
  cbn in *. apply Rle_mult_inv_pos; [exact Hsum |].
  assert (Hle : (0 <= IZR (Z.of_nat (length l)))%R) by (apply IZR_le; lia).
  lra.
Qed.

Lemma not_negative_ltb (x : fp) : not_negative x -> sltb x (of_Z 0) = false.
Proof.
  destruct x as [r |]; cbn; [| reflexivity].
  intros Hr. now apply Rltb_false.
Qed.

Lemma sum_of_zeros (l : list fp) :
  Forall (fun x => x = Fin 0) l -> fold_left sadd l (Fin 0) = Fin 0.
Proof.
  induction 1 as [| x l Hx _ IH]; [reflexivity |].
  cbn [fold_left]. rewrite Hx.
  replace (sadd (Fin 0) (Fin 0)) with (Fin 0); [exact IH |].
  cbn. f_equal. ring.
Qed.

Lemma mean_of_zeros (l : list fp) :
  l <> [] -> Forall (fun x => x = Fin 0) l -> mean l = Fin 0.
Proof.
  intros Hne Hl. unfold mean. change (of_Z 0) with (Fin 0).
  rewrite (sum_of_zeros l Hl). cbn.
  destruct (Req_dec_T _ 0) as [Hz | _].
  - exfalso. destruct l as [| x l]; [congruence |].
    apply eq_IZR in Hz. cbn [length] in Hz. lia.
  - f_equal. unfold Rdiv. apply Rmult_0_l.
Qed.

Lemma broadcast_same {A} (x : list A) : broadcast x x = Some (combine x x).
Proof. unfold broadcast. now rewrite Nat.eqb_refl. Qed.

(** X15. A colour loss and a depth loss that have a value are never a
    negative number, and neither is the loss l * loss_rgb + loss_depth
    of the iteration, whatever the entries are (finite or not, and also
    for the empty batch, where they are not-a-number).  For a batch that
    is not empty and has finite entries, each of the two losses is 0
    when the prediction equals the target. *)
Theorem losses_nonnegative
        (rgb target : list (fp * fp * fp)) (depth_val depth_s depth_var : list fp)
        (loss_rgb loss_depth : fp)
        (c : list (R * R * R)) (d : list R) :
  img2mse rgb target = Some loss_rgb ->
  depth2mse depth_val depth_s depth_var = Some loss_depth ->
  c <> [] -> d <> [] ->
  sltb loss_rgb (of_Z 0) = false /\
  sltb loss_depth (of_Z 0) = false /\
  sltb (sadd (smul Globals.l loss_rgb) loss_depth) (of_Z 0) = false /\
  img2mse (finite_colours c) (finite_colours c) = Some (Fin 0) /\
  depth2mse (map Fin d) (map Fin d) depth_var = Some (Fin 0).
Proof.
  intros Hrgb Hdepth Hc Hd.
  assert (Hn1 : not_negative loss_rgb).
  { unfold img2mse in Hrgb. destruct (broadcast rgb target) as [rows |];
      [| discriminate].
    injection Hrgb as <-. apply not_negative_mean.
    apply Forall_forall. intros e He. apply in_flat_map in He.
    destruct He as [[[[r g] b] [[r' g'] b']] [_ He]].
    cbn [In] in He.
    destruct He as [<- | [<- | [<- | []]]]; apply not_negative_sq. }
  assert (Hn2 : not_negative loss_depth).
  { unfold depth2mse in Hdepth.
    destruct (broadcast depth_val depth_s) as [rows |]; [| discriminate].
    injection Hdepth as <-. apply not_negative_mean.
    apply Forall_forall. intros e He. apply in_map_iff in He.
    destruct He as [[a b] [<- _]]. apply not_negative_sq. }
  split; [now apply not_negative_ltb |].
  split; [now apply not_negative_ltb |]. split.
  { apply not_negative_ltb. apply not_negative_add; [| exact Hn2].
    destruct loss_rgb as [r |]; cbn in *; [lra | exact I]. }
  split.
  - unfold img2mse. rewrite broadcast_same. cbn [option_map]. f_equal.
    apply mean_of_zeros.
    + destruct c as [| [[r g] b] c]; [congruence | discriminate].
    + apply Forall_forall. intros e He. apply in_flat_map in He.
      destruct He as [[[[r g] b] [[r' g'] b']] [Hin He]].
      assert (Heq : (r, g, b) = (r', g', b')).
      { clear - Hin. induction (finite_colours c) as [| x l IH];
          [contradiction |].
        destruct Hin as [Hx | Hin]; [now inversion Hx | now apply IH]. }
      assert (Hfin : exists x y z, (r, g, b) = (Fin x, Fin y, Fin z)).
      { apply in_combine_l in Hin. unfold finite_colours in Hin.
        apply in_map_iff in Hin. destruct Hin as [[[x y] z] [Hxyz _]].
        now exists x, y, z. }
      destruct Hfin as [x [y [z [= -> -> ->]]]].
      injection Heq as <- <- <-. cbn [In] in He.
      destruct He as [<- | [<- | [<- | []]]]; unfold sq; cbn; f_equal; ring.
  - unfold depth2mse. rewrite broadcast_same. cbn [option_map]. f_equal.
    apply mean_of_zeros.
    + destruct d; [congruence | discriminate].
    + apply Forall_forall. intros e He. apply in_map_iff in He.
      destruct He as [[a b] [<- Hin]].
      assert (Heq : a = b).
      { clear - Hin. induction (map Fin d) as [| x l IH]; [contradiction |].
        destruct Hin as [Hx | Hin]; [now inversion Hx | now apply IH]. }
      subst b. apply in_combine_l, in_map_iff in Hin.
      destruct Hin as [x [<- _]]. unfold sq; cbn. f_equal. ring.
Qed.

(** The theorem on a batch of one row with a not-a-number depth. *)
Lemma losses_nonnegative_witness :
  let rgb := [(Fin 1, Fin 0, Fin 0)] in
  let target := [(Fin 0, Fin 0, Fin 0)] in
  sltb (mean [sq (ssub (Fin 1) (Fin 0)); sq (ssub (Fin 0) (Fin 0));
              sq (ssub (Fin 0) (Fin 0))]) (of_Z 0) = false /\
  sltb (mean [sq (ssub NaN (Fin 2))]) (of_Z 0) = false /\
  sltb (sadd (smul Globals.l
                   (mean [sq (ssub (Fin 1) (Fin 0)); sq (ssub (Fin 0) (Fin 0));
                          sq (ssub (Fin 0) (Fin 0))]))
             (mean [sq (ssub NaN (Fin 2))])) (of_Z 0) = false /\
  img2mse (finite_colours [(1, 2, 3)%R]) (finite_colours [(1, 2, 3)%R])
  = Some (Fin 0) /\
  depth2mse (map Fin [5%R]) (map Fin [5%R]) [] = Some (Fin 0).
Proof.
  intros rgb target.
  apply (losses_nonnegative rgb target [NaN] [Fin 2] []
           _ _ [(1, 2, 3)%R] [5%R]);
    [reflexivity | reflexivity | discriminate | discriminate].
Defined.

(** X16. With an empty batch the means run over no entry: in the
    arithmetic with not-a-number each of the two losses is not-a-number,
    also against a target of one row, and so is the loss of the
    iteration. *)
Theorem empty_batch_loss_is_nan
        (t : fp * fp * fp) (d : fp) (depth_var : list fp) :
  img2mse [] [] = Some NaN /\
  img2mse [] [t] = Some NaN /\
  depth2mse [] [] depth_var = Some NaN /\
  depth2mse [] [d] depth_var = Some NaN /\
  sadd (smul Globals.l NaN) NaN = NaN /\
  isfinite NaN = false.
Proof.
  assert (Hmean : mean (F := fp) [] = NaN).
  { unfold mean; cbn. now destruct (Req_dec_T 0 0). }
  unfold img2mse, depth2mse, broadcast. cbn [length Nat.eqb option_map map
    flat_map combine].
  rewrite Hmean. repeat split.
Qed.

(* ----------------------------------------------------------------- *)
(** ** The coarse distributions *)

Lemma total_le (e : list R) (x : R) :
  Forall (fun y => 0 <= y)%R e -> In x e -> (x <= fold_left Rplus e 0)%R.
Proof.
  intros He Hx. induction He as [| y l Hy Hl IH]; [contradiction |].
  cbn. rewrite fold_left_Rplus_acc.
  pose proof (fold_left_Rplus_nonneg l Hl).
  destruct Hx as [-> | Hx]; [lra |]. specialize (IH Hx). lra.
Qed.

Lemma total_scaled (e : list R) (c : R) :
  fold_left Rplus (map (fun y => y / c)%R e) 0%R
  = (fold_left Rplus e 0 / c)%R.
Proof.
  induction e as [| y l IH]; cbn; [unfold Rdiv; ring |].
  rewrite fold_left_Rplus_acc, IH, (fold_left_Rplus_acc l (0 + y)).
  unfold Rdiv. ring.
Qed.

Lemma normalized_distribution (e : list R) :
  Forall (fun y => 0 <= y)%R e -> fold_left Rplus e 0%R <> 0%R ->
  fold_left Rplus (map (fun y => y / fold_left Rplus e 0)%R e) 0%R = 1%R /\
  Forall (fun p => 0 <= p <= 1)%R
         (map (fun y => y / fold_left Rplus e 0)%R e).
Proof.
  intros He Hsum. pose proof (fold_left_Rplus_nonneg e He) as Hpos.
  assert (Hlt : (0 < fold_left Rplus e 0)%R) by lra.
  split.
  - rewrite total_scaled. now apply Rdiv_diag.
  - apply Forall_forall. intros p Hp. apply in_map_iff in Hp.
    destruct Hp as [y [<- Hy]].
    pose proof (total_le e y He Hy) as Hle.
    assert (H0 : (0 <= y)%R) by (now apply (proj1 (Forall_forall _ _) He)).
    split.
    + now apply Rle_mult_inv_pos.
    + apply Rmult_le_reg_r with (fold_left Rplus e 0%R); [assumption |].
      unfold Rdiv. rewrite Rmult_assoc, Rinv_l by lra. lra.
Qed.

(** X17. When the prediction differs from the target in some entry
    (the squared errors do not sum to 0), the lambdas [coarse] and
    [coarse_depth] give a probability distribution, as the argument [p] of
    [np.random.choice] has to be: entries between 0 and 1 that sum to 1
    (exact arithmetic). *)
Theorem coarse_is_a_distribution
        (x y : list (R * R * R)) (dx dy : list R) :
  total (row_errors x y) <> 0%R ->
  total (errors dx dy) <> 0%R ->
  (total (coarse x y) = 1%R /\
   Forall (fun p => 0 <= p <= 1)%R (coarse x y)) /\
  (total (coarse_depth dx dy) = 1%R /\
   Forall (fun p => 0 <= p <= 1)%R (coarse_depth dx dy)).
Proof.
  intros Hx Hd. split.
  - apply normalized_distribution; [| exact Hx].
    apply Forall_forall. intros e He. apply in_map_iff in He.
    destruct He as [[[[r g] b] [[r' g'] b']] [<- _]].
    change (0 <= (r - r') * (r - r') + (g - g') * (g - g')
                 + (b - b') * (b - b'))%R.
    pose proof (Rle_0_sqr (r - r')). pose proof (Rle_0_sqr (g - g')).
    pose proof (Rle_0_sqr (b - b')). unfold Rsqr in *. lra.
  - apply normalized_distribution; [| exact Hd].
    apply Forall_forall. intros e He. apply in_map_iff in He.
    destruct He as [[a b] [<- _]].
    change (0 <= (a - b) * (a - b))%R.
    pose proof (Rle_0_sqr (a - b)). unfold Rsqr in *. lra.
Qed.

Lemma coarse_is_a_distribution_witness :
  let x := [(1, 0, 0); (0, 0, 0)]%R in
  let y := [(0, 0, 0); (0, 2, 0)]%R in
  let dx := [1; 3]%R in
  let dy := [0; 1]%R in
  total (row_errors x y) <> 0%R /\
  total (errors dx dy) <> 0%R /\
  (total (coarse x y) = 1%R /\
   Forall (fun p => 0 <= p <= 1)%R (coarse x y)) /\
  (total (coarse_depth dx dy) = 1%R /\
   Forall (fun p => 0 <= p <= 1)%R (coarse_depth dx dy)).
Proof.
  intros x y dx dy.
  assert (Hx : total (row_errors x y) <> 0%R)
    by (unfold total, row_errors, sq; cbn; lra).
  assert (Hd : total (errors dx dy) <> 0%R)
    by (unfold total, errors, sq; cbn; lra).
  split; [exact Hx |]. split; [exact Hd |].
  exact (coarse_is_a_distribution x y dx dy Hx Hd).
Defined.

(** X18. When the prediction equals the target, the squared errors sum to
    0 and every entry of [coarse_depth] and of [coarse] is not-a-number
    (arithmetic with not-a-number): no distribution to sample from. *)
Theorem coarse_of_exact_prediction
        (l : list R) (c : list (R * R * R)) :
  let lift := fun '(r, g, b) => (Fin r, Fin g, Fin b) in
  coarse_depth (map Fin l) (map Fin l) = map (fun _ => NaN) l /\
  coarse (map lift c) (map lift c) = map (fun _ => NaN) c.
Proof.
  intros lift.
  assert (Hacc : forall (e : list fp),
             Forall (fun v => v = Fin 0) e -> total e = Fin 0).
  { intros e He. unfold total. change (of_Z 0) with (Fin 0).
    induction He as [| v e Hv _ IH]; [reflexivity |].
    cbn [fold_left]. rewrite Hv.
    replace (sadd (Fin 0) (Fin 0)) with (Fin 0); [exact IH |].
    cbn. f_equal. ring. }
  assert (Hdiv : forall v, sdiv v (Fin 0) = NaN).
  { intros [r |]; cbn; [| reflexivity]. now destruct (Req_dec_T 0 0). }
  split.
  - unfold coarse_depth.
    assert (He : Forall (fun v => v = Fin 0) (errors (map Fin l) (map Fin l))).
    { unfold errors. induction l as [| a l IH]; cbn [map combine]; constructor.
      - unfold sq; cbn. f_equal. ring.
      - exact IH. }
    rewrite (Hacc _ He). unfold errors.
    clear He. induction l as [| a l IH]; [reflexivity |].
    cbn [map combine]. rewrite Hdiv. f_equal. apply IH.
  - unfold coarse.
    assert (He : Forall (fun v => v = Fin 0)
                        (row_errors (map lift c) (map lift c))).
    { unfold row_errors. induction c as [| [[r g] b] c IH];
        cbn [map combine]; constructor.
      - unfold sq; cbn. f_equal. ring.
      - exact IH. }
    rewrite (Hacc _ He). unfold row_errors.
    clear He. induction c as [| [[r g] b] c IH]; [reflexivity |].
    cbn [map combine]. rewrite Hdiv. f_equal. apply IH.
Qed.

(* ----------------------------------------------------------------- *)
(** ** The planar example *)

(** X19. [rot_matrix] is a rotation: the matrix of the sum of two angles
    is the product of their matrices, the matrix of the angle 0 is the
    identity, the matrix of the opposite angle (used for world to body)
    is the transpose and the inverse, and the determinant is 1. *)
Theorem rot_matrix_is_a_rotation (a b : R) :
  Piano.matmul2 (Piano.rot_matrix a) (Piano.rot_matrix b)
  = Piano.rot_matrix (a + b) /\
  Piano.rot_matrix 0 = Piano.eye2 /\
  Piano.rot_matrix (- a) = Piano.transpose2 (Piano.rot_matrix a) /\
  Piano.matmul2 (Piano.rot_matrix (- a)) (Piano.rot_matrix a) = Piano.eye2 /\
  Piano.det2 (Piano.rot_matrix a) = 1%R.
Proof.
  pose proof (sin2_cos2 a) as Hsc. unfold Rsqr in Hsc.
  unfold Piano.matmul2, Piano.rot_matrix, Piano.eye2, Piano.transpose2,
    Piano.det2.
  rewrite cos_plus, sin_plus, cos_0, sin_0, cos_neg, sin_neg.
  repeat split; tuple_eq; try ring; try lra; try nra.
Qed.

(** X20. [body_to_world] places the body rigidly: for every state the
    distance between two placed points is the distance between the
    points, the origin of the body goes to the position of the state, and
    the matrix of the opposite angle applied to the placed point minus
    the position gives the point back.  The result has one row per state
    and one entry per point. *)
Theorem body_to_world_is_rigid
        (self : Piano.System) (points : list Piano.vec2)
        (x y rot : R) (p q : Piano.vec2) :
  let s := (x, y, rot) in
  Piano.dist2 (Piano.place s p) (Piano.place s q) = Piano.dist2 p q /\
  Piano.place s (0, 0)%R = (x, y) /\
  Piano.matvec2 (Piano.rot_matrix (- rot))
                (fst (Piano.place s p) - x, snd (Piano.place s p) - y)%R = p /\
  length (Piano.body_to_world self points)
  = S (S (length (Piano.states self))) /\
  Forall (fun row => length row = length points)
         (Piano.body_to_world self points).
Proof.
  intros s. destruct p as [p1 p2], q as [q1 q2].
  pose proof (sin2_cos2 rot) as Hsc. unfold Rsqr in Hsc.
  repeat split.
  - unfold Piano.dist2, s, Piano.place, Piano.matvec2, Piano.rot_matrix.
    cbn [fst snd]. f_equal.
    transitivity ((sin rot * sin rot + cos rot * cos rot)
                  * ((p1 - q1) * (p1 - q1) + (p2 - q2) * (p2 - q2)))%R;
      [ring | rewrite Hsc; ring].
  - unfold s, Piano.place, Piano.matvec2, Piano.rot_matrix.
    tuple_eq; ring.
  - unfold s, Piano.place, Piano.matvec2, Piano.rot_matrix.
    rewrite cos_neg, sin_neg. cbn [fst snd].
    tuple_eq.
    + transitivity ((sin rot * sin rot + cos rot * cos rot) * p1)%R;
        [ring | rewrite Hsc; ring].
    + transitivity ((sin rot * sin rot + cos rot * cos rot) * p2)%R;
        [ring | rewrite Hsc; ring].
  - unfold Piano.body_to_world, Piano.get_states.
    rewrite length_map. cbn [app length]. rewrite length_app. cbn. lia.
  - unfold Piano.body_to_world. apply Forall_forall. intros row Hrow.
    apply in_map_iff in Hrow. destruct Hrow as [st [<- _]].
    apply length_map.
Qed.

Lemma removelast_map_seq {A} (f : nat -> A) (a n : nat) :
  removelast (map f (seq a (S n))) = map f (seq a n).
Proof. rewrite seq_S, map_app. cbn [map]. apply removelast_last. Qed.

Lemma inner_linspace (a b : R) (m : nat) :
  Piano.inner (Piano.linspace a b (S (S m)))
  = map (fun i => a + INR i * ((b - a) / INR (S m)))%R (seq 1 m).
Proof.
  unfold Piano.inner, Piano.linspace.
  rewrite removelast_map_seq. cbn [seq map tl Nat.sub].
  reflexivity.
Qed.

Lemma blend_ends (s e : Piano.state) :
  Piano.blend 0 s e = s /\ Piano.blend 1 s e = e.
Proof.
  destruct s as [[sx sy] sa], e as [[ex ey] ea]. unfold Piano.blend.
  split; tuple_eq; ring.
Qed.

Lemma initial_states (s e : Piano.state) (m : nat) :
  Piano.get_states (Piano.init s e (S (S m)))
  = map (fun i => Piano.blend (INR i / INR (S m)) s e) (seq 0 (S (S m))).
Proof.
  assert (Hm : INR (S m) <> 0%R) by (apply not_0_INR; lia).
  unfold Piano.get_states, Piano.init.
  cbn [Piano.start_state Piano.states Piano.end_state].
  rewrite inner_linspace, map_map.
  rewrite (seq_S (S m) 0). cbn [seq map app]. rewrite map_app. cbn [map].
  f_equal; [| f_equal].
  - symmetry. replace (INR 0 / INR (S m))%R with 0%R
      by (cbn [INR]; unfold Rdiv; ring).
    apply blend_ends.
  - apply map_ext. intros i. f_equal. field. exact Hm.
  - f_equal. symmetry. cbn [Nat.add].
    replace (INR (S m) / INR (S m))%R with 1%R by (field; exact Hm).
    apply blend_ends.
Qed.

Lemma short_states (s e : Piano.state) (steps : nat) :
  steps < 2 -> Piano.get_states (Piano.init s e steps) = [s; e].
Proof.
  intros Hs. destruct steps as [| [| m]]; [reflexivity | reflexivity | lia].
Qed.

Lemma length_get_actions (self : Piano.System) :
  length (Piano.get_actions self) = S (length (Piano.states self)).
Proof.
  unfold Piano.get_actions. rewrite length_map, length_combine.
  unfold Piano.get_states. cbn [app tl].
  assert (Hl : forall (x : Piano.state) l,
             length (removelast (x :: l)) = length l).
  { intros x l. revert x. induction l as [| y l IH]; intros x;
      [reflexivity |].
    change (removelast (x :: y :: l)) with (x :: removelast (y :: l)).
    cbn [length]. now rewrite IH. }
  rewrite Hl. rewrite Nat.min_id. rewrite length_app. cbn. lia.
Qed.

Lemma length_get_cost (self : Piano.System) :
  length (Piano.get_cost self) = S (length (Piano.states self)).
Proof.
  unfold Piano.get_cost. rewrite length_map, length_combine.
  rewrite length_get_actions.
  unfold Piano.body_to_world, Piano.get_states. cbn [app map tl].
  rewrite length_map, length_app. cbn [length].
  rewrite Nat.add_1_r. apply Nat.min_id.
Qed.

(** X21. A trajectory has two states more than it optimises, and one
    action and one cost between each state and the next.  At
    initialisation that is [steps] states when [steps] is 2 or more, and
    the start and the end state alone (2 states, 1 action) when [steps]
    is 0 or 1. *)
Theorem trajectory_lengths
        (self : Piano.System) (s e : Piano.state) (steps : nat) :
  length (Piano.get_states self) = S (S (length (Piano.states self))) /\
  length (Piano.get_actions self) = S (length (Piano.states self)) /\
  length (Piano.get_cost self) = S (length (Piano.states self)) /\
  length (Piano.get_states (Piano.init s e steps)) = Nat.max steps 2 /\
  length (Piano.get_actions (Piano.init s e steps)) = Nat.max steps 2 - 1 /\
  hd_error (Piano.get_states (Piano.init s e steps)) = Some s /\
  last (Piano.get_states (Piano.init s e steps)) s = e.
Proof.
  assert (Hlen : forall t : Piano.System,
             length (Piano.get_states t) = S (S (length (Piano.states t)))).
  { intros t. unfold Piano.get_states. cbn [app length].
    rewrite length_app. cbn. lia. }
  assert (Hinit : length (Piano.get_states (Piano.init s e steps))
                  = Nat.max steps 2).
  { destruct steps as [| [| m]]; [reflexivity | reflexivity |].
    rewrite initial_states, length_map, length_seq. lia. }
  split; [apply Hlen |]. split; [apply length_get_actions |].
  split; [apply length_get_cost |]. split; [exact Hinit |]. split.
  { rewrite length_get_actions. rewrite Hlen in Hinit. lia. }
  split; [reflexivity |].
  unfold Piano.get_states. rewrite app_assoc. apply last_last.
Qed.

(** X22. With 2 steps or more the initial trajectory is the linear
    interpolation of the start and the end state at equally spaced
    parameters: state number [i] is
    [(1 - i/(steps-1)) * start + i/(steps-1) * end]. *)
Theorem initial_trajectory_interpolates
        (s e : Piano.state) (steps : nat) :
  2 <= steps ->
  Piano.get_states (Piano.init s e steps)
  = map (fun i => Piano.blend (INR i / INR (steps - 1)) s e) (seq 0 steps).
Proof.
  intros Hs. destruct steps as [| [| m]]; [lia | lia |].
  rewrite initial_states. reflexivity.
Qed.

Lemma initial_trajectory_interpolates_witness :
  Piano.get_states (Piano.init (4, 0, 0)%R (0, 4, 1)%R 3)
  = map (fun i => Piano.blend (INR i / INR (3 - 1)) (4, 0, 0)%R (0, 4, 1)%R)
        (seq 0 3).
Proof.
  apply (initial_trajectory_interpolates (4, 0, 0)%R (0, 4, 1)%R 3). lia.
Defined.

Lemma action_speed (dt px py pa nx ny na : R) :
  let a := Piano.action dt (px, py, pa) (nx, ny, na) in
  (fst (fst a) * fst (fst a) + snd (fst a) * snd (fst a)
   = ((nx - px) * (nx - px) + (ny - py) * (ny - py)) / (dt * dt))%R /\
  snd a = ((na - pa) / dt)%R.
Proof.
  intros a. unfold a, Piano.action, Piano.matvec2, Piano.rot_matrix.
  cbn [fst snd]. split; [| reflexivity].
  pose proof (sin2_cos2 (- ((pa + na) / 2))) as Hsc. unfold Rsqr in Hsc.
  set (c := cos (- ((pa + na) / 2))) in *.
  set (z := sin (- ((pa + na) / 2))) in *.
  unfold Rdiv. rewrite Rinv_mult.
  transitivity ((z * z + c * c)
                * ((nx - px) * (nx - px) + (ny - py) * (ny - py))
                * (/ dt * / dt))%R; [ring | rewrite Hsc; ring].
Qed.

(** X23. An action keeps the speed of the displacement: the rotation to
    the body frame does not change the length of the linear velocity,
    which is the distance between the two positions divided by [dt]
    (squared: the squared distance divided by [dt * dt]); the rotational
    velocity is the difference of the two angles divided by [dt]. *)
Theorem action_keeps_speed (dt px py pa nx ny na : R) :
  let a := Piano.action dt (px, py, pa) (nx, ny, na) in
  (fst (fst a) * fst (fst a) + snd (fst a) * snd (fst a)
   = ((nx - px) * (nx - px) + (ny - py) * (ny - py)) / (dt * dt))%R /\
  snd a = ((na - pa) / dt)%R.
Proof. exact (action_speed dt px py pa nx ny na). Qed.

Lemma combine_map_seq {A} (h : nat -> A) (a k : nat) :
  combine (map h (seq a k)) (map h (seq (S a) k))
  = map (fun i => (h i, h (S i))) (seq a k).
Proof.
  revert a. induction k as [| k IH]; intros a; [reflexivity |].
  cbn [seq map combine]. f_equal. apply IH.
Qed.

Lemma initial_actions (s e : Piano.state) (m : nat) :
  let h := fun i => Piano.blend (INR i / INR (S m)) s e in
  Piano.get_actions (Piano.init s e (S (S m)))
  = map (fun i => Piano.action (1 / 10) (h i) (h (S i))) (seq 0 (S m)).
Proof.
  intros h. unfold Piano.get_actions. rewrite initial_states. fold h.
  rewrite removelast_map_seq.
  change (tl (map h (seq 0 (S (S m))))) with (map h (seq 1 (S m))).
  rewrite combine_map_seq, map_map. reflexivity.
Qed.

(** X24. With 2 steps or more every action of the initial trajectory has
    the same rotational velocity, the difference of the end and the start
    angle over [(steps - 1) * dt], and the same speed, the distance of
    the end and the start position over [(steps - 1) * dt] (squared). *)
Theorem initial_actions_are_even
        (sx sy sa ex ey ea : R) (steps : nat) :
  2 <= steps ->
  Forall (fun a =>
            snd a = ((ea - sa) / INR (steps - 1) / (1 / 10))%R /\
            (fst (fst a) * fst (fst a) + snd (fst a) * snd (fst a)
             = ((ex - sx) * (ex - sx) + (ey - sy) * (ey - sy))
               / (INR (steps - 1) * INR (steps - 1))
               / ((1 / 10) * (1 / 10)))%R)
         (Piano.get_actions (Piano.init (sx, sy, sa) (ex, ey, ea) steps)).
Proof.
  intros Hs. destruct steps as [| [| m]]; [lia | lia |].
  change (S (S m) - 1) with (S m - 0). rewrite Nat.sub_0_r.
  rewrite initial_actions. apply Forall_forall. intros a Ha.
  apply in_map_iff in Ha. destruct Ha as [i [<- _]].
  unfold Piano.blend.
  match goal with
  | |- context [Piano.action ?d (?x, ?y, ?z) (?x', ?y', ?z')] =>
      destruct (action_speed d x y z x' y' z') as [Hv Hw]
  end.
  cbv zeta in Hv, Hw. rewrite Hv, Hw. clear Hv Hw.
  rewrite S_INR. unfold Rdiv. rewrite !Rinv_mult. split; ring.
Qed.

Lemma initial_actions_are_even_witness :
  Forall (fun a =>
            snd a = ((1 - 0) / INR (3 - 1) / (1 / 10))%R /\
            (fst (fst a) * fst (fst a) + snd (fst a) * snd (fst a)
             = ((0 - 4) * (0 - 4) + (4 - 0) * (4 - 0))
               / (INR (3 - 1) * INR (3 - 1))
               / ((1 / 10) * (1 / 10)))%R)
         (Piano.get_actions (Piano.init (4, 0, 0)%R (0, 4, 1)%R 3)).
Proof. apply (initial_actions_are_even 4 0 0 0 4 1 3). lia. Defined.

Lemma sigmoid_bounds (x : R) : (0 < Piano.sigmoid x < 1)%R.
Proof.
  unfold Piano.sigmoid. pose proof (exp_pos (- x)) as He.
  split.
  - apply Rdiv_lt_0_compat; lra.
  - apply Rmult_lt_reg_r with (1 + exp (- x))%R; [lra |].
    unfold Rdiv. rewrite Rmult_assoc, Rinv_l by lra. lra.
Qed.

Lemma sigmoid_monotone (x y : R) :
  (x <= y)%R -> (Piano.sigmoid x <= Piano.sigmoid y)%R.
Proof.
  intros Hxy. unfold Piano.sigmoid.
  pose proof (exp_pos (- x)) as Hx. pose proof (exp_pos (- y)) as Hy.
  assert (He : (exp (- y) <= exp (- x))%R).
  { destruct Hxy as [Hlt | ->]; [| lra].
    left. apply exp_increasing. lra. }
  unfold Rdiv. rewrite !Rmult_1_l.
  apply Rinv_le_contravar; lra.
Qed.

(** X25. The density [nerf] lies between 0 and 1 (both included: in
    floating point the sigmoid reaches them far from the corner), is 1/4
    at the corner (1, 1), and does not decrease when a coordinate
    grows. *)
Theorem nerf_is_a_density (x y x' y' : R) :
  (0 <= Piano.nerf (x, y) <= 1)%R /\
  Piano.nerf (1, 1)%R = (1 / 4)%R /\
  ((x <= x')%R -> (y <= y')%R ->
   (Piano.nerf (x, y) <= Piano.nerf (x', y'))%R).
Proof.
  unfold Piano.nerf. cbv zeta.
  pose proof (sigmoid_bounds (8 * (y - 1))) as Hy.
  pose proof (sigmoid_bounds (8 * (x - 1))) as Hx.
  split; [split; nra |]. split.
  - unfold Piano.sigmoid.
    replace (8 * (1 - 1))%R with 0%R by ring.
    rewrite Ropp_0, exp_0. field.
  - intros Hxx Hyy.
    pose proof (sigmoid_bounds (8 * (y' - 1))) as Hy'.
    pose proof (sigmoid_bounds (8 * (x' - 1))) as Hx'.
    pose proof (sigmoid_monotone (8 * (y - 1)) (8 * (y' - 1))) as My.
    pose proof (sigmoid_monotone (8 * (x - 1)) (8 * (x' - 1))) as Mx.
    specialize (My ltac:(lra)). specialize (Mx ltac:(lra)).
    apply Rmult_le_compat; lra.
Qed.

Lemma fold_right_Rplus_nonneg (l : list R) :
  Forall (fun x => 0 <= x)%R l -> (0 <= fold_right Rplus 0 l)%R.
Proof. induction 1 as [| x l Hx _ IH]; cbn; lra. Qed.

Lemma piano_mean_nonneg (l : list R) :
  Forall (fun x => 0 <= x)%R l -> (0 <= Piano.mean l)%R.
Proof.
  intros Hl. unfold Piano.mean.
  pose proof (fold_right_Rplus_nonneg l Hl) as Hsum.
  destruct l as [| x l]; [cbn; unfold Rdiv; rewrite Rinv_0; lra |].
  apply Rle_mult_inv_pos; [assumption |]. apply lt_0_INR. cbn [length]. lia.
Qed.

Lemma cost_nonneg (dt : R) (act : Piano.state) (body : list Piano.vec2) :
  (0 <= dt)%R -> (0 <= Piano.cost dt act body)%R.
Proof.
  intros Hdt. destruct act as [[a0 a1] a2]. unfold Piano.cost. cbv zeta.
  assert (H4 : forall r : R, (0 <= r ^ 4)%R).
  { intros r. replace (r ^ 4)%R with ((r * r) * (r * r))%R by ring.
    apply Rle_0_sqr. }
  pose proof (H4 a0). pose proof (H4 a1). pose proof (H4 a2).
  assert (Hmean : (0 <= Piano.mean (map (fun p => Piano.nerf p ^ 2) body))%R).
  { apply piano_mean_nonneg. apply Forall_forall. intros d Hd.
    apply in_map_iff in Hd. destruct Hd as [p [<- _]].
    apply pow2_ge_0. }
  pose proof (sqrt_pos ((a0 ^ 4) ^ 2 + (a1 ^ 4) ^ 2)) as Hsqrt.
  assert (Hcol : (0 <= Piano.mean (map (fun p => Piano.nerf p ^ 2) body)
                      * (sqrt ((a0 ^ 4) ^ 2 + (a1 ^ 4) ^ 2) * dt))%R).
  { apply Rmult_le_pos; [exact Hmean |]. now apply Rmult_le_pos. }
  lra.
Qed.

(** X26. With a time step that is not negative (it is 0.1 in every
    trajectory the code builds) no entry of [get_cost] is negative, and
    neither is [total_cost]. *)
Theorem cost_is_never_negative (self : Piano.System) :
  (0 <= Piano.dt self)%R ->
  Forall (fun c => 0 <= c)%R (Piano.get_cost self) /\
  (0 <= Piano.total_cost self)%R.
Proof.
  intros Hdt.
  assert (Hall : Forall (fun c => 0 <= c)%R (Piano.get_cost self)).
  { unfold Piano.get_cost. apply Forall_forall. intros c Hc.
    apply in_map_iff in Hc. destruct Hc as [[act body] [<- _]].
    now apply cost_nonneg. }
  split; [exact Hall |]. now apply fold_right_Rplus_nonneg.
Qed.

Lemma cost_is_never_negative_witness :
  let self := Piano.init (4, 0, 0)%R (0, 4, 1)%R 20 in
  (0 <= Piano.dt self)%R /\
  Forall (fun c => 0 <= c)%R (Piano.get_cost self) /\
  (0 <= Piano.total_cost self)%R.
Proof.
  intros self.
  assert (Hdt : (0 <= Piano.dt self)%R) by (cbn; lra).
  split; [exact Hdt |]. exact (cost_is_never_negative self Hdt).
Defined.

(** In exact arithmetic a trajectory that starts where it ends stands
    still at initialisation, whatever the number of steps. *)
Lemma standing_still (s : Piano.state) (steps : nat) :
  Forall (fun st => st = s) (Piano.get_states (Piano.init s s steps)) /\
  Forall (fun a => a = (0, 0, 0)%R) (Piano.get_actions (Piano.init s s steps)) /\
  Piano.total_cost (Piano.init s s steps) = 0%R.
Proof.
  assert (Hblend : forall t, Piano.blend t s s = s).
  { intros t. destruct s as [[sx sy] sa]. unfold Piano.blend.
    tuple_eq; ring. }
  assert (Hstates : Forall (fun st => st = s)
                           (Piano.get_states (Piano.init s s steps))).
  { unfold Piano.get_states, Piano.init.
    cbn [Piano.start_state Piano.states Piano.end_state].
    apply Forall_app. split; [repeat constructor |].
    apply Forall_app. split; [| repeat constructor].
    apply Forall_forall. intros st Hst. apply in_map_iff in Hst.
    destruct Hst as [t [<- _]]. apply Hblend. }
  assert (Haction : forall d, Piano.action d s s = (0, 0, 0)%R).
  { intros d. destruct s as [[sx sy] sa].
    unfold Piano.action, Piano.matvec2, Piano.rot_matrix.
    unfold Rdiv. tuple_eq; ring. }
  assert (Hin_removelast : forall (l : list Piano.state) x,
             In x (removelast l) -> In x l).
  { induction l as [| y l IH]; intros x Hx; [contradiction |].
    destruct l as [| z l]; [contradiction |].
    change (removelast (y :: z :: l)) with (y :: removelast (z :: l)) in Hx.
    destruct Hx as [-> | Hx]; [now left | right; now apply IH]. }
  assert (Hin_tl : forall (l : list Piano.state) x, In x (tl l) -> In x l).
  { intros [| y l] x Hx; [contradiction | now right]. }
  assert (Hactions : Forall (fun a => a = (0, 0, 0)%R)
                            (Piano.get_actions (Piano.init s s steps))).
  { unfold Piano.get_actions. apply Forall_forall. intros a Ha.
    apply in_map_iff in Ha. destruct Ha as [[p n] [<- Hpn]].
    pose proof (in_combine_l _ _ _ _ Hpn) as Hp.
    pose proof (in_combine_r _ _ _ _ Hpn) as Hn.
    apply Hin_removelast in Hp. apply Hin_tl in Hn.
    rewrite Forall_forall in Hstates.
    rewrite (Hstates p Hp), (Hstates n Hn). apply Haction. }
  split; [exact Hstates |]. split; [exact Hactions |].
  unfold Piano.total_cost, Piano.get_cost.
  assert (Hzero : forall l : list R,
             Forall (fun c => c = 0%R) l -> fold_right Rplus 0%R l = 0%R).
  { induction 1 as [| c l Hc _ IH]; cbn; [reflexivity | lra]. }
  apply Hzero. apply Forall_forall. intros c Hc.
  apply in_map_iff in Hc. destruct Hc as [[act body] [<- Hab]].
  apply in_combine_l in Hab. rewrite Forall_forall in Hactions.
  rewrite (Hactions act Hab). unfold Piano.cost. cbv zeta.
  replace ((0 ^ 4) ^ 2 + (0 ^ 4) ^ 2)%R with 0%R by ring.
  rewrite sqrt_0. ring.
Qed.

(** X27. A trajectory of at most 2 steps that starts where it ends
    stands still at initialisation: it has no state between the start
    and the end state, its one action is zero and its total cost is 0.
    (With more steps the states in between are interpolated, and equal
    the start state in exact arithmetic only.) *)
Theorem standing_still_costs_nothing (s : Piano.state) (steps : nat) :
  steps <= 2 ->
  Piano.get_states (Piano.init s s steps) = [s; s] /\
  Piano.get_actions (Piano.init s s steps) = [(0, 0, 0)%R] /\
  Piano.total_cost (Piano.init s s steps) = 0%R.
Proof.
  intros Hsteps.
  assert (Hstates : Piano.get_states (Piano.init s s steps) = [s; s]).
  { destruct steps as [| [| [| n]]]; [reflexivity | reflexivity
                                      | reflexivity | lia]. }
  split; [exact Hstates |]. split.
  - unfold Piano.get_actions. rewrite Hstates.
    cbn [removelast tl combine map]. f_equal.
    destruct s as [[sx sy] sa].
    unfold Piano.action, Piano.matvec2, Piano.rot_matrix.
    unfold Rdiv. tuple_eq; ring.
  - apply standing_still.
Qed.

Lemma standing_still_costs_nothing_witness :
  Piano.get_states (Piano.init (4, 0, 1)%R (4, 0, 1)%R 2)
  = [(4, 0, 1)%R; (4, 0, 1)%R] /\
  Piano.get_actions (Piano.init (4, 0, 1)%R (4, 0, 1)%R 2) = [(0, 0, 0)%R] /\
  Piano.total_cost (Piano.init (4, 0, 1)%R (4, 0, 1)%R 2) = 0%R.
Proof. apply (standing_still_costs_nothing (4, 0, 1)%R 2). lia. Defined.

(* ----------------------------------------------------------------- *)
(** ** The pixels that are no interest point *)

(** X28. [not_POI] is the grid without the interest points: its rows are
    pairwise different, a coordinate is a row if and only if it is in the
    grid and is no interest point, and, the keypoints being in the grid,
    the interest points and [not_POI] together count W * H rows. *)
Theorem not_POI_is_the_complement
        (F : Type) (E : Externals F) (self : Estimator F)
        (img : image (Byte.byte * Byte.byte * Byte.byte)) :
  set_iter_spec E -> keypoints_in_grid E (W self) (H self) ->
  let POI := find_POI img in
  let not_POI := complement_of (reshape_rows (coords self)) POI in
  NoDup (points not_POI) /\
  (forall p, In p (points not_POI) <->
             in_grid (W self) (H self) p /\ ~ In p (points POI)) /\
  shape0 POI + shape0 not_POI = W self * H self.
Proof.
  intros Hset Hgrid POI not_POI.
  assert (HPOI : NoDup (points POI) /\
                 forall p, In p (points POI) -> in_grid (W self) (H self) p).
  { unfold POI, find_POI. rewrite points_np_array. split; [apply Hset |].
    intros p Hp. apply (Hgrid img). now apply (proj2 (Hset _)). }
  destruct HPOI as [HndP HinP].
  assert (Hnd : NoDup (points not_POI)).
  { unfold not_POI, complement_of. rewrite points_np_array. apply Hset. }
  assert (Hin : forall p, In p (points not_POI) <->
                          in_grid (W self) (H self) p /\ ~ In p (points POI)).
  { intros p. unfold not_POI, complement_of. rewrite points_np_array.
    rewrite (proj2 (Hset _)), filter_In, (proj2 (Hset _)), not_mem_pixel.
    unfold reshape_rows, coords; cbn [points]. now rewrite in_meshgrid. }
  split; [exact Hnd |]. split; [exact Hin |].
  rewrite !shape0_points, <- length_app, <- length_meshgrid_rows.
  apply Permutation_length. apply NoDup_Permutation.
  - apply NoDup_app; [assumption | assumption |].
    intros p Hp Hp'. now apply Hin in Hp'.
  - apply NoDup_meshgrid.
  - intros p. rewrite in_app_iff, in_meshgrid. split.
    + intros [Hp | Hp]; [now apply HinP | now apply Hin in Hp].
    + intros Hp. destruct (in_dec pixel_eq_dec p (points POI)) as [Hy | Hn];
        [now left | right; apply Hin; now split].
Qed.

(** The theorem for a 2 x 1 image with one keypoint, reported twice. *)
Lemma not_POI_is_the_complement_witness :
  let E := stub (F := R) [(1, 0); (1, 0)] in
  let self :=
    stub_estimator 1 1 "interest_points" (flat_renderer 2 1 0%R 0%R)
                   None 0%R in
  let POI := find_POI [] in
  let not_POI := complement_of (reshape_rows (coords self)) POI in
  NoDup (points not_POI) /\
  (forall p, In p (points not_POI) <->
             in_grid (W self) (H self) p /\ ~ In p (points POI)) /\
  shape0 POI + shape0 not_POI = W self * H self.
Proof.
  intros E self.
  apply (not_POI_is_the_complement R E self []).
  - apply stub_set_iter_spec.
  - apply stub_keypoints_in_grid. repeat constructor.
Defined.

(* ----------------------------------------------------------------- *)
(** ** The targets of the iterations *)

Ltac hoare_any :=
  first
    [ apply hoare_ret; exact I
    | apply hoare_raise | apply hoare_py_return
    | apply hoare_emit; exact I
    | apply hoare_draw; intros; exact I
    | apply hoare_draw_unseeded
    | apply hoare_set_pose_prior
    | eapply hoare_conseq; [apply hoare_need | trivial]
    | eapply hoare_conseq; [apply hoare_index | trivial]
    | eapply hoare_conseq; [apply hoare_torch_try | trivial]
    | eapply hoare_bind with (Q1 := fun _ => True); [| intros ? _]
    | match goal with
      | |- hoare (if ?c then _ else _) _ _ => destruct c
      | |- hoare (match ?o with Some _ => _ | None => _ end) _ _ =>
          destruct o
      | |- hoare (match ?a with Empty1D => _ | Rows _ => _ end) _ _ =>
          destruct a
      | |- hoare (match ?l with [] => _ | _ :: _ => _ end) _ _ =>
          destruct l
      | |- hoare (let '(_, _) := ?p in _) _ _ => destruct p
      end ].

Lemma pixel_at_In {A} (img : image A) (p : pixel) (c : A) :
  pixel_at img p = Some c -> In c (concat img).
Proof.
  unfold pixel_at. destruct (nth_error img (snd p)) as [row |] eqn:Hrow;
    [| discriminate].
  intros Hc. apply in_concat. exists row.
  split; [eapply nth_error_In; exact Hrow | eapply nth_error_In; exact Hc].
Qed.

Section TargetsInvariant.
Context {F : Type} {SF : Scalar F} {E : Externals F}.
Variable self : Estimator F.
Variable img : image (F * F * F).

Let P : event F -> Prop := targets_from img.

Lemma hoare_gather_from (b : coord_array) :
  hoare (gather img b) (fun t => Forall (fun c => In c (concat img)) t) P.
Proof.
  unfold gather. eapply hoare_bind; [apply hoare_columns | intros ps _].
  eapply hoare_conseq; [apply hoare_index |].
  intros t Ht. apply all_some_spec in Ht.
  apply Forall_forall. intros c Hc.
  assert (Hin : In (Some c) (map (pixel_at img) ps))
    by (rewrite Ht; now apply in_map).
  apply in_map_iff in Hin. destruct Hin as [p [Hp _]].
  now apply pixel_at_In in Hp.
Qed.

Lemma targets_of_iteration (start_pose : mat4 F)
      (obs_img_depth : option (image F))
      (grid : coord_array) (POI not_POI regions : option coord_array)
      (refs : F * F * F * F) (k : nat) (st : locals) :
  hoare (iteration self start_pose img obs_img_depth grid
                   POI not_POI regions refs k st)
        (fun _ => True) P.
Proof.
  unfold iteration.
  eapply hoare_bind with (Q1 := fun _ => True).
  { unfold resample, np_random_choice, take, assign_rows, print.
    repeat hoare_any. }
  intros b _.
  eapply hoare_bind; [apply hoare_gather_from | intros target_s Ht].
  eapply hoare_bind; [apply hoare_emit; exact Ht | intros _ _].
  unfold gather, columns, report, print.
  repeat hoare_any.
Qed.

Lemma targets_of_rest (start_pose : mat4 F)
      (obs_img_pose : mat4 F) (obs_img_depth : option (image F))
      (POI : option coord_array) (refs : F * F * F * F) :
  hoare
    (interest_regions <-
       (if strategy_is self "interest_regions"
        then POI <- need POI ;;
             r <- interest_region_coords self POI ;; ret (Some r)
        else ret None) ;;
     not_POI <-
       (if strategy_is self "interest_points"
        then POI <- need POI ;;
             ret (Some (complement_of (reshape_rows (coords self)) POI))
        else ret None) ;;
     cam_transf <- new_camera_transf ;;
     st <- for_each (seq 0 (iter self))
                    (iteration self start_pose img obs_img_depth
                               (reshape_rows (coords self)) POI not_POI
                               interest_regions refs)
                    {| cam_transf := cam_transf;
                       optim := {| moments := adam_init; lr := lrate self |};
                       batch := None; pose := None |} ;;
     pose <- need (pose st) ;;
     set_pose_prior pose ;;;
     py_return (A := unit) (Some pose))
    (fun _ => True) P.
Proof.
  eapply hoare_bind with (Q1 := fun _ => True).
  { unfold interest_region_coords, columns. repeat hoare_any. }
  intros regions _.
  eapply hoare_bind with (Q1 := fun _ => True); [repeat hoare_any |].
  intros not_POI _.
  eapply hoare_bind with (Q1 := fun _ => True).
  { unfold new_camera_transf. repeat hoare_any. }
  intros cam _.
  eapply hoare_bind with (Q1 := fun _ => True).
  { apply hoare_for_each; [| exact I]. intros k st _.
    apply targets_of_iteration. }
  intros st _. repeat hoare_any.
Qed.

End TargetsInvariant.

(** The targets of every iteration of a call are pixels of the image
    that the noise leaves. *)
Lemma targets_of_estimate_pose {F} {SF : Scalar F} {E : Externals F}
      (self : Estimator F) (start_pose : mat4 F)
      (obs_img : image (Byte.byte * Byte.byte * Byte.byte))
      (obs_img_pose : mat4 F) (obs_img_depth : option (image F))
      (s : world) (k : nat) (t : list (F * F * F)) :
  In (Targets k t)
     (snd (estimate_pose self start_pose obs_img obs_img_pose
                         obs_img_depth s)) ->
  Forall (fun c => In c (concat (noised_input self obs_img s))) t.
Proof.
  intros Hin. rewrite estimate_pose_events in Hin.
  assert (Hev : Forall (targets_from (noised_input self obs_img s))
                  (snd (estimate_pose_body self start_pose obs_img
                          obs_img_pose obs_img_depth s))).
  { unfold estimate_pose_body, noised_input. cbv zeta.
    assert (Hnoise_ev : forall i,
               hoare (apply_noise self
                        (change_brightness self (normalize obs_img)))
                     (fun _ => True) (targets_from i)).
    { intros i. unfold apply_noise, noised. repeat hoare_any. }
    destruct (apply_noise self (change_brightness self (normalize obs_img)) s)
      as [[[noised | value | e] s1] ev1] eqn:Hnoise.
    - rewrite (bind_events _ _ _ _ _ _ Hnoise). apply Forall_app. split.
      + pose proof (proj1 (Hnoise_ev noised s)) as Hev1.
        now rewrite Hnoise in Hev1.
      + apply (targets_of_rest self noised start_pose obs_img_pose
                 obs_img_depth _ (pose_angles obs_img_pose) s1).
    - unfold bind. rewrite Hnoise. cbn.
      pose proof (proj1 (Hnoise_ev [] s)) as Hev1.
      now rewrite Hnoise in Hev1.
    - unfold bind. rewrite Hnoise. cbn.
      pose proof (proj1 (Hnoise_ev [] s)) as Hev1.
      now rewrite Hnoise in Hev1. }
  apply (proj1 (Forall_forall _ _) Hev) in Hin. exact Hin.
Qed.

Lemma shift_value_raises (delta value : R) :
  (0 < delta)%R -> (delta <= 1 - 1 / 255)%R -> (0 <= value <= 1 / 255)%R ->
  (delta <= shift_value delta value <= delta + 1 / 255)%R.
Proof.
  intros Hpos Hsmall Hval. unfold shift_value; cbn.
  rewrite Rltb_false by lra.
  rewrite Rltb_false by lra.
  rewrite Rleb_true by lra.
  lra.
Qed.

Lemma change_brightness_on {E : Externals R} (self : Estimator R)
      (img : image (R * R * R)) :
  delta_brightness self <> 0%R ->
  change_brightness self img =
    map_img cvt_HSV2RGB
      (shift_brightness (delta_brightness self)
                        (map_img cvt_RGB2HSV (renormalize img))).
Proof.
  intros Hdelta. unfold change_brightness; cbn.
  rewrite Reqb_false by exact Hdelta. reflexivity.
Qed.

(** The image that enters the conversion to HSV and the value channel
    that the shift leaves. *)
Lemma brightness_shift_ranges
      (E : Externals R) (self : Estimator R)
      (obs_img : image (Byte.byte * Byte.byte * Byte.byte)) :
  value_is_max E ->
  let twice := renormalize (normalize obs_img) in
  let delta := delta_brightness self in
  let shifted := shift_brightness delta (map_img cvt_RGB2HSV twice) in
  twice = map_img twice_divided obs_img /\
  all_pixels dim_colour twice /\
  all_pixels (fun value => (0 <= value <= 1 / 255)%R)
             (value_channel (map_img cvt_RGB2HSV twice)) /\
  ((delta < 0)%R -> (1 / 255 < Rabs delta)%R ->
   all_pixels (fun value => value = 0%R) (value_channel shifted)) /\
  ((0 < delta)%R -> (delta <= 1 - 1 / 255)%R ->
   all_pixels (fun value => (delta <= value <= delta + 1 / 255)%R)
              (value_channel shifted)).
Proof.
  intros Hmax twice delta shifted.
  assert (Htwice : twice = map_img twice_divided obs_img)
    by apply renormalize_normalize.
  assert (Hvalue : all_pixels (fun value => (0 <= value <= 1 / 255)%R)
                     (value_channel (map_img cvt_RGB2HSV twice))).
  { rewrite Htwice. unfold value_channel. rewrite !map_img_map_img.
    apply all_pixels_map, all_pixels_true. intros p.
    pose proof (twice_divided_dim p) as Hp.
    destruct (twice_divided p) as [[r g] b]. rewrite Hmax.
    unfold dim_colour in Hp. unfold Rmax.
    destruct (Rle_dec r g); destruct (Rle_dec _ b); lra. }
  split; [exact Htwice |]. split.
  { rewrite Htwice. apply all_pixels_map, all_pixels_true.
    apply twice_divided_dim. }
  split; [exact Hvalue |]. split.
  - intros Hneg Hbig. unfold shifted. rewrite value_channel_shift.
    apply all_pixels_map. revert Hvalue. apply all_pixels_impl.
    intros value Hv. now apply shift_value_clamps.
  - intros Hpos Hsmall. unfold shifted. rewrite value_channel_shift.
    apply all_pixels_map. revert Hvalue. apply all_pixels_impl.
    intros value Hv. now apply shift_value_raises.
Qed.

Lemma noised_input_noiseless {F} {SF : Scalar F} {E : Externals F}
      (self : Estimator F)
      (obs_img : image (Byte.byte * Byte.byte * Byte.byte)) (s : world) :
  noiseless self ->
  noised_input self obs_img s = change_brightness self (normalize obs_img).
Proof.
  intros Hquiet. unfold noised_input.
  now rewrite (apply_noise_noiseless self _ Hquiet).
Qed.

Lemma bind_events_incl {F} {E : Externals F} {A B} (m : M A) (f : A -> M B)
      (s : world) (e : event F) :
  In e (snd (m s)) -> In e (snd (bind m f s)).
Proof.
  unfold bind. destruct (m s) as [[[a | value | e'] s'] ev]; cbn; auto.
  destruct (f a s') as [[r s''] ev']. cbn. intros He.
  apply in_or_app. now left.
Qed.

Lemma bind_emit_events {F} {E : Externals F} {B} (e : event F)
      (f : unit -> M B) (s : world) :
  snd (bind (emit e) f s) = e :: snd (f tt s).
Proof. rewrite bind_emit_run. now destruct (f tt s) as [[r s'] ev]. Qed.

(** Under the strategy random, without noise, the first iteration of a
    call takes its targets from the observed image. *)
Lemma first_targets {F} {SF : Scalar F} {E : Externals F}
      (self : Estimator F) (start_pose : mat4 F)
      (obs_img : image (Byte.byte * Byte.byte * Byte.byte))
      (obs_img_pose : mat4 F) (obs_img_depth : option (image F))
      (s : world) :
  permutation_spec E -> noiseless self ->
  strategy_is self "random" = true ->
  iter self <> 0 ->
  batch_size self <= W self * H self ->
  shape obs_img = repeat (W self) (H self) ->
  exists t,
    In (Targets 0 t)
       (snd (estimate_pose self start_pose obs_img obs_img_pose
                           obs_img_depth s)).
Proof.
  intros Hperm Hquiet Hs Hiter Hle Himg. rewrite estimate_pose_events.
  unfold estimate_pose_body. cbv zeta.
  rewrite (apply_noise_noiseless self _ Hquiet), bind_ret_l.
  rewrite (strategy_is_other self "random" "interest_regions" Hs)
    by discriminate.
  rewrite (strategy_is_other self "random" "interest_points" Hs)
    by discriminate.
  cbn [orb]. rewrite !bind_ret_l.
  destruct (new_camera_transf_runs s) as [cam [s2 [Hcam _]]].
  rewrite (bind_events _ _ _ _ _ _ Hcam).
  destruct (iter self) as [| n]; [congruence |]. cbn [seq for_each].
  match goal with
  | |- context [bind (bind (iteration ?a ?b ?c ?d ?e ?f ?g ?h ?i 0 ?st) _) _] =>
      assert (Hit : exists t,
                 In (Targets 0 t) (snd (iteration a b c d e f g h i 0 st s2)))
  end.
  { unfold iteration.
    replace (0 mod Globals.N) with 0 by reflexivity. cbn [Nat.eqb].
    destruct (resample_random_runs self None None None s2 Hperm Hs Hle)
      as [rows [s1 [Hres Hrows]]].
    assert (Hshape : shape (change_brightness self (normalize obs_img))
                     = repeat (W self) (H self)).
    { rewrite change_brightness_shape. unfold normalize.
      now rewrite shape_map_img. }
    destruct (gather_runs (change_brightness self (normalize obs_img))
                _ _ rows s1 Hshape Hrows) as [target_s [Htarget _]].
    exists target_s.
    rewrite bind_assoc, (bind_events _ _ _ _ _ _ Hres). cbn [app].
    rewrite bind_assoc, bind_emit_events, bind_ret_l.
    rewrite (bind_events _ _ _ _ _ _ Htarget). cbn [app].
    rewrite bind_emit_events. right. now left. }
  destruct Hit as [t Ht]. exists t. apply in_or_app. right.
  now apply bind_events_incl, bind_events_incl.
Qed.

(** C4 (as amended). With a brightness delta other than 0 the observed
    image is divided by 255 once more after it was normalized: the image
    that is converted to HSV holds every byte divided by 255 twice, so
    its channels and the value channel that the shift reads lie in
    [0, 1/255].  The value channel that the shift leaves is 0 in every
    entry for a negative delta with |delta| > 1/255, and lies in
    [delta, delta + 1/255], not in [0, 1/255], for a positive delta of at
    most 1 - 1/255.  The targets of every iteration of the call are
    pixels of the image that the conversion back to RGB and the noise
    make of the shifted one; without noise that is the converted image
    itself, and under the strategy random, with at least one iteration,
    a batch size of at most W * H and an observed image of H rows of W
    pixels, the first iteration takes such targets. *)
Theorem brightness_divides_twice
        (E : Externals R) (self : Estimator R) (start_pose : mat4 R)
        (obs_img : image (Byte.byte * Byte.byte * Byte.byte))
        (obs_img_pose : mat4 R) (obs_img_depth : option (image R))
        (s : world) :
  value_is_max E ->
  delta_brightness self <> 0%R ->
  let twice := renormalize (normalize obs_img) in
  let delta := delta_brightness self in
  let shifted := shift_brightness delta (map_img cvt_RGB2HSV twice) in
  change_brightness self (normalize obs_img) = map_img cvt_HSV2RGB shifted /\
  twice = map_img twice_divided obs_img /\
  all_pixels dim_colour twice /\
  all_pixels (fun value => (0 <= value <= 1 / 255)%R)
             (value_channel (map_img cvt_RGB2HSV twice)) /\
  ((delta < 0)%R -> (1 / 255 < Rabs delta)%R ->
   all_pixels (fun value => value = 0%R) (value_channel shifted)) /\
  ((0 < delta)%R -> (delta <= 1 - 1 / 255)%R ->
   all_pixels (fun value => (delta <= value <= delta + 1 / 255)%R)
              (value_channel shifted)) /\
  (forall k t,
      In (Targets k t)
         (snd (estimate_pose self start_pose obs_img obs_img_pose
                             obs_img_depth s)) ->
      Forall (fun c => In c (concat (noised_input self obs_img s))) t) /\
  (noiseless self ->
   noised_input self obs_img s = map_img cvt_HSV2RGB shifted) /\
  (permutation_spec E -> noiseless self ->
   strategy_is self "random" = true -> iter self <> 0 ->
   batch_size self <= W self * H self ->
   shape obs_img = repeat (W self) (H self) ->
   exists t,
     In (Targets 0 t)
        (snd (estimate_pose self start_pose obs_img obs_img_pose
                            obs_img_depth s))).
Proof.
  intros Hmax Hdelta twice delta shifted.
  destruct (brightness_shift_ranges E self obs_img Hmax)
    as [H1 [H2 [H3 [H4 H5]]]].
  split; [now apply change_brightness_on |].
  split; [exact H1 |]. split; [exact H2 |]. split; [exact H3 |].
  split; [exact H4 |]. split; [exact H5 |]. split; [| split].
  - intros k t. apply targets_of_estimate_pose.
  - intros Hquiet. rewrite (noised_input_noiseless self obs_img s Hquiet).
    now apply change_brightness_on.
  - apply first_targets.
Qed.

(** The amended statement on a call with a white pixel, darkened by one
    half: the value channel that the shift leaves is 0. *)
Lemma brightness_divides_twice_witness :
  let self :=
    stub_estimator 1 1 "random" (flat_renderer 1 1 0%R 0%R) None (- (1 / 2))%R in
  let obs_img := [[(Byte.xff, Byte.xff, Byte.xff)]] in
  all_pixels (fun value => value = 0%R)
    (value_channel
       (shift_brightness (delta_brightness self)
          (map_img (cvt_RGB2HSV (Externals := stub []))
                   (renormalize (normalize obs_img))))).
Proof.
  intros self obs_img.
  apply (brightness_divides_twice (stub []) self eye4 obs_img eye4
           (Some (flat_image 1 1 0%R)) (stub_world [] 0)).
  - apply stub_value_is_max.
  - cbn. lra.
  - cbn. lra.
  - cbn. rewrite Rabs_left; lra.
Defined.

Lemma targets_In {F} (ev : list (event F)) (k : nat)
      (t : list (F * F * F)) :
  In (k, t) (targets ev) -> In (Targets k t) ev.
Proof.
  induction ev as [| e ev IH]; [contradiction |].
  destruct e; cbn; intros Hin; try (right; now apply IH).
  destruct Hin as [[= -> ->] | Hin]; [now left | right; now apply IH].
Qed.

Lemma in_concat_map_img {A B} (f : A -> B) (img : image A) (c : B) :
  In c (concat (map_img f img)) -> exists a, In a (concat img) /\ c = f a.
Proof.
  unfold map_img. intros Hc. apply in_concat in Hc.
  destruct Hc as [row [Hrow Hc]]. apply in_map_iff in Hrow.
  destruct Hrow as [row0 [<- Hrow0]]. apply in_map_iff in Hc.
  destruct Hc as [a [<- Ha]]. exists a. split; [| reflexivity].
  apply in_concat. now exists row0.
Qed.

Lemma in_map_img_concat {A B} (f : A -> B) (img : image A) (a : A) :
  In a (concat img) -> In (f a) (concat (map_img f img)).
Proof.
  intros Ha. apply in_concat in Ha. destruct Ha as [row [Hrow Ha]].
  apply in_concat. exists (map f row).
  split; [now apply in_map | now apply in_map].
Qed.

Lemma all_pixels_In {A} (P : A -> Prop) (img : image A) (a : A) :
  all_pixels P img -> In a (concat img) -> P a.
Proof.
  unfold all_pixels. intros Himg Ha. apply in_concat in Ha.
  destruct Ha as [row [Hrow Ha]].
  apply (proj1 (Forall_forall _ _) Himg) in Hrow.
  now apply (proj1 (Forall_forall _ _) Hrow).
Qed.

(** C4 as stated fails: with the positive delta 1/2 and a white pixel,
    the target of the first iteration has the red channel above 1/255. *)
Lemma brightened_target_exceeds :
  let E := stub (F := R) [] in
  let self :=
    stub_estimator 1 1 "random" (flat_renderer 1 1 0%R 0%R) None (1 / 2)%R in
  let run :=
    estimate_pose self eye4 [[(Byte.xff, Byte.xff, Byte.xff)]] eye4
                  (Some (flat_image 1 1 0%R)) (stub_world [] 0) in
  delta_brightness self <> 0%R /\
  exists t c,
    In (Targets 0 t) (snd run) /\ In c t /\ (1 / 255 < fst (fst c))%R.
Proof.
  intros E self run.
  assert (Hdelta : delta_brightness self <> 0%R) by (cbn; lra).
  split; [exact Hdelta |].
  assert (Hshape : map (fun kt => (fst kt, length (snd kt)))
                       (targets (snd run)) = [(0, 1)]).
  { subst run. unfold estimate_pose, estimate_pose_body.
    rewrite (change_brightness_on self _ Hdelta).
    lazy. reflexivity. }
  destruct (targets (snd run)) as [| [k t] rest] eqn:Htargets;
    [discriminate |].
  destruct rest; [| discriminate].
  cbn in Hshape. injection Hshape as -> Hlen.
  destruct t as [| c [| c' t]]; try discriminate.
  assert (Hin : In (Targets 0 [c]) (snd run)).
  { apply targets_In. rewrite Htargets. now left. }
  exists [c], c. split; [exact Hin |]. split; [now left |].
  pose proof (targets_of_estimate_pose self eye4 _ eye4 _ _ 0 [c] Hin) as Hc.
  apply Forall_inv in Hc.
  rewrite (noised_input_noiseless self _ _) in Hc by (repeat split).
  rewrite (change_brightness_on self _ Hdelta) in Hc.
  apply in_concat_map_img in Hc. destruct Hc as [[[h sat] value] [Hx ->]].
  destruct (brightness_shift_ranges E self
              [[(Byte.xff, Byte.xff, Byte.xff)]] (stub_value_is_max []))
    as [_ [_ [_ [_ Hpos]]]].
  assert (Hvalue : (1 / 2 <= value <= 1 / 2 + 1 / 255)%R).
  { apply (all_pixels_In _ _ value (Hpos ltac:(cbn; lra) ltac:(cbn; lra))).
    unfold value_channel. change value with (snd (h, sat, value)).
    now apply in_map_img_concat. }
  cbn. lra.
Qed.
